(** * RLVR translation gym: bandit, aggregator, ranking and metrics

    A shallow embedding of the Python sources under [rlvr/] and of the
    properties stated about them.

    Conventions.
    - A Python [str] is a Rocq [string] holding its UTF-8 bytes.
    - A Python [float] is the rational number it denotes ([Q]). The
      arithmetic of the bandit's update and of the aggregator is binary64
      arithmetic: every operation rounds its exact result to the nearest
      binary64 value, ties to even ([Float64.round]), and a rational that
      is not a binary64 value is read as the nearest one, the way a decimal
      literal is. Infinities, NaN and overflow are not modelled. The other
      float operations (the ratios of the metrics, the selection rate, the
      products of the breakdown, the summary's average) are taken without
      their rounding. Every division is guarded the way the interpreter
      guards it (a zero divisor raises [ZeroDivisionError]).
    - A Python [int] is a [Z].
    - A [dict] with string keys is a [gmap string _]; a dict literal that is
      only ever written out (history entries) is a JSON object.
    - A method that mutates [self] and may raise is a state transformer that
      returns the state reached together with the value or the exception:
      what was written before the [raise] stays written. *)

From Stdlib Require Import Ascii String QArith Qabs Qround Qpower Lqa.
From stdpp Require Import gmap strings list fin_maps sorting pretty.

Local Set Warnings "-register-all".
Local Open Scope Z_scope.
Local Open Scope Q_scope.
Local Open Scope string_scope.
Local Open Scope list_scope.
Local Open Scope stdpp_scope.

(** ** Exceptions and outcomes *)

Inductive exn : Type :=
| ValueError (msg : string)
| KeyError (key : string)
| IndexError
| ZeroDivisionError
| FileNotFoundError (path : string)
| TypeError (what : string).

Inductive outcome (A : Type) : Type :=
| Ok (a : A)
| Raise (e : exn).
Arguments Ok {A} a.
Arguments Raise {A} e.

#[global] Instance outcome_ret : MRet outcome := @Ok.
#[global] Instance outcome_bind : MBind outcome := fun A B k o =>
  match o with
  | Ok a => k a
  | Raise e => Raise e
  end.

(** [max(a, b)] on floats: the first argument unless the second is larger. *)
Definition fmax (a b : Q) : Q := if Qlt_le_dec a b then b else a.

(** ** Binary64 arithmetic

    A finite binary64 value is [k * 2^q] with [|k| <= 2^53] and
    [q >= -1074]. [round] takes a rational to the nearest such value, ties
    to the even [k]: the step [2^q] at [x] is [2^(e - 52)] for
    [2^e <= |x| < 2^(e + 1)], and not below [2^(-1074)]. The operations are
    the exact ones followed by [round], as IEEE 754 defines them. *)

Module Float64.

Definition pow2 (e : Z) : Q := 2 ^ e.

(** [floor (log2 x)] for a positive [x]. *)
Definition ilog2 (x : Q) : Z :=
  let d := (Z.log2 (Qnum x) - Z.log2 (Zpos (Qden x)))%Z in
  if Qle_bool (pow2 d) x then d else (d - 1)%Z.

(** The nearest integer, a tie going to the even one. *)
Definition round_half_even (t : Q) : Z :=
  let f := Qfloor t in
  match Qcompare (t - inject_Z f) (1 # 2) with
  | Lt => f
  | Gt => (f + 1)%Z
  | Eq => if Z.even f then f else (f + 1)%Z
  end.

(** The exponent of the step at a positive [x]. *)
Definition ulp_exponent (x : Q) : Z := Z.max (ilog2 x - 52) (-1074).

Definition round_pos (x : Q) : Q :=
  inject_Z (round_half_even (x / pow2 (ulp_exponent x))) * pow2 (ulp_exponent x).

Definition round (x : Q) : Q :=
  match Qcompare x 0 with
  | Eq => 0
  | Gt => round_pos x
  | Lt => - round_pos (- x)
  end.

(** The binary64 values. *)
Definition representable (y : Q) : Prop :=
  ∃ (k q : Z), (Z.abs k <= 2 ^ 53)%Z ∧ (-1074 <= q)%Z ∧ y == inject_Z k * pow2 q.

(** [x + y], [x - y], [x * y] and [x / y] on floats, and [float(n)]. *)
Definition add (x y : Q) : Q := round (round x + round y).
Definition sub (x y : Q) : Q := round (round x - round y).
Definition mul (x y : Q) : Q := round (round x * round y).
Definition div (x y : Q) : Q := round (round x / round y).
Definition of_int (n : Z) : Q := round (inject_Z n).

(** [x / n] for a float [x] and an int [n]: the int is converted first. *)
Definition truediv (x : Q) (n : Z) : outcome Q :=
  if (n =? 0)%Z then Raise ZeroDivisionError else Ok (div x (of_int n)).

(** Half the distance between two neighbouring floats below 1: [2^(-54)]. *)
Definition half_ulp : Q := 1 # 18014398509481984.

(** The unit roundoff, [2^(-53)]. *)
Definition unit_roundoff : Q := 1 # 9007199254740992.

(** Rounding a number of the normal range multiplies it by a factor between
    these two. *)
Definition lower : Q := 1 - unit_roundoff.
Definition upper : Q := 1 + unit_roundoff.

(** [b ^ k], by repeated multiplication. *)
Fixpoint pow (b : Q) (k : nat) : Q :=
  match k with
  | O => 1
  | S k' => b * pow b k'
  end.

(** A number that is zero or of a magnitude at which neither its products
    nor its sums leave the normal range of binary64. *)
Definition in_range (x : Q) : Prop := x == 0 ∨ pow2 (-200) <= x <= pow2 200.
End Float64.

#[global] Arguments Float64.round : simpl never.
#[global] Arguments Float64.add : simpl never.
#[global] Arguments Float64.sub : simpl never.
#[global] Arguments Float64.mul : simpl never.
#[global] Arguments Float64.div : simpl never.
#[global] Arguments Float64.of_int : simpl never.

(** ** JSON documents, as [json.dump] writes and [json.load] reads them *)

Inductive json : Type :=
| JNull
| JBool (b : bool)
| JInt (z : Z)
| JFloat (q : Q)
| JStr (s : string)
| JArr (l : list json)
| JObj (l : list (string * json)).

(** [d[key]] on a loaded document. *)
Definition json_get (key : string) (d : json) : outcome json :=
  match d with
  | JObj l =>
      match List.find (fun kv => bool_decide (kv.1 = key)) (rev l) with
      | Some kv => Ok kv.2
      | None => Raise (KeyError key)
      end
  | _ => Raise (TypeError "document is not an object")
  end.

(** [d.get(key, default)]. *)
Definition json_get_default (key : string) (default : json) (d : json) : json :=
  match json_get key d with
  | Ok v => v
  | Raise _ => default
  end.

(** ** Python's stable sort, [list.sort(key=..., reverse=True)]

    The result of a stable sort is determined by the keys, so the built-in
    is modelled by a stable insertion sort: an element goes in front of the
    first element whose key is not larger, hence behind every element with a
    larger key and in front of later elements with an equal key. *)

Section SortDesc.
Context {A : Type} (key : A → Q).

Fixpoint insert_desc (x : A) (l : list A) : list A :=
  match l with
  | [] => [x]
  | y :: l' =>
      if Qle_bool (key y) (key x) then x :: y :: l'
      else y :: insert_desc x l'
  end.

Fixpoint sort_desc (l : list A) : list A :=
  match l with
  | [] => []
  | x :: l' => insert_desc x (sort_desc l')
  end.
End SortDesc.

(** ** optimizer/bandit.py *)

Module Bandit.

Record bandit : Type := mk_bandit {
  prompts : list string;
  epsilon : Q;
  values : gmap string Q;
  counts : gmap string Z;
  total_selections : Z;
  history : list json
}.

(** A method body: state in, state out, with a value or an exception. *)
Definition M (A : Type) : Type := bandit → bandit * outcome A.

Definition ret {A} (a : A) : M A := fun self => (self, Ok a).
Definition raise {A} (e : exn) : M A := fun self => (self, Raise e).
Definition bind {A B} (m : M A) (k : A → M B) : M B :=
  fun self =>
    match m self with
    | (self', Ok a) => k a self'
    | (self', Raise e) => (self', Raise e)
    end.
Definition get : M bandit := fun self => (self, Ok self).
Definition lift {A} (o : outcome A) : M A := fun self => (self, o).

#[global] Instance M_ret : MRet M := @ret.
#[global] Instance M_bind : MBind M := fun A B k m => bind m k.

(** [d[k]] on a dict. *)
Definition getitem {V} (d : gmap string V) (k : string) : outcome V :=
  match d !! k with
  | Some v => Ok v
  | None => Raise (KeyError k)
  end.

Definition set_prompts (ps : list string) : M unit :=
  fun self => (mk_bandit ps (epsilon self) (values self) (counts self)
                 (total_selections self) (history self), Ok tt).
Definition set_epsilon (eps : Q) : M unit :=
  fun self => (mk_bandit (prompts self) eps (values self) (counts self)
                 (total_selections self) (history self), Ok tt).
Definition set_history (h : list json) : M unit :=
  fun self => (mk_bandit (prompts self) (epsilon self) (values self)
                 (counts self) (total_selections self) h, Ok tt).
Definition set_values (v : gmap string Q) : M unit :=
  fun self => (mk_bandit (prompts self) (epsilon self) v (counts self)
                 (total_selections self) (history self), Ok tt).
Definition set_counts (c : gmap string Z) : M unit :=
  fun self => (mk_bandit (prompts self) (epsilon self) (values self) c
                 (total_selections self) (history self), Ok tt).
Definition set_total_selections (n : Z) : M unit :=
  fun self => (mk_bandit (prompts self) (epsilon self) (values self)
                 (counts self) n (history self), Ok tt).
Definition history_append (e : json) : M unit :=
  self ← get; set_history (history self ++ [e]).

(** [{p: v for p in prompts}] *)
Definition dict_comprehension {V} (v : V) (ps : list string) : gmap string V :=
  foldl (fun d p => <[p := v]> d) ∅ ps.

(** [__init__(prompts, epsilon=0.2, initial_value=0.5)] *)
Definition init (ps : list string) (eps initial_value : Q) : bandit :=
  {| prompts := ps;
     epsilon := eps;
     values := dict_comprehension initial_value ps;
     counts := dict_comprehension 0%Z ps;
     total_selections := 0;
     history := [] |}.

Definition default_epsilon : Q := 2 # 10.
Definition default_initial_value : Q := 5 # 10.

(** [x / n] for a number [x] and an int [n], as one exact division. *)
Definition truediv (x : Q) (n : Z) : outcome Q :=
  if (n =? 0)%Z then Raise ZeroDivisionError else Ok (x / inject_Z n).

(** [update(prompt, reward)] *)
Definition update (prompt : string) (reward : Q) : M unit :=
  self ← get;
  if negb (bool_decide (prompt ∈ prompts self))
  then raise (ValueError ("Unknown prompt: " ++ prompt))
  else
    (* self.counts[prompt] += 1 *)
    c ← lift (getitem (counts self) prompt);
    set_counts (<[prompt := (c + 1)%Z]> (counts self));;
    self ← get;
    n ← lift (getitem (counts self) prompt);
    old_value ← lift (getitem (values self) prompt);
    delta ← lift (Float64.truediv (Float64.sub reward old_value) n);
    set_values (<[prompt := Float64.add old_value delta]> (values self));;
    self ← get;
    new_value ← lift (getitem (values self) prompt);
    history_append
      (JObj [("selection", JInt (total_selections self));
             ("prompt", JStr prompt);
             ("type", JStr "update");
             ("reward", JFloat reward);
             ("new_value", JFloat new_value);
             ("count", JInt n)]).

(** [max(prompts, key=lambda p: values[p])]: the first prompt whose value
    is not exceeded by a later one. *)
Fixpoint max_from (vals : gmap string Q) (best : string) (best_key : Q)
    (ps : list string) : outcome string :=
  match ps with
  | [] => Ok best
  | p :: ps' =>
      match getitem vals p with
      | Raise e => Raise e
      | Ok k =>
          if Qlt_le_dec best_key k then max_from vals p k ps'
          else max_from vals best best_key ps'
      end
  end.

Definition max_by_value (vals : gmap string Q) (ps : list string) : outcome string :=
  match ps with
  | [] => Raise (ValueError "max() arg is an empty sequence")
  | p :: ps' =>
      match getitem vals p with
      | Raise e => Raise e
      | Ok k => max_from vals p k ps'
      end
  end.

(** [random.choice(prompts)], the generator's draw given as [i]. *)
Definition choice (ps : list string) (i : nat) : outcome string :=
  match ps !! (i `mod` length ps)%nat with
  | Some p => Ok p
  | None => Raise IndexError
  end.

(** [pick()], with the two draws of the random generator as arguments:
    [u] is what [random.random()] returns, [i] selects the element that
    [random.choice] returns. *)
Definition pick (u : Q) (i : nat) : M string :=
  self ← get;
  set_total_selections (total_selections self + 1)%Z;;
  self ← get;
  sel ← (if Qlt_le_dec u (epsilon self)
          then p ← lift (choice (prompts self) i); ret (p, "explore")
          else p ← lift (max_by_value (values self) (prompts self));
               ret (p, "exploit"));
  v ← lift (getitem (values self) sel.1);
  history_append
    (JObj [("selection", JInt (total_selections self));
           ("prompt", JStr sel.1);
           ("type", JStr sel.2);
           ("value", JFloat v)]);;
  ret sel.1.

(** [get_stats()] *)
Record prompt_stat : Type := mk_prompt_stat {
  ps_prompt : string;
  ps_value : Q;
  ps_count : Z;
  ps_selection_rate : Q
}.

Record stats : Type := mk_stats {
  st_total_selections : Z;
  st_epsilon : Q;
  st_prompts : list prompt_stat
}.

Fixpoint stat_rows (self : bandit) (ps : list string) : outcome (list prompt_stat) :=
  match ps with
  | [] => Ok []
  | p :: ps' =>
      match getitem (values self) p, getitem (counts self) p with
      | Ok v, Ok c =>
          match stat_rows self ps' with
          | Ok rows =>
              Ok (mk_prompt_stat p v c
                    (inject_Z c / inject_Z (Z.max 1 (total_selections self)))
                  :: rows)
          | Raise e => Raise e
          end
      | Raise e, _ => Raise e
      | _, Raise e => Raise e
      end
  end.

Definition get_stats (self : bandit) : outcome stats :=
  match stat_rows self (prompts self) with
  | Ok rows =>
      Ok (mk_stats (total_selections self) (epsilon self)
            (sort_desc ps_value rows))
  | Raise e => Raise e
  end.

(** *** Persistence

    The file system is a map from paths to the documents stored there.
    [json.dump] followed by [json.load] gives back the document, so a file
    is identified with the document it holds. *)

(** [self.history[-100:]] *)
Definition last_entries (n : nat) (h : list json) : list json :=
  drop (length h - n) h.

Definition state_document (self : bandit) : json :=
  JObj [("prompts", JArr (JStr <$> prompts self));
        ("epsilon", JFloat (epsilon self));
        ("values", JObj (prod_map id JFloat <$> map_to_list (values self)));
        ("counts", JObj (prod_map id JInt <$> map_to_list (counts self)));
        ("total_selections", JInt (total_selections self));
        ("history", JArr (last_entries 100 (history self)))].

(** [save_state(filepath)] *)
Definition save_state (filepath : string) (self : bandit)
    (fs : gmap string json) : gmap string json :=
  <[filepath := state_document self]> fs.

(** Reading a loaded value at the type the state gives it. Python stores
    whatever the document holds; a document whose fields have other types
    than the state's is outside this typed model and is answered with
    [TypeError]. *)
Definition as_str (d : json) : outcome string :=
  match d with JStr s => Ok s | _ => Raise (TypeError "str") end.
Definition as_float (d : json) : outcome Q :=
  match d with
  | JFloat q => Ok q
  | JInt z => Ok (inject_Z z)
  | _ => Raise (TypeError "float")
  end.
Definition as_int (d : json) : outcome Z :=
  match d with JInt z => Ok z | _ => Raise (TypeError "int") end.

Fixpoint as_list {A} (f : json → outcome A) (l : list json) : outcome (list A) :=
  match l with
  | [] => Ok []
  | d :: l' =>
      match f d, as_list f l' with
      | Ok a, Ok r => Ok (a :: r)
      | Raise e, _ => Raise e
      | _, Raise e => Raise e
      end
  end.

(** A JSON object read as a dict: a repeated key keeps its last value. *)
Fixpoint as_dict_from {A} (f : json → outcome A) (acc : gmap string A)
    (l : list (string * json)) : outcome (gmap string A) :=
  match l with
  | [] => Ok acc
  | (k, d) :: l' =>
      match f d with
      | Ok a => as_dict_from f (<[k := a]> acc) l'
      | Raise e => Raise e
      end
  end.

Definition as_str_list (d : json) : outcome (list string) :=
  match d with JArr l => as_list as_str l | _ => Raise (TypeError "list") end.
Definition as_dict {A} (f : json → outcome A) (d : json) : outcome (gmap string A) :=
  match d with JObj l => as_dict_from f ∅ l | _ => Raise (TypeError "dict") end.
Definition as_history (d : json) : outcome (list json) :=
  match d with JArr l => Ok l | _ => Raise (TypeError "list") end.

(** [load_state(filepath)] *)
Definition load_state (filepath : string) (fs : gmap string json) : M unit :=
  match fs !! filepath with
  | None => raise (FileNotFoundError filepath)
  | Some state =>
      ps ← lift (d ← json_get "prompts" state; as_str_list d);
      set_prompts ps;;
      eps ← lift (d ← json_get "epsilon" state; as_float d);
      set_epsilon eps;;
      vs ← lift (d ← json_get "values" state; as_dict as_float d);
      set_values vs;;
      cs ← lift (d ← json_get "counts" state; as_dict as_int d);
      set_counts cs;;
      n ← lift (d ← json_get "total_selections" state; as_int d);
      set_total_selections n;;
      h ← lift (as_history (json_get_default "history" (JArr []) state));
      set_history h
  end.

End Bandit.

(** ** Python strings and the [re] module

    Methods that only look at ASCII characters or at fixed code points are
    written out on the UTF-8 bytes. What depends on the Unicode character
    database ([str.lower], [str.islower], [str.isalnum]) and the regular
    expression engine are the interpreter's, and are taken as an interface
    that the metrics are written against. *)

Module Py.
Local Open Scope nat_scope.

Definition byte_in (lo hi : nat) (c : ascii) : bool :=
  (lo <=? nat_of_ascii c)%nat && (nat_of_ascii c <=? hi)%nat.

(** Number of bytes of the code point that starts with byte [c]. *)
Definition char_width (c : ascii) : nat :=
  if byte_in 240 247 c then 4
  else if byte_in 224 239 c then 3
  else if byte_in 192 223 c then 2
  else 1.

Fixpoint take_bytes (n : nat) (s : string) : string :=
  match n, s with
  | S n', String c s' => String c (take_bytes n' s')
  | _, _ => EmptyString
  end.

Fixpoint drop_bytes (n : nat) (s : string) : string :=
  match n, s with
  | S n', String _ s' => drop_bytes n' s'
  | _, _ => s
  end.

(** [s[0] if s else ''] *)
Definition first_char (s : string) : string :=
  match s with
  | EmptyString => EmptyString
  | String c _ => take_bytes (char_width c) s
  end.

(** [len(s)]: the code points are the bytes that are not continuation
    bytes. *)
Fixpoint len (s : string) : nat :=
  match s with
  | EmptyString => 0
  | String c s' => (if byte_in 128 191 c then 0 else 1) + len s'
  end.

Definition startswith (s p : string) : bool := String.prefix p s.

Definition endswith (s p : string) : bool :=
  String.eqb (drop_bytes (String.length s - String.length p) s) p
  && (String.length p <=? String.length s)%nat.

(** [s.replace(old, new)] for a non-empty [old]; [skip] counts the bytes of
    an occurrence still to be passed over. *)
Fixpoint replace_from (old new : string) (skip : nat) (s : string) : string :=
  match s with
  | EmptyString => EmptyString
  | String c s' =>
      match skip with
      | S k => replace_from old new k s'
      | O =>
          if String.prefix old s
          then new ++ replace_from old new (String.length old - 1) s'
          else String c (replace_from old new 0 s')
      end
  end.

Definition replace (s old new : string) : string := replace_from old new 0 s.

(** [s.count(c)] for a one-byte [c]. *)
Fixpoint count_byte (c : ascii) (s : string) : nat :=
  match s with
  | EmptyString => 0
  | String c' s' => (if Ascii.eqb c c' then 1 else 0) + count_byte c s'
  end.

Fixpoint remove_bytes (cs : list ascii) (s : string) : string :=
  match s with
  | EmptyString => EmptyString
  | String c s' =>
      if bool_decide (c ∈ cs) then remove_bytes cs s'
      else String c (remove_bytes cs s')
  end.

(** Width in bytes of the white-space character at the head of [s], [0]
    when there is none. White space is what [str.isspace] accepts:
    U+0009..U+000D, U+001C..U+0020, U+0085, U+00A0, U+1680,
    U+2000..U+200A, U+2028, U+2029, U+202F, U+205F and U+3000. *)
Definition space_width (s : string) : nat :=
  match s with
  | EmptyString => 0
  | String c s' =>
      if byte_in 9 13 c || byte_in 28 32 c then 1
      else match nat_of_ascii c, s' with
           | 194, String d _ =>
               if bool_decide (nat_of_ascii d ∈ [133; 160]%nat) then 2 else 0
           | 225, String d (String e _) =>
               if (nat_of_ascii d =? 154)%nat && (nat_of_ascii e =? 128)%nat
               then 3 else 0
           | 226, String d (String e _) =>
               if (nat_of_ascii d =? 128)%nat
                  && (byte_in 128 138 e
                      || bool_decide (nat_of_ascii e ∈ [168; 169; 175]%nat))
               then 3
               else if (nat_of_ascii d =? 129)%nat && (nat_of_ascii e =? 159)%nat
               then 3 else 0
           | 227, String d (String e _) =>
               if (nat_of_ascii d =? 128)%nat && (nat_of_ascii e =? 128)%nat
               then 3 else 0
           | _, _ => 0
           end
  end.

Definition nonempty (s : string) : list string :=
  match s with EmptyString => [] | _ => [s] end.

(** [s.split()]: the maximal runs of characters that are not white space.
    [cur] is the run being read. *)
Fixpoint split_from (skip : nat) (cur : string) (s : string) : list string :=
  match s with
  | EmptyString => nonempty cur
  | String c s' =>
      match skip with
      | S k => split_from k cur s'
      | O =>
          match space_width s with
          | O => split_from 0 (cur ++ String c EmptyString) s'
          | S k => nonempty cur ++ split_from k EmptyString s'
          end
      end
  end.

Definition split (s : string) : list string := split_from 0 EmptyString s.

Fixpoint all_space_from (skip : nat) (s : string) : bool :=
  match s with
  | EmptyString => true
  | String _ s' =>
      match skip with
      | S k => all_space_from k s'
      | O =>
          match space_width s with
          | O => false
          | S k => all_space_from k s'
          end
      end
  end.

Fixpoint lstrip_from (skip : nat) (s : string) : string :=
  match s with
  | EmptyString => EmptyString
  | String _ s' =>
      match skip with
      | S k => lstrip_from k s'
      | O =>
          match space_width s with
          | O => s
          | S k => lstrip_from k s'
          end
      end
  end.

Fixpoint rstrip (s : string) : string :=
  match s with
  | EmptyString => EmptyString
  | String c s' =>
      if all_space_from 0 s then EmptyString else String c (rstrip s')
  end.

(** [s.strip()] *)
Definition strip (s : string) : string := rstrip (lstrip_from 0 s).

(** [s.rstrip(c)] and [s.strip(chars)] for one-byte characters. *)
Fixpoint all_in (cs : list ascii) (s : string) : bool :=
  match s with
  | EmptyString => true
  | String c s' => bool_decide (c ∈ cs) && all_in cs s'
  end.

Fixpoint rstrip_bytes (cs : list ascii) (s : string) : string :=
  match s with
  | EmptyString => EmptyString
  | String c s' =>
      if all_in cs s then EmptyString else String c (rstrip_bytes cs s')
  end.

Fixpoint lstrip_bytes (cs : list ascii) (s : string) : string :=
  match s with
  | EmptyString => EmptyString
  | String c s' => if bool_decide (c ∈ cs) then lstrip_bytes cs s' else s
  end.

Definition strip_bytes (cs : list ascii) (s : string) : string :=
  rstrip_bytes cs (lstrip_bytes cs s).

Definition dquote : ascii := ascii_of_nat 34.
Definition squote : ascii := ascii_of_nat 39.

(** [s] between double quotes. *)
Definition quoted (s : string) : string :=
  String dquote (s ++ String dquote EmptyString).

(** The characters of the class that [_normalize_word] deletes: full
    stop, comma, exclamation and question mark, semicolon, colon and the
    double quote. *)
Definition punctuation : list ascii :=
  ["."; ","; "!"; "?"; ";"; ":"; dquote]%char.

(** [s[:n]], counted in code points. *)
Fixpoint take_chars (n : nat) (s : string) : string :=
  match s with
  | EmptyString => EmptyString
  | String c s' =>
      if byte_in 128 191 c then String c (take_chars n s')
      else match n with
           | O => EmptyString
           | S n' => String c (take_chars n' s')
           end
  end.

Fixpoint all_continuation (s : string) : bool :=
  match s with
  | EmptyString => true
  | String c s' => byte_in 128 191 c && all_continuation s'
  end.

(** [s[:-1]] *)
Fixpoint drop_last_char (s : string) : string :=
  match s with
  | EmptyString => EmptyString
  | String c s' =>
      if all_continuation s' then EmptyString else String c (drop_last_char s')
  end.

(** [s[-1]] and [s[-2]] as one-character strings, empty when out of range. *)
Definition last_char (s : string) : string :=
  drop_bytes (String.length (drop_last_char s)) s.

(** [sub in s] *)
Fixpoint contains (s sub : string) : bool :=
  String.prefix sub s
  || match s with
     | EmptyString => false
     | String _ s' => contains s' sub
     end.

(** [s.find(sub)], an index in code points, [-1] when there is none. *)
Fixpoint find_from (i : Z) (s sub : string) : Z :=
  if String.prefix sub s then i
  else match s with
       | EmptyString => (-1)%Z
       | String _ s' =>
           find_from (match s' with
                      | String d _ => if byte_in 128 191 d then i else (i + 1)%Z
                      | EmptyString => i
                      end) s' sub
       end.

Definition find (s sub : string) : Z := find_from 0%Z s sub.

(** [s[a:b]] for [0 <= a], counted in code points. *)
Definition slice (s : string) (a b : nat) : string :=
  take_chars (b - a) (drop_bytes (String.length (take_chars a s)) s).

(** The index in code points of the character at byte offset [pos]. *)
Definition char_index (text : string) (pos : nat) : Z :=
  Z.of_nat (len (take_bytes pos text)).

(** A match object: [start()], [end()] (byte offsets) and [groups()]. *)
Record rmatch : Type := mk_rmatch {
  m_start : nat;
  m_end : nat;
  m_groups : list string
}.

(** What the interpreter supplies. [lower] is [str.lower]; [islower] and
    [isalnum] are the methods of that name on a string of one character;
    [finditer pattern ignorecase text] lists the non-overlapping matches of
    a well-formed pattern from left to right, found with the flag
    [re.IGNORECASE] when [ignorecase] is set. *)
Class Lib : Type := {
  lower : string → string;
  islower : string → bool;
  isalnum : string → bool;
  finditer : string → bool → string → list rmatch
}.

Section Re.
Context `{Lib}.

(** [m.group()] *)
Definition group0 (text : string) (m : rmatch) : string :=
  take_bytes (m_end m - m_start m) (drop_bytes (m_start m) text).

(** [re.search(pattern, text, flags)] as a truth value. *)
Definition search (pattern : string) (ignorecase : bool) (text : string) : bool :=
  match finditer pattern ignorecase text with
  | [] => false
  | _ :: _ => true
  end.

(** [re.match(pattern, text, flags)] as a truth value: the leftmost
    match starts the text. *)
Definition rematch (pattern : string) (ignorecase : bool) (text : string) : bool :=
  match finditer pattern ignorecase text with
  | m :: _ => (m_start m =? 0)%nat
  | [] => false
  end.

(** [re.findall(pattern, text)] for a pattern without capturing group. *)
Definition findall (pattern : string) (text : string) : list string :=
  group0 text <$> finditer pattern false text.

(** [re.split(pattern, text)] for a pattern without capturing group:
    the pieces between the matches. *)
Fixpoint split_at (text : string) (pos : nat) (ms : list rmatch) : list string :=
  match ms with
  | [] => [drop_bytes pos text]
  | m :: ms' =>
      take_bytes (m_start m - pos) (drop_bytes pos text)
      :: split_at text (m_end m) ms'
  end.

Definition resplit (pattern : string) (text : string) : list string :=
  split_at text 0 (finditer pattern false text).
End Re.

End Py.

(** ** A reference interpreter for texts in the Hawaiian alphabet

    An instance of the interface on which the metrics can be run: letter
    case is that of the ASCII letters and of the vowels with kahakō, and the
    expression engine handles the patterns without metacharacters, which it
    finds as substrings. It agrees with the interpreter on such texts and
    patterns. *)

Module PyRef.
Import Py.
Local Open Scope nat_scope.

Definition lower_byte (c : ascii) : ascii :=
  if byte_in 65 90 c then ascii_of_nat (nat_of_ascii c + 32) else c.

Fixpoint map_bytes (f : ascii → ascii) (s : string) : string :=
  match s with
  | EmptyString => EmptyString
  | String c s' => String (f c) (map_bytes f s')
  end.

Definition kahako : list (string * string) :=
  [("Ā", "ā"); ("Ē", "ē"); ("Ī", "ī"); ("Ō", "ō"); ("Ū", "ū")].

Definition lower (s : string) : string :=
  foldl (fun w ul => replace w ul.1 ul.2) (map_bytes lower_byte s) kahako.

Definition islower (s : string) : bool :=
  match s with
  | EmptyString => false
  | String c EmptyString => byte_in 97 122 c
  | _ => bool_decide (s ∈ kahako.*2)
  end.

Definition isalnum (s : string) : bool :=
  match s with
  | EmptyString => false
  | String c EmptyString => byte_in 97 122 c || byte_in 65 90 c || byte_in 48 57 c
  | _ => bool_decide (s ∈ kahako.*1 ++ kahako.*2)
  end.

(** The occurrences of [pattern] in [s], from byte offset [pos] on. *)
Fixpoint occurrences (skip pos : nat) (pattern s : string) : list rmatch :=
  match s with
  | EmptyString => []
  | String _ s' =>
      match skip with
      | S k => occurrences k (S pos) pattern s'
      | O =>
          if String.prefix pattern s
          then mk_rmatch pos (pos + String.length pattern) []
               :: occurrences (String.length pattern - 1) (S pos) pattern s'
          else occurrences 0 (S pos) pattern s'
      end
  end.

Definition finditer (pattern : string) (ignorecase : bool) (text : string)
    : list rmatch :=
  match pattern with
  | EmptyString => []
  | _ =>
      if ignorecase then occurrences 0 0 (lower pattern) (lower text)
      else occurrences 0 0 pattern text
  end.

Definition lib : Lib :=
  {| Py.lower := lower; Py.islower := islower; Py.isalnum := isalnum;
     Py.finditer := finditer |}.
End PyRef.

(** ** metrics/base.py: what every metric returns, and the interface *)

Record result : Type := mk_result {
  r_name : string;
  r_version : string;
  r_score : Q;
  r_details : json
}.

(** A metric object: its [name], its [version] and its [score(text, src)],
    which may raise. *)
Record metric : Type := mk_metric {
  m_name : string;
  m_version : string;
  m_score : string → option string → outcome result
}.

(** [str(e)] *)
Definition exn_str (e : exn) : string :=
  match e with
  | ValueError msg => msg
  | KeyError key => "'" ++ key ++ "'"
  | IndexError => "list index out of range"
  | ZeroDivisionError => "division by zero"
  | FileNotFoundError path => "No such file or directory: '" ++ path ++ "'"
  | TypeError what => what
  end.

(** ** utils/scoring.py *)

Module Scoring.

(** One turn of the loop of [aggregate_scores]: [acc] is
    [(total, total_weight)]. *)
Definition accumulate (weights : gmap string Q) (acc : Q * Q) (score_dict : result)
    : Q * Q :=
  match weights !! r_name score_dict with
  | Some weight =>
      (Float64.add acc.1 (Float64.mul weight (r_score score_dict)),
       Float64.add acc.2 weight)
  | None => acc
  end.

Definition aggregate_scores (component_scores : list result)
    (weights : gmap string Q) : Q :=
  let acc := foldl (accumulate weights) (0, 0) component_scores in
  if Qlt_le_dec 0 acc.2 then Float64.div acc.1 acc.2 else 0.

End Scoring.

(** ** gym/run.py and server/api.py: scoring and ranking the candidates *)

Module Pipeline.
Import Bandit.

(** [score_text(text, metrics, weights, src)] *)
Definition score_one (text : string) (src : option string) (m : metric) : result :=
  match m_score m text src with
  | Ok score_result => score_result
  | Raise e =>
      mk_result (m_name m) (m_version m) 0 (JObj [("error", JStr (exn_str e))])
  end.

Definition score_text (text : string) (metrics : list metric)
    (weights : gmap string Q) (src : option string) : Q * list result :=
  let component_scores := score_one text src <$> metrics in
  (Scoring.aggregate_scores component_scores weights, component_scores).

(** [{ms["name"]: f(ms) for ms in component_scores}] *)
Definition by_name {V} (f : result → V) (component_scores : list result)
    : gmap string V :=
  foldl (fun d ms => <[r_name ms := f ms]> d) ∅ component_scores.

(** An entry of [scored_candidates]; the API's entries have no [details]
    and call the text [tgt]. *)
Record scored_candidate : Type := mk_scored {
  sc_id : string;
  sc_text : string;
  sc_R : Q;
  sc_breakdown : gmap string Q;
  sc_details : option (gmap string json)
}.

Definition scored (with_details : bool) (metrics : list metric)
    (weights : gmap string Q) (src : string) (j : nat) (candidate_text : string)
    : scored_candidate :=
  let '(total_score, component_scores) :=
    score_text candidate_text metrics weights (Some src) in
  {| sc_id := "c" ++ pretty j;
     sc_text := candidate_text;
     sc_R := total_score;
     sc_breakdown := by_name r_score component_scores;
     sc_details :=
       if with_details then Some (by_name r_details component_scores)
       else None |}.

(** The loop over [enumerate(candidates)]. *)
Definition score_candidates (with_details : bool) (metrics : list metric)
    (weights : gmap string Q) (src : string) (candidates : list string)
    : list scored_candidate :=
  imap (scored with_details metrics weights src) candidates.

(** [scored_candidates.sort(key=lambda x: x["R"], reverse=True)] and
    [best = scored_candidates[0]]. *)
Definition rank (scored_candidates : list scored_candidate)
    : outcome (scored_candidate * list scored_candidate) :=
  match sort_desc sc_R scored_candidates with
  | [] => Raise IndexError
  | best :: rest => Ok (best, best :: rest)
  end.

(** *** gym/run.py, the body of the loop over the examples *)

Record gym_result : Type := mk_gym_result {
  g_example_id : string;
  g_src : string;
  g_ref : option string;
  g_best : scored_candidate;
  g_candidates : list scored_candidate;
  g_prompt : string;
  g_weights : gmap string Q
}.

Section Gym.
(** [generator.generate(src, k=..., prompt=..., temperature=...)] *)
Variable generate : string → Z → string → Q → list string.
Variables (metrics : list metric) (weights : gmap string Q).
Variables (k : Z) (temperature : Q).

(** [u] and [i] are the draws of the random generator in [bandit.pick]. *)
Definition process_example (u : Q) (i : nat) (example_id src : string)
    (ref : option string) : M gym_result :=
  prompt ← pick u i;
  let candidates := generate src k prompt temperature in
  let scored_candidates := score_candidates true metrics weights src candidates in
  ranked ← lift (rank scored_candidates);
  update prompt (sc_R ranked.1);;
  ret {| g_example_id := example_id;
         g_src := src;
         g_ref := ref;
         g_best := ranked.1;
         g_candidates := ranked.2;
         g_prompt := prompt;
         g_weights := weights |}.
End Gym.

(** *** server/api.py, the body of the loop over the segments *)

Record translation_result : Type := mk_translation_result {
  t_id : string;
  t_best : string;
  t_candidates : list scored_candidate;
  t_prompt : string;
  t_weights : gmap string Q;
  t_process_log : option json
}.

Section Translate.
(** The generator chosen for the request: [generate(src, k=k)] of the
    showcase generator and its [get_process_log], [generate] and
    [translate] of the others. *)
Variable showcase_generate : string → Z → list string.
Variable get_process_log : string → json.
Variable generate : string → Z → string → Q → list string.
Variable translate : string → string → string.
Variables (metrics : list metric) (weights : gmap string Q).
Variables (k_samples : Z) (temperature : Q) (prompt_template : string).

Definition translate_segment (mode : string) (u : Q) (i : nat)
    (segment_id segment_src : string) : M translation_result :=
  gen ← (if String.eqb mode "showcase"
         then ret (Some (get_process_log segment_src),
                   "Showcase mode - curated demonstration",
                   showcase_generate segment_src k_samples)
         else if String.eqb mode "rlvr"
         then prompt ← pick u i;
              ret (None, prompt,
                   generate segment_src k_samples prompt temperature)
         else ret (None, prompt_template,
                   [translate segment_src prompt_template]));
  let '(process_log, prompt, candidates) := gen in
  let scored_candidates :=
    score_candidates false metrics weights segment_src candidates in
  ranked ← lift (rank scored_candidates);
  (if negb (String.eqb mode "showcase")
   then update prompt (sc_R ranked.1)
   else ret tt);;
  ret {| t_id := segment_id;
         t_best := sc_text ranked.1;
         t_candidates := ranked.2;
         t_prompt := prompt;
         t_weights := weights;
         t_process_log := process_log |}.
End Translate.

(** *** server/api.py, [GET /stats/{lang_code}] *)

Inductive response (A : Type) : Type :=
| Response (body : A)
| HTTPException (status_code : Z) (detail : string)
| Unhandled (e : exn).
Arguments Response {A} body.
Arguments HTTPException {A} status_code detail.
Arguments Unhandled {A} e.

(** [BANDITS] is the module's dictionary of bandits by language code. *)
Definition get_language_stats (BANDITS : gmap string bandit) (lang_code : string)
    : response stats :=
  match BANDITS !! lang_code with
  | None =>
      HTTPException 404 ("Language " ++ lang_code ++ " not initialized")
  | Some bandit =>
      match get_stats bandit with
      | Ok st => Response st
      | Raise e => Unhandled e
      end
  end.

End Pipeline.

(** ** metrics/diacritics.py *)

Module Diacritics.
Section WithLib.
Context `{Py.Lib}.

(** The metric object: [required_forms] in the order in which the set is
    iterated. *)
Record t : Type := mk { required_forms : list string }.

Definition name : string := "diacritics".
Definition version : string := "1.0".

Definition _normalize_word (word : string) : string :=
  Py.strip (Py.remove_bytes Py.punctuation word).

Definition replacements : list (string * string) :=
  [("ā", "a"); ("ē", "e"); ("ī", "i"); ("ō", "o"); ("ū", "u");
   ("Ā", "A"); ("Ē", "E"); ("Ī", "I"); ("Ō", "O"); ("Ū", "U")].

Definition _strip_diacritics (word : string) : string :=
  let word := Py.replace (Py.replace word "ʻ" EmptyString) "ʻ" EmptyString in
  foldl (fun w mp => Py.replace w mp.1 mp.2) word replacements.

(** An entry of [words_to_check]. *)
Record entry : Type := mk_entry {
  e_word : string;
  e_normalized : string;
  e_required : string;
  e_correct : bool
}.

(** The inner loop: the first required form with the word's base form. *)
Definition first_required (self : t) (base_form : string) : option string :=
  List.find (fun required => String.eqb base_form (_strip_diacritics required))
    (required_forms self).

(** One turn of the loop over the words; the state is
    [(words_to_check, correct_count)]. *)
Definition check_word (self : t) (acc : list entry * Z) (word : string)
    : list entry * Z :=
  let normalized := Py.lower (_normalize_word word) in
  let base_form := _strip_diacritics normalized in
  match first_required self base_form with
  | Some required =>
      let correct := String.eqb normalized required in
      (acc.1 ++ [mk_entry word normalized required correct],
       if correct then (acc.2 + 1)%Z else acc.2)
  | None => acc
  end.

Definition entry_json (w : entry) : json :=
  JObj [("word", JStr (e_word w));
        ("normalized", JStr (e_normalized w));
        ("required", JStr (e_required w));
        ("correct", JBool (e_correct w))].

Definition score (self : t) (text : string) (src : option string) : result :=
  let words := Py.split text in
  let '(words_to_check, correct_count) := foldl (check_word self) ([], 0%Z) words in
  let score :=
    match words_to_check with
    | [] => 1
    | _ => inject_Z correct_count / inject_Z (Z.of_nat (length words_to_check))
    end in
  {| r_name := name;
     r_version := version;
     r_score := score;
     r_details :=
       JObj [("checked", JInt (Z.of_nat (length words_to_check)));
             ("correct", JInt correct_count);
             ("words_checked", JArr ((fun w => JStr (e_word w)) <$> words_to_check));
             ("errors",
              JArr (entry_json <$> filter (fun w => e_correct w = false) words_to_check))] |}.

(** The metric as an object of the interface. *)
Definition as_metric (self : t) : metric :=
  mk_metric name version (fun text src => Ok (score self text src)).
End WithLib.
End Diacritics.

(** ** metrics/tam_particles.py *)

Module TAMParticles.
Section WithLib.
Context `{Py.Lib}.

(** The rule table read from the [tam_regex] resource:
    [{"neg": {"marker", "valid", "invalid"?}, "aff": {"valid"},
      "verb_pattern"?}]. *)
Record patterns : Type := mk_patterns {
  neg_marker : string;
  neg_valid : list string;
  neg_invalid : option (list string);
  aff_valid : list string;
  verb_pattern_entry : option string
}.

Definition name : string := "tam_particles".
Definition version : string := "1.0".

(** [self.patterns.get("verb_pattern", ...)] *)
Definition verb_pattern (self : patterns) : string :=
  default "[A-Za-zāēīōūĀĒĪŌŪ][a-zāēīōū]*" (verb_pattern_entry self).

(** The templates whose pattern, with [VERB] filled in, is found in the
    text. *)
Definition matching (self : patterns) (templates : list string) (text : string)
    : list string :=
  filter (fun pattern_template =>
            Py.search (Py.replace pattern_template "VERB" (verb_pattern self))
              true text = true)
    templates.

(** The dictionaries that the two checks return. *)
Inductive check : Type :=
| NoNegative
| Negative (valid_patterns invalid_patterns : list string)
| Affirmative (valid_patterns : list string).

Definition has_negative (c : check) : bool :=
  match c with Negative _ _ => true | _ => false end.

Definition valid (c : check) : bool :=
  match c with
  | Negative valid_patterns invalid_patterns =>
      (0 <? length valid_patterns)%nat && (length invalid_patterns =? 0)%nat
  | _ => true
  end.

Definition valid_patterns (c : check) : list string :=
  match c with
  | Negative v _ | Affirmative v => v
  | NoNegative => []
  end.

Definition invalid_patterns (c : check) : list string :=
  match c with Negative _ i => i | _ => [] end.

Definition check_json (c : check) : json :=
  match c with
  | NoNegative =>
      JObj [("has_negative", JBool false); ("valid", JBool true);
            ("details", JStr "No negative marker found")]
  | Negative v i =>
      JObj [("has_negative", JBool true);
            ("valid", JBool (valid c));
            ("valid_patterns", JArr (JStr <$> v));
            ("invalid_patterns", JArr (JStr <$> i));
            ("details",
             JStr ("Found " ++ pretty (length v) ++ " valid, "
                   ++ pretty (length i) ++ " invalid patterns"))]
  | Affirmative v =>
      JObj [("has_negative", JBool false); ("valid", JBool true);
            ("valid_patterns", JArr (JStr <$> v));
            ("details", JStr ("Found " ++ pretty (length v) ++ " TAM patterns"))]
  end.

Definition _check_negative_context (self : patterns) (text : string) : check :=
  if negb (Py.search (neg_marker self) true text) then NoNegative
  else Negative (matching self (neg_valid self) text)
                (matching self (default [] (neg_invalid self)) text).

Definition _check_affirmative_context (self : patterns) (text : string) : check :=
  Affirmative (matching self (aff_valid self) text).

Definition score (self : patterns) (text : string) (src : option string) : result :=
  let neg_check := _check_negative_context self text in
  let '(score, details) :=
    if has_negative neg_check then
      (if valid neg_check then 1
       else match invalid_patterns neg_check with
            | _ :: _ => 0
            | [] => 1 # 2
            end,
       neg_check)
    else
      let aff_check := _check_affirmative_context self text in
      (if valid aff_check then 1 else 7 # 10, aff_check) in
  {| r_name := name;
     r_version := version;
     r_score := score;
     r_details := check_json details |}.

Definition as_metric (self : patterns) : metric :=
  mk_metric name version (fun text src => Ok (score self text src)).
End WithLib.
End TAMParticles.

(** ** metrics/articles_ke_ka.py *)

Module ArticlesKeKa.
Section WithLib.
Context `{Py.Lib}.

Record t : Type := mk { ke_exceptions : gset string }.

Definition name : string := "articles_ke_ka".
Definition version : string := "1.0".

Definition _normalize_word (word : string) : string :=
  Py.strip (Py.remove_bytes Py.punctuation word).

Definition _should_use_ke (self : t) (word : string) : bool :=
  let normalized := Py.lower (_normalize_word word) in
  if bool_decide (normalized ∈ ke_exceptions self) then true
  else
    let first_letter := Py.first_char normalized in
    bool_decide (first_letter ∈ ["k"; "e"; "a"; "o"; "ʻ"]).

(** The loop [for i in range(len(words) - 1)], from index [i] on. *)
Fixpoint pairs_from (i : nat) (words : list string) : list (nat * string * string) :=
  match words with
  | word :: (next_word :: _) as rest =>
      (if bool_decide (Py.lower word ∈ ["ke"; "ka"])
       then [(i, word, next_word)] else [])
      ++ pairs_from (S i) rest
  | _ => []
  end.

Definition _find_article_pairs (words : list string) : list (nat * string * string) :=
  pairs_from 0 words.

Definition is_correct (self : t) (article next_word : string) : bool :=
  let should_be_ke := _should_use_ke self next_word in
  (should_be_ke && String.eqb (Py.lower article) "ke")
  || (negb should_be_ke && String.eqb (Py.lower article) "ka").

Definition pair_detail (self : t) (p : nat * string * string) : json :=
  let '(_, article, next_word) := p in
  JObj [("article", JStr article);
        ("word", JStr next_word);
        ("correct", JBool (is_correct self article next_word));
        ("should_be", JStr (if _should_use_ke self next_word then "ke" else "ka"));
        ("reason",
         JStr (if bool_decide (Py.lower next_word ∈ ke_exceptions self)
               then "exception" else "KEAO rule"))].

(** [correct_count] after the loop over the pairs. *)
Definition correct_count (self : t) (pairs : list (nat * string * string)) : Z :=
  foldl (fun n p => if is_correct self p.1.2 p.2 then (n + 1)%Z else n) 0%Z pairs.

Definition score (self : t) (text : string) (src : option string) : result :=
  let words := Py.split text in
  let pairs := _find_article_pairs words in
  match pairs with
  | [] =>
      {| r_name := name;
         r_version := version;
         r_score := 1;
         r_details :=
           JObj [("checked", JInt 0); ("correct", JInt 0); ("pairs", JArr [])] |}
  | _ =>
      {| r_name := name;
         r_version := version;
         r_score :=
           inject_Z (correct_count self pairs) / inject_Z (Z.of_nat (length pairs));
         r_details :=
           JObj [("checked", JInt (Z.of_nat (length pairs)));
                 ("correct", JInt (correct_count self pairs));
                 ("pairs", JArr (pair_detail self <$> pairs));
                 ("errors",
                  JArr (pair_detail self <$>
                        filter (fun p => is_correct self p.1.2 p.2 = false) pairs))] |}
  end.

Definition as_metric (self : t) : metric :=
  mk_metric name version (fun text src => Ok (score self text src)).
End WithLib.
End ArticlesKeKa.

(** ** metrics/english_articles.py *)

Module ArticlesAAn.
Section WithLib.
Context `{Py.Lib}.

Record t : Type := mk {
  exceptions_use_a : gset string;
  exceptions_use_an : gset string
}.

Definition name : string := "articles_a_an".
Definition version : string := "1.0".

Definition vowel_sounds : list string :=
  ["a"; "e"; "i"; "o"; "u"; "A"; "E"; "I"; "O"; "U"].
Definition silent_h_patterns : string := "^(hour|honest|honor|honour|heir)".
Definition u_consonant_patterns : string := "^(uni|use|usu|uti|ufo)".

Definition _should_use_an (self : t) (word : string) : bool :=
  match word with
  | EmptyString => false
  | _ =>
      let word_lower := Py.lower word in
      if bool_decide (word_lower ∈ exceptions_use_an self) then true
      else if bool_decide (word_lower ∈ exceptions_use_a self) then false
      else if Py.rematch silent_h_patterns true word then true
      else if String.eqb (Py.lower (Py.first_char word)) "u"
              && Py.rematch u_consonant_patterns true word then false
      else bool_decide (Py.first_char word ∈ vowel_sounds)
  end.

(** One turn of the loop over the matches; the state is
    [(checks, errors)]. *)
Definition check_match (self : t) (text : string) (acc : list json * list json)
    (m : Py.rmatch) : list json * list json :=
  let article := Py.lower (default EmptyString (Py.m_groups m !! 0%nat)) in
  let following_word := default EmptyString (Py.m_groups m !! 1%nat) in
  let position := JInt (Py.char_index text (Py.m_start m)) in
  let checks :=
    acc.1 ++ [JObj [("article", JStr article); ("word", JStr following_word);
                    ("position", position)]] in
  let should_be_an := _should_use_an self following_word in
  if String.eqb article "a" && should_be_an then
    (checks,
     acc.2 ++ [JObj [("found", JStr ("a " ++ following_word));
                     ("should_be", JStr ("an " ++ following_word));
                     ("position", position);
                     ("type", JStr "a_should_be_an")]])
  else if String.eqb article "an" && negb should_be_an then
    (checks,
     acc.2 ++ [JObj [("found", JStr ("an " ++ following_word));
                     ("should_be", JStr ("a " ++ following_word));
                     ("position", position);
                     ("type", JStr "an_should_be_a")]])
  else (checks, acc.2).

Definition score (self : t) (text : string) (src : option string) : result :=
  let matches := Py.finditer "\b(a|an)\s+(\w+)" true text in
  let '(checks, errors) := foldl (check_match self text) ([], []) matches in
  let score :=
    1 - inject_Z (Z.of_nat (length errors))
        / inject_Z (Z.max (Z.of_nat (length checks)) 1) in
  {| r_name := name;
     r_version := version;
     r_score := fmax 0 score;
     r_details :=
       JObj [("checked", JInt (Z.of_nat (length checks)));
             ("errors", JInt (Z.of_nat (length errors)));
             ("error_list", JArr errors)] |}.

Definition as_metric (self : t) : metric :=
  mk_metric name version (fun text src => Ok (score self text src)).
End WithLib.
End ArticlesAAn.

(** ** metrics/english_subject_verb.py *)

Module SubjectVerbAgreement.
Section WithLib.
Context `{Py.Lib}.

Definition name : string := "subject_verb_agreement".
Definition version : string := "1.0".

Definition singular_subjects : list string :=
  ["he"; "she"; "it"; "this"; "that"; "everyone"; "everybody";
   "someone"; "somebody"; "anyone"; "anybody"; "no one"; "nobody";
   "each"; "either"; "neither"; "one"; "every"; "a"; "an"].
Definition plural_subjects : list string :=
  ["they"; "we"; "these"; "those"; "many"; "few"; "several";
   "both"; "all"; "some"; "most"].

Definition be_singular : list string := ["is"; "was"].
Definition be_plural : list string := ["are"; "were"].
Definition be_first_person : list string := ["am"].
Definition have_singular : list string := ["has"].
Definition have_plural : list string := ["have"].
Definition do_singular : list string := ["does"].
Definition do_plural : list string := ["do"].

Inductive subject_type : Type :=
| first_person_singular
| second_person
| singular
| plural.

Definition _identify_subject_type (subject : string) : subject_type :=
  let subject_lower := Py.strip (Py.lower subject) in
  if String.eqb subject_lower "i" then first_person_singular
  else if String.eqb subject_lower "you" then second_person
  else if bool_decide (subject_lower ∈ singular_subjects) then singular
  else if bool_decide (subject_lower ∈ plural_subjects) then plural
  else if Py.endswith subject_lower "s" && negb (Py.endswith subject_lower "ss")
  then plural
  else if Py.contains subject_lower " and " then plural
  else singular.

Definition _add_s_to_verb (verb : string) : string :=
  if Py.endswith verb "y" && (1 <? Py.len verb)%nat
     && negb (Py.contains "aeiou" (Py.last_char (Py.drop_last_char verb)))
  then (Py.drop_last_char verb ++ "ies")%string
  else if existsb (Py.endswith verb) ["s"; "x"; "z"; "ch"; "sh"]
  then (verb ++ "es")%string
  else (verb ++ "s")%string.

(** An error dictionary, as the list of its items. *)
Definition error (kind subject verb suggestion : string)
    : option (list (string * json)) :=
  Some [("error", JStr kind); ("subject", JStr subject);
        ("verb", JStr verb); ("suggestion", JStr suggestion)].

Definition third_person (subject : string) : bool :=
  bool_decide (Py.lower subject ∈ ["he"; "she"; "it"]).

Definition modal_or_s_form : list string :=
  ["was"; "is"; "has"; "does"; "can"; "will"; "would"; "could"; "should";
   "may"; "might"].

Definition _check_verb_agreement (subject verb : string)
    : option (list (string * json)) :=
  let st := _identify_subject_type subject in
  let verb_lower := Py.lower verb in
  let is_type (x : subject_type) : bool :=
    match st, x with
    | first_person_singular, first_person_singular
    | second_person, second_person
    | singular, singular
    | plural, plural => true
    | _, _ => false
    end in
  if bool_decide (verb_lower ∈ be_singular ++ be_plural ++ be_first_person) then
    if is_type singular && bool_decide (verb_lower ∈ be_plural) then
      error "singular_subject_plural_verb" subject verb
        (if String.eqb verb_lower "are" then "is" else "was")
    else if is_type plural && bool_decide (verb_lower ∈ be_singular) then
      error "plural_subject_singular_verb" subject verb
        (if String.eqb verb_lower "is" then "are" else "were")
    else if is_type first_person_singular
            && negb (bool_decide (verb_lower ∈ ["am"; "was"])) then
      error "first_person_wrong_verb" subject verb
        (if bool_decide (verb_lower ∈ ["is"; "are"]) then "am" else "was")
    else None
  else if bool_decide (verb_lower ∈ have_singular ++ have_plural) then
    if (is_type singular || is_type first_person_singular)
       && String.eqb verb_lower "have" then
      if third_person subject
      then error "third_person_singular_have" subject verb "has"
      else None
    else if is_type plural && String.eqb verb_lower "has" then
      error "plural_subject_has" subject verb "have"
    else None
  else if bool_decide (verb_lower ∈ do_singular ++ do_plural) then
    if is_type plural && String.eqb verb_lower "does" then
      error "plural_subject_does" subject verb "do"
    else if is_type singular && third_person subject
            && String.eqb verb_lower "do" then
      error "third_person_singular_do" subject verb "does"
    else None
  else if is_type plural && Py.endswith verb_lower "s"
          && negb (Py.endswith verb_lower "ss") then
    error "plural_subject_s_verb" subject verb
      (if Py.endswith verb "s" then Py.drop_last_char verb else verb)
  else if is_type singular && third_person subject then
    if negb (Py.endswith verb_lower "s")
       && negb (bool_decide (verb_lower ∈ modal_or_s_form)) then
      error "third_person_singular_missing_s" subject verb (_add_s_to_verb verb)
    else None
  else None.

Definition patterns : list string :=
  ["\b(I|you|he|she|it|we|they)\s+(\w+)";
   "\b(a|an|the)\s+(\w+)\s+(\w+)";
   "\b(this|that|these|those|every|each)\s+(\w+)\s+(\w+)";
   "^(\w+)\s+(\w+)"].

Definition not_a_verb : list string :=
  ["the"; "a"; "an"; "and"; "or"; "but"; "with"; "to"; "for"; "in"; "on"; "at"].

(** The subject and the verb that a match gives, when it has two or
    three groups. *)
Definition subject_verb (m : Py.rmatch) : option (string * string) :=
  match Py.m_groups m with
  | [subject; verb] => Some (subject, verb)
  | [g0; g1; g2] => Some ((g0 ++ " " ++ g1)%string, g2)
  | _ => None
  end.

(** The loop over the matches of one pattern: the first match that gives
    a verb is checked, and the loop is left. *)
Fixpoint first_check (ms : list Py.rmatch) : option (string * string) :=
  match ms with
  | [] => None
  | m :: ms' =>
      match subject_verb m with
      | Some (subject, verb) =>
          if bool_decide (Py.lower verb ∈ not_a_verb) then first_check ms'
          else Some (subject, verb)
      | None => first_check ms'
      end
  end.

Definition abbreviate (sent : string) : string :=
  if (50 <? Py.len sent)%nat then (Py.take_chars 50 sent ++ "...")%string else sent.

(** One pattern on one sentence; the state is [(checks, errors)]. *)
Definition check_pattern (sent : string) (acc : list json * list json)
    (pattern : string) : list json * list json :=
  match first_check (Py.finditer pattern true sent) with
  | None => acc
  | Some (subject, verb) =>
      let checks :=
        acc.1 ++ [JObj [("subject", JStr subject); ("verb", JStr verb);
                        ("sentence", JStr (abbreviate sent))]] in
      match _check_verb_agreement subject verb with
      | Some error =>
          (checks, acc.2 ++ [JObj (error ++ [("sentence", JStr (abbreviate sent))])])
      | None => (checks, acc.2)
      end
  end.

Definition check_sentence (acc : list json * list json) (sent : string)
    : list json * list json :=
  let sent := Py.strip sent in
  match sent with
  | EmptyString => acc
  | _ => foldl (check_pattern sent) acc patterns
  end.

Definition score (text : string) (src : option string) : result :=
  let sentences := Py.resplit "[.!?]+" (Py.strip text) in
  let '(checks, errors) := foldl check_sentence ([], []) sentences in
  let score :=
    1 - inject_Z (Z.of_nat (length errors))
        / inject_Z (Z.max (Z.of_nat (length checks)) 1) in
  {| r_name := name;
     r_version := version;
     r_score := fmax 0 score;
     r_details :=
       JObj [("checks_performed", JInt (Z.of_nat (length checks)));
             ("errors_found", JInt (Z.of_nat (length errors)));
             ("errors", JArr (take 5 errors))] |}.

Definition as_metric : metric :=
  mk_metric name version (fun text src => Ok (score text src)).
End WithLib.
End SubjectVerbAgreement.

(** ** metrics/english_spelling.py *)

Module SpellingChecker.
Section WithLib.
Context `{Py.Lib}.

(** The resource: [common_errors] in the order of the file, and
    [homophones], which the metric loads and does not read. *)
Record t : Type := mk {
  common_errors : list (string * string);
  homophones : json
}.

Definition name : string := "spelling".
Definition version : string := "1.0".

Definition double_letter_errors : list (string * string) :=
  [("untill", "until"); ("allways", "always"); ("wellcome", "welcome");
   ("tommorrow", "tomorrow"); ("dissappoint", "disappoint");
   ("occassion", "occasion")].

(** A dict built by assigning the items in order. *)
Definition dict_of (acc : gmap string string) (items : list (string * string))
    : gmap string string :=
  foldl (fun d kv => <[kv.1 := kv.2]> d) acc items.

Definition error_to_correct (self : t) : gmap string string :=
  dict_of (dict_of ∅ (prod_map Py.lower id <$> common_errors self))
    double_letter_errors.

Definition contractions : gmap string string :=
  dict_of ∅
    [("dont", "don't"); ("doesnt", "doesn't"); ("didnt", "didn't");
     ("wont", "won't"); ("cant", "can't"); ("couldnt", "couldn't");
     ("shouldnt", "shouldn't"); ("wouldnt", "wouldn't"); ("isnt", "isn't");
     ("arent", "aren't"); ("wasnt", "wasn't"); ("werent", "weren't");
     ("hasnt", "hasn't"); ("havent", "haven't"); ("hadnt", "hadn't")].

Definition edge_punctuation : list ascii := Py.punctuation ++ [Py.squote].

(** The error dictionary of a word, as the list of its items. *)
Definition _check_word_spelling (self : t) (word : string)
    : option (list (string * json)) :=
  let clean_word := Py.strip_bytes edge_punctuation word in
  let word_lower := Py.lower clean_word in
  match error_to_correct self !! word_lower with
  | Some correction =>
      Some [("misspelled", JStr clean_word); ("correction", JStr correction);
            ("type", JStr "common_misspelling")]
  | None =>
      match contractions !! word_lower with
      | Some correction =>
          Some [("misspelled", JStr clean_word); ("correction", JStr correction);
                ("type", JStr "missing_apostrophe")]
      | None => None
      end
  end.

Definition warning (found context suggestion : string) : json :=
  JObj [("found", JStr found); ("context", JStr context);
        ("suggestion", JStr suggestion); ("type", JStr "homophone_warning")].

Definition _check_homophones (text : string) : list json :=
  let text_lower := Py.lower text in
  (if Py.contains text_lower "their" || Py.contains text_lower "there"
      || Py.contains text_lower "they're" || Py.contains text_lower "theyre"
   then
     (if Py.search "\btheir\s+(is|are|was|were)\b" false text_lower
      then [warning "their" "before a verb" "they're (they are)"] else [])
     ++ (if Py.search "\bover\s+their\b" false text_lower
            && negb (Py.search "\bover\s+their\s+\w+s\b" false text_lower)
         then [warning "their" ("after " ++ Py.quoted "over") "there"] else [])
   else [])
  ++ (if Py.search "\byour\s+(going|coming|doing|making|taking)" false text_lower
      then [warning "your" "before verb+ing" "you're (you are)"] else [])
  ++ (if Py.search "\bits\s+(been|going|coming|getting|become)" false text_lower
      then [warning "its" "before auxiliary/verb" "it's (it is/has)"] else []).

(** One turn of the loop over the words; the state is
    [(words_checked, errors)]. *)
Definition check_word (self : t) (text : string) (acc : Z * list json)
    (word : string) : Z * list json :=
  let words_checked := (acc.1 + 1)%Z in
  match _check_word_spelling self word with
  | Some error =>
      (words_checked,
       acc.2 ++ [JObj (error ++ [("position", JInt (Py.find text word))])])
  | None => (words_checked, acc.2)
  end.

Definition score (self : t) (text : string) (src : option string) : result :=
  let words := Py.findall "\b\w+(?:\'t|\'s|\'re|\'ve|\'ll|\'d)?\b" text in
  let '(words_checked, errors) := foldl (check_word self text) (0%Z, []) words in
  let warnings := _check_homophones text in
  let score :=
    1 - inject_Z (Z.of_nat (length errors)) / inject_Z (Z.max words_checked 1) in
  {| r_name := name;
     r_version := version;
     r_score := fmax 0 score;
     r_details :=
       JObj [("words_checked", JInt words_checked);
             ("errors_found", JInt (Z.of_nat (length errors)));
             ("errors", JArr (take 10 errors));
             ("warnings", JArr (take 5 warnings))] |}.

Definition as_metric (self : t) : metric :=
  mk_metric name version (fun text src => Ok (score self text src)).
End WithLib.
End SpellingChecker.

(** ** metrics/english_punctuation.py *)

Module PunctuationChecker.
Section WithLib.
Context `{Py.Lib}.

Definition name : string := "punctuation".
Definition version : string := "1.0".

Definition sentence_endings : list string := ["."; "!"; "?"].

Definition common_abbreviations : list string :=
  ["mr"; "mrs"; "ms"; "dr"; "prof"; "sr"; "jr";
   "vs"; "etc"; "inc"; "ltd"; "corp";
   "jan"; "feb"; "mar"; "apr"; "jun"; "jul"; "aug"; "sep"; "sept"; "oct";
   "nov"; "dec";
   "mon"; "tue"; "wed"; "thu"; "fri"; "sat"; "sun";
   "st"; "nd"; "rd"; "th"].

Definition quote_then_period : string := String Py.dquote ".".
Definition apostrophe_then_period : string := String Py.squote ".".

Definition _check_sentence_punctuation (text : string) : list json :=
  let text_stripped := Py.strip text in
  (match text_stripped with
   | EmptyString => []
   | _ =>
       if bool_decide (Py.last_char text_stripped ∈ sentence_endings) then []
       else [JObj [("type", JStr "missing_end_punctuation");
                   ("position", JInt (Z.of_nat (Py.len text_stripped)));
                   ("suggestion",
                    JStr "Add period, question mark, or exclamation point")]]
   end)
  ++ (if Py.endswith text_stripped quote_then_period
         || Py.endswith text_stripped apostrophe_then_period
      then [JObj [("type", JStr "incorrect_quote_punctuation");
                  ("position", JInt (Z.of_nat (Py.len text_stripped) - 2));
                  ("found",
                   JStr (Py.drop_bytes (String.length text_stripped - 2)
                           text_stripped));
                  ("suggestion",
                   JStr ("Move period inside quotes: ." ++ String Py.dquote EmptyString)%string)]]
      else [])
  ++ flat_map
       (fun m =>
          let punct := Py.group0 text m in
          if bool_decide (punct ∈ ["?!"; "!?"; "..."]) then []
          else [JObj [("type", JStr "multiple_punctuation");
                      ("found", JStr punct);
                      ("position", JInt (Py.char_index text (Py.m_start m)));
                      ("suggestion", JStr (Py.first_char punct))]])
       (Py.finditer "[.!?]{2,}" false text).

(** The loop over [enumerate(sentences)]: [prev] is [sentences[i-1]],
    absent for the first sentence. *)
Fixpoint sentence_capitals (prev : option string) (position : Z)
    (sentences : list string) : list json :=
  match sentences with
  | [] => []
  | sent :: rest =>
      let sent_stripped := Py.strip sent in
      (match prev, sent_stripped with
       | Some prev_sent, String _ _ =>
           let prev_sent := Py.strip prev_sent in
           let last_word :=
             match prev_sent with
             | EmptyString => EmptyString
             | _ =>
                 Py.lower (Py.rstrip_bytes ["."%char]
                             (List.last (Py.split prev_sent) EmptyString))
             end in
           if negb (bool_decide (last_word ∈ common_abbreviations))
              && Py.islower (Py.first_char sent_stripped)
           then [JObj [("type", JStr "missing_capital_after_period");
                       ("position", JInt position);
                       ("sentence",
                        JStr (if (30 <? Py.len sent_stripped)%nat
                              then (Py.take_chars 30 sent_stripped ++ "...")%string
                              else sent_stripped));
                       ("suggestion", JStr "Capitalize first letter of sentence")]]
           else []
       | _, _ => []
       end)
      ++ sentence_capitals (Some sent) (position + Z.of_nat (Py.len sent) + 1)%Z rest
  end.

Definition _check_capitalization (text : string) : list json :=
  let text_stripped := Py.strip text in
  (match text_stripped with
   | EmptyString => []
   | _ =>
       if Py.islower (Py.first_char text_stripped)
       then [JObj [("type", JStr "missing_capital_start");
                   ("position", JInt 0);
                   ("suggestion", JStr "Capitalize first letter")]]
       else []
   end)
  ++ sentence_capitals None 0%Z (Py.resplit "(?<=[.!?])\s+" text)
  ++ flat_map
       (fun m =>
          let word := Py.group0 text m in
          if negb (existsb (Py.startswith word) ["i"; "e"])
             || (Py.len word <? 4)%nat
          then [JObj [("type", JStr "unexpected_capital");
                      ("word", JStr word);
                      ("position", JInt (Py.char_index text (Py.m_start m)));
                      ("suggestion", JStr (Py.lower word))]]
          else [])
       (Py.finditer "\b\w*[a-z][A-Z]\w*\b" false text).

Definition _check_comma_usage (text : string) : list json :=
  flat_map
    (fun m =>
       let next_char := Py.first_char (Py.drop_bytes (Py.m_end m) text) in
       if match next_char with
          | EmptyString => false
          | _ => Py.isalnum next_char
          end
       then
         let start := Z.to_nat (Py.char_index text (Py.m_start m)) in
         let stop := Z.to_nat (Py.char_index text (Py.m_end m)) in
         [JObj [("type", JStr "missing_space_after_comma");
                ("position", JInt (Z.of_nat start));
                ("context", JStr (Py.slice text (start - 10) (stop + 10)))]]
       else [])
    (Py.finditer ",(?! |\n|$)" false text)
  ++ ((fun m =>
         JObj [("type", JStr "space_before_comma");
               ("position", JInt (Py.char_index text (Py.m_start m)));
               ("suggestion", JStr "Remove space before comma")])
      <$> Py.finditer " ," false text)
  ++ ((fun m =>
         JObj [("type", JStr "double_comma");
               ("position", JInt (Py.char_index text (Py.m_start m)));
               ("found", JStr (Py.group0 text m));
               ("suggestion", JStr ",")])
      <$> Py.finditer ",,+" false text).

Definition score (text : string) (src : option string) : result :=
  let sentence_errors := _check_sentence_punctuation text in
  let capital_errors := _check_capitalization text in
  let comma_errors := _check_comma_usage text in
  let all_errors := sentence_errors ++ capital_errors ++ comma_errors in
  let sentences := Z.of_nat (length (Py.resplit "[.!?]+" (Py.strip text))) in
  let commas := Z.of_nat (Py.count_byte ","%char text) in
  let total_checks := (sentences * 2 + commas + 1)%Z in
  let score :=
    1 - inject_Z (Z.of_nat (length all_errors)) / inject_Z (Z.max total_checks 1) in
  {| r_name := name;
     r_version := version;
     r_score := fmax 0 score;
     r_details :=
       JObj [("total_errors", JInt (Z.of_nat (length all_errors)));
             ("sentence_errors", JInt (Z.of_nat (length sentence_errors)));
             ("capitalization_errors", JInt (Z.of_nat (length capital_errors)));
             ("comma_errors", JInt (Z.of_nat (length comma_errors)));
             ("errors", JArr (take 10 all_errors))] |}.

Definition as_metric : metric :=
  mk_metric name version (fun text src => Ok (score text src)).
End WithLib.
End PunctuationChecker.

(** ** Vocabulary of the statements *)

(** *** Runs of a bandit

    A bandit is used through [pick] and [update]; a run is a sequence of such
    calls, each on the state that the one before left, whether it returned or
    raised. *)

Module Run.
Import Bandit.

Inductive call : Type :=
| Pick (u : Q) (i : nat)
| Update (prompt : string) (reward : Q).

Definition step (self : bandit) (c : call) : bandit :=
  match c with
  | Pick u i => (pick u i self).1
  | Update prompt reward => (update prompt reward self).1
  end.

Definition run (self : bandit) (cs : list call) : bandit := foldl step self cs.

(** The rewards given to prompt [p] by the updates of a run, in order. *)
Fixpoint rewards_of (p : string) (cs : list call) : list Q :=
  match cs with
  | [] => []
  | Update q r :: cs' =>
      if bool_decide (q = p) then r :: rewards_of p cs' else rewards_of p cs'
  | Pick _ _ :: cs' => rewards_of p cs'
  end.

Definition sum (rs : list Q) : Q := foldr Qplus 0 rs.

(** The arithmetic mean of a non-empty list. *)
Definition mean (rs : list Q) : Q := sum rs / inject_Z (Z.of_nat (length rs)).

(** The value that [update] assigns at the count [n]:
    [old_value + (reward - old_value) / n]. *)
Definition next_value (old_value reward : Q) (n : Z) : Q :=
  Float64.add old_value
    (Float64.div (Float64.sub reward old_value) (Float64.of_int n)).

(** The state of prompt [p] after its rewards [rs]: as many updates counted
    as rewards, and a value. *)
Definition counted (p : string) (ps : list string) (rs : list Q) (b : bandit) : Prop :=
  prompts b = ps
  ∧ counts b !! p = Some (Z.of_nat (length rs))
  ∧ is_Some (values b !! p).

(** The value of prompt [p] after its rewards [rs], all between 0 and 1:
    a value between 0 and 1, a binary64 value once a reward has been given,
    whose product with the number [n] of rewards differs from their sum by
    at most [(n^2 + 3 n) * 2^(-54)]. *)
Definition tracks (p : string) (rs : list Q) (b : bandit) : Prop :=
  ∃ v, values b !! p = Some v
       ∧ 0 <= v <= 1
       ∧ (rs = [] ∨ Float64.round v == v)
       ∧ Qabs (inject_Z (Z.of_nat (length rs)) * v - sum rs)
         <= (inject_Z (Z.of_nat (length rs)) * inject_Z (Z.of_nat (length rs))
             + 3 * inject_Z (Z.of_nat (length rs))) * Float64.half_ulp.

(** Every prompt has its value and its count. *)
Definition keyed (b : bandit) : Prop :=
  ∀ p, p ∈ prompts b → is_Some (values b !! p) ∧ is_Some (counts b !! p).
End Run.

(** *** The weighted mean, in the words of the specification *)

Module WeightedMean.
(** The score records whose metric has a weight. *)
Definition present (weights : gmap string Q) (component_scores : list result)
    : list result :=
  filter (fun r => is_Some (weights !! r_name r)) component_scores.

Definition weight_of (weights : gmap string Q) (r : result) : Q :=
  default 0 (weights !! r_name r).

(** [Σ wᵢ·sᵢ] and [Σ wᵢ] over the records present. *)
Definition weighted_sum (weights : gmap string Q) (component_scores : list result) : Q :=
  foldr Qplus 0
    ((fun r => weight_of weights r * r_score r) <$> present weights component_scores).

Definition total_weight (weights : gmap string Q) (component_scores : list result) : Q :=
  foldr Qplus 0 (weight_of weights <$> present weights component_scores).

Definition weighted_mean (weights : gmap string Q) (component_scores : list result) : Q :=
  weighted_sum weights component_scores / total_weight weights component_scores.

(** The pairs of weight and score of the records present, in their
    order. *)
Definition terms (weights : gmap string Q) (component_scores : list result)
    : list (Q * Q) :=
  (fun r => (weight_of weights r, r_score r)) <$> present weights component_scores.

(** The sums [Σ wᵢ·sᵢ] and [Σ wᵢ] of a list of such pairs. *)
Definition products (l : list (Q * Q)) : Q :=
  foldr Qplus 0 ((fun ws => ws.1 * ws.2) <$> l).
Definition total (l : list (Q * Q)) : Q := foldr Qplus 0 (fst <$> l).

(** One turn of the loop of [aggregate_scores] on such a pair. *)
Definition add_term (acc : Q * Q) (ws : Q * Q) : Q * Q :=
  (Float64.add acc.1 (Float64.mul ws.1 ws.2), Float64.add acc.2 ws.1).
End WeightedMean.

(** *** Ranked lists *)

Module Ranked.
Section Ranked.
Context {A : Type} (key : A → Q).

(** No element is followed by one with a larger key. *)
Definition descending (l : list A) : Prop :=
  StronglySorted (fun a b => key b <= key a) l.

(** The elements with a given key, in their order. *)
Definition with_key (r : Q) (l : list A) : list A :=
  filter (fun a => Qeq_bool (key a) r = true) l.

(** [l'] orders [l] by key, larger first, and leaves elements with the
    same key in the order they have in [l]. *)
Definition stably_ranks (l l' : list A) : Prop :=
  l' ≡ₚ l ∧ descending l' ∧ ∀ r, with_key r l' = with_key r l.
End Ranked.
End Ranked.

(** *** The ke/ka rule, in the words of the specification *)

Module KeaoRule.
Section WithLib.
Context `{Py.Lib}.
Import ArticlesKeKa.

(** A word takes [ke] when it is in the exception list or its first
    letter is one of [first_letters]. *)
Definition takes_ke (first_letters : list string) (self : t) (next_word : string)
    : bool :=
  let normalized := Py.lower (_normalize_word next_word) in
  bool_decide (normalized ∈ ke_exceptions self)
  || bool_decide (Py.first_char normalized ∈ first_letters).

(** The article is the one the rule asks for. *)
Definition agrees (first_letters : list string) (self : t)
    (article next_word : string) : bool :=
  if takes_ke first_letters self next_word
  then String.eqb (Py.lower article) "ke"
  else String.eqb (Py.lower article) "ka".

(** The rule as the specification words it, and as the code has it. *)
Definition keao : list string := ["k"; "e"; "a"; "o"].
Definition keao_okina : list string := ["k"; "e"; "a"; "o"; "ʻ"].

(** Correct pairs divided by checked pairs, [1] when there is none. *)
Definition ratio (first_letters : list string) (self : t)
    (pairs : list (nat * string * string)) : Q :=
  match pairs with
  | [] => 1
  | _ =>
      inject_Z (Z.of_nat (length
        (filter (fun p => agrees first_letters self p.1.2 p.2 = true) pairs)))
      / inject_Z (Z.of_nat (length pairs))
  end.
End WithLib.
End KeaoRule.

(** *** The templates found in a text *)

Module TamRule.
Section WithLib.
Context `{Py.Lib}.
Import TAMParticles.

(** Some template of the list, with [VERB] filled in, is found in the
    text. *)
Definition found_in (self : patterns) (templates : list string) (text : string)
    : Prop :=
  ∃ t, t ∈ templates
       ∧ Py.search (Py.replace t "VERB" (verb_pattern self)) true text = true.
End WithLib.
End TamRule.

(** *** Scores *)

Definition unit_interval (x : Q) : Prop := 0 <= x <= 1.

(** *** A rule table for the negation examples *)

Module TamExample.
(** Modelled from the spec: the resource [lang/haw/regex_tam.json] is not
    among the sources. The table has the shape that section 4.B.2 gives;
    its negation marker is the word ʻAʻole and its one invalid combination
    is the one the specification names, the negation followed by the
    realized-past particle [ua]. The patterns are written without
    metacharacters. *)
Definition table : TAMParticles.patterns :=
  {| TAMParticles.neg_marker := "ʻAʻole";
     TAMParticles.neg_valid := ["ʻAʻole i"; "ʻAʻole e"];
     TAMParticles.neg_invalid := Some ["ʻAʻole ua"];
     TAMParticles.aff_valid := ["Ua"; "Ke"];
     TAMParticles.verb_pattern_entry := None |}.
End TamExample.


(** *** The inputs of the examples *)

Module Examples.
Import Bandit Run.

(** The run of the specification's bandit scenario, with a pick and an
    update of another prompt in between. *)
Definition scenario : list call :=
  [Update "A" 1; Pick (1 # 2) 0; Update "B" (1 # 3); Update "A" 0].

(** The bandits after start-up, here with one language. *)
Definition started : gmap string bandit :=
  <["haw" := init ["P"; "Q"; "R"] default_epsilon default_initial_value]> ∅.

(** The Hawaiian metrics on the reference interpreter, with the weights of
    the specification's aggregator scenario. *)
Definition no_exceptions : ArticlesKeKa.t := ArticlesKeKa.mk ∅.
Definition lexicon : Diacritics.t :=
  Diacritics.mk ["hōʻike"; "hawaiʻi"; "ʻaʻole"].

Definition metrics : list metric :=
  [@Diacritics.as_metric PyRef.lib lexicon;
   @TAMParticles.as_metric PyRef.lib TamExample.table;
   @ArticlesKeKa.as_metric PyRef.lib no_exceptions].

Definition weights : gmap string Q :=
  <["diacritics" := 4 # 10]>
    (<["tam_particles" := 4 # 10]> (<["articles_ke_ka" := 2 # 10]> ∅)).

(** The scores of the specification's aggregator scenario. *)
Definition scenario_scores : list result :=
  [mk_result "diacritics" "1.0" 1 JNull;
   mk_result "tam_particles" "1.0" (1 # 2) JNull;
   mk_result "articles_ke_ka" "1.0" 1 JNull].

(** A text with the two articles. *)
Definition articles_text : string := "Ua pau ke keiki i ka hale.".

(** Candidates of the mock generator for [It is not raining.] *)
Definition candidates : list string :=
  ["ʻAʻole ua."; "ʻAʻole e ua ana."; "Aole e ua ana."; "ʻAʻole i ua."].
End Examples.

(** *** More vocabulary for runs of a bandit *)

Module RunFacts.
Import Bandit Run.

(** The number of [pick] calls of a run, and of its updates of a prompt of
    the list [ps]. *)
Definition is_pick (c : call) : bool :=
  match c with Pick _ _ => true | Update _ _ => false end.

Definition is_update_of (ps : list string) (c : call) : bool :=
  match c with Update q _ => bool_decide (q ∈ ps) | Pick _ _ => false end.

Definition picks (cs : list call) : nat :=
  length (List.filter is_pick cs).

Definition known_updates (ps : list string) (cs : list call) : nat :=
  length (List.filter (is_update_of ps) cs).

(** Every reward of the run lies between [lo] and [hi]. *)
Definition rewards_within (lo hi : Q) (cs : list call) : Prop :=
  ∀ q r, Update q r ∈ cs → lo <= r <= hi.

(** Every value estimate lies between [lo] and [hi]. *)
Definition values_within (lo hi : Q) (b : bandit) : Prop :=
  ∀ p v, values b !! p = Some v → lo <= v <= hi.

(** No count is negative. *)
Definition counts_nonneg (b : bandit) : Prop :=
  ∀ p c, counts b !! p = Some c → (0 <= c)%Z.

(** Every prompt has its entries, and no count is negative. *)
Definition sound (b : bandit) : Prop := keyed b ∧ counts_nonneg b.

(** The history entry that [pick] writes. *)
Definition pick_entry (selection : Z) (p kind : string) (v : Q) : json :=
  JObj [("selection", JInt selection); ("prompt", JStr p);
        ("type", JStr kind); ("value", JFloat v)].

(** The history entry that [update] writes. *)
Definition update_entry (selection : Z) (p : string) (reward new_value : Q)
    (n : Z) : json :=
  JObj [("selection", JInt selection); ("prompt", JStr p);
        ("type", JStr "update"); ("reward", JFloat reward);
        ("new_value", JFloat new_value); ("count", JInt n)].

(** The fields of a row of [get_stats] are those of its prompt. *)
Definition row_of (b : bandit) (row : prompt_stat) : Prop :=
  ps_prompt row ∈ prompts b
  ∧ values b !! ps_prompt row = Some (ps_value row)
  ∧ counts b !! ps_prompt row = Some (ps_count row)
  ∧ ps_selection_rate row
    = inject_Z (ps_count row) / inject_Z (Z.max 1 (total_selections b)).

(** A state file written without the history: the first five fields of
    [state_document]. *)
Definition document_without_history (self : bandit) : json :=
  JObj [("prompts", JArr (JStr <$> prompts self));
        ("epsilon", JFloat (epsilon self));
        ("values", JObj (prod_map id JFloat <$> map_to_list (values self)));
        ("counts", JObj (prod_map id JInt <$> map_to_list (counts self)));
        ("total_selections", JInt (total_selections self))].
End RunFacts.

(** *** utils/scoring.py, the breakdown *)

Module Breakdown.

Record reward_breakdown : Type := mk_reward_breakdown {
  rb_total : Q;
  rb_components : list result;
  rb_weights : gmap string Q;
  rb_weighted_scores : gmap string Q
}.

(** One turn of the dict comprehension of [create_reward_breakdown]. *)
Definition weighted_entry (weights : gmap string Q) (d : gmap string Q)
    (score : result) : gmap string Q :=
  if bool_decide (is_Some (weights !! r_name score))
  then <[r_name score := r_score score * default 0 (weights !! r_name score)]> d
  else d.

Definition create_reward_breakdown (component_scores : list result)
    (weights : gmap string Q) (total_score : Q) : reward_breakdown :=
  {| rb_total := total_score;
     rb_components := component_scores;
     rb_weights := weights;
     rb_weighted_scores := foldl (weighted_entry weights) ∅ component_scores |}.
End Breakdown.

(** *** Vocabulary for the weights and the metrics *)

Module Weights.
(** No weight is negative. *)
Definition nonneg (weights : gmap string Q) : Prop :=
  ∀ n w, weights !! n = Some w → 0 <= w.

(** The scores of the records that have a weight lie between [lo] and
    [hi]. *)
Definition scores_within (lo hi : Q) (weights : gmap string Q)
    (component_scores : list result) : Prop :=
  ∀ r, r ∈ component_scores → is_Some (weights !! r_name r) →
       lo <= r_score r <= hi.

(** A metric whose scores, when it returns, are between 0 and 1. *)
Definition bounded (m : metric) : Prop :=
  ∀ text src res, m_score m text src = Ok res → unit_interval (r_score res).

(** The weights and the scores of the records that have a weight are zero
    or between [2^(-200)] and [2^200], so that no operation of the
    aggregator underflows. *)
Definition in_range (weights : gmap string Q) (component_scores : list result)
    : Prop :=
  ∀ r w, r ∈ component_scores → weights !! r_name r = Some w →
         Float64.in_range w ∧ Float64.in_range (r_score r).
End Weights.

(** *** gym/run.py and server/api.py: the prompts and the loops *)

Module Loops.
Import Bandit Pipeline.

(** The three variants of the base prompt that both programs give to the
    bandit. *)
Definition newline : string := String (ascii_of_nat 10) EmptyString.

Definition prompt_variants (base_prompt : string) : list string :=
  [base_prompt;
   (base_prompt ++ newline
    ++ "Be very careful with diacritics, TAM particles, and articles.")%string;
   (base_prompt ++ newline
    ++ "Strictly follow Hawaiian grammar rules, especially for negation.")%string].

(** A line of the dataset. *)
Record example : Type := mk_example {
  e_id : string;
  e_src : string;
  e_ref : option string
}.

(** A segment of a request. *)
Record segment : Type := mk_segment {
  s_id : string;
  s_src : string
}.

Section Gym.
Variable generate : string → Z → string → Q → list string.
Variables (metrics : list metric) (weights : gmap string Q).
Variables (k : Z) (temperature : Q).
(** The draws of the random generator, by the number of the example. *)
Variable draws : nat → Q * nat.

(** The loop over [enumerate(examples)], from example number [n] on, with
    the results so far. *)
Fixpoint process_examples (n : nat) (examples : list example)
    (results : list gym_result) : M (list gym_result) :=
  match examples with
  | [] => ret results
  | e :: examples' =>
      res ← process_example generate metrics weights k temperature
              (draws n).1 (draws n).2 (e_id e) (e_src e) (e_ref e);
      process_examples (S n) examples' (results ++ [res])
  end.

(** [sum(r["best"]["R"] for r in results) / len(results)] *)
Definition average_best (results : list gym_result) : outcome Q :=
  truediv (foldl Qplus 0 ((fun r => sc_R (g_best r)) <$> results))
    (Z.of_nat (length results)).
End Gym.

Section Translate.
Variable showcase_generate : string → Z → list string.
Variable get_process_log : string → json.
Variable generate : string → Z → string → Q → list string.
Variable translate : string → string → string.
Variables (metrics : list metric) (weights : gmap string Q).
Variables (k_samples : Z) (temperature : Q) (prompt_template : string).
Variable mode : string.
Variable draws : nat → Q * nat.

(** The candidates of a segment in the mode of the request; [prompt] is
    the prompt of the result, which in the mode [rlvr] is the one picked. *)
Definition segment_candidates (prompt segment_src : string) : list string :=
  if String.eqb mode "showcase" then showcase_generate segment_src k_samples
  else if String.eqb mode "rlvr"
  then generate segment_src k_samples prompt temperature
  else [translate segment_src prompt_template].

(** The loop over [request.segments]. *)
Fixpoint translate_segments (n : nat) (segments : list segment)
    (results : list translation_result) : M (list translation_result) :=
  match segments with
  | [] => ret results
  | s :: segments' =>
      res ← translate_segment showcase_generate get_process_log generate
              translate metrics weights k_samples temperature prompt_template
              mode (draws n).1 (draws n).2 (s_id s) (s_src s);
      translate_segments (S n) segments' (results ++ [res])
  end.
End Translate.
End Loops.

(** ** generator/mock.py and generator/base.py *)

Module MockGenerator.
Import Bandit.

(** [self.mock_translations] *)
Definition mock_translations : gmap string (list string) :=
  list_to_map
    [("We already finished the report.",
      ["Ua pau ka hōʻike."; "Ua pau ke hoike."; "Ua pau ka hoike.";
       "Ua pau ke hōʻike."]);
     ("Do not go there.",
      ["Mai hele ʻoe i laila."; "Mai hele oe i laila."; "ʻAʻole hele i laila.";
       "No hele i laila."]);
     ("It is not raining.",
      ["ʻAʻole e ua ana."; "ʻAʻole ua."; "Aole e ua ana."; "ʻAʻole i ua."]);
     ("The children are playing.",
      ["Ke pāʻani nei nā keiki."; "Ke paani nei na keiki.";
       "Ka pāʻani nei nā keiki."; "E pāʻani ana nā keiki."])].

(** [base.replace('ʻ', '').replace('ā', 'a').replace('ō', 'o')] *)
Definition variation (base : string) : string :=
  Py.replace (Py.replace (Py.replace base "ʻ" EmptyString) "ā" "a") "ō" "o".

(** The loop [while len(candidates) < k], run for at most [fuel] turns; [n]
    is the number of the next draw of [random.choice], and [choose] gives
    the draws. *)
Fixpoint extend (choose : nat → nat) (k : Z) (fuel n : nat)
    (candidates : list string) : outcome (list string) :=
  match fuel with
  | O => Ok candidates
  | S fuel' =>
      if (Z.of_nat (length candidates) <? k)%Z
      then
        match choice candidates (choose n) with
        | Ok base => extend choose k fuel' (S n) (candidates ++ [variation base])
        | Raise e => Raise e
        end
      else Ok candidates
  end.

(** [l[:k]] for an int [k]. *)
Definition slice_to (k : Z) (l : list string) : list string :=
  if (k <? 0)%Z then take (length l - Z.to_nat (- k)) l
  else take (Z.to_nat k) l.

Definition base_translations (src : string) : list string :=
  [("Hawaiian translation of: " ++ src)%string;
   ("Ke " ++ src ++ " nei.")%string;
   ("ʻO ka " ++ src ++ ".")%string;
   ("Ua " ++ src ++ ".")%string].

(** The body of the loop over [range(k)]. *)
Definition generic_candidate (src : string) (i : nat) : string :=
  if (i <? length (base_translations src))%nat
  then default EmptyString (base_translations src !! i)
  else ("Translation " ++ pretty (i + 1)%nat ++ ": " ++ src)%string.

(** [generate(src, k, prompt, temperature)]; the loop of the first branch
    ends within [k] turns, which is the fuel given. *)
Definition generate (choose : nat → nat) (src : string) (k : Z)
    (prompt : option string) (temperature : option Q) : outcome (list string) :=
  match mock_translations !! src with
  | Some fixtures =>
      match extend choose k (Z.to_nat k) 0 fixtures with
      | Ok candidates => Ok (slice_to k candidates)
      | Raise e => Raise e
      end
  | None => Ok (generic_candidate src <$> seq 0 (Z.to_nat k))
  end.

(** [translate(src, prompt)] of the base class. *)
Definition translate (choose : nat → nat) (src : string)
    (prompt : option string) : outcome string :=
  match generate choose src 1 prompt None with
  | Ok candidates =>
      Ok (match candidates with c :: _ => c | [] => EmptyString end)
  | Raise e => Raise e
  end.

(** Every candidate from the position [m] on is the variation of an
    earlier one. *)
Definition varied_from (m : nat) (l : list string) : Prop :=
  ∀ j c, (m <= j)%nat → l !! j = Some c →
    ∃ j' base, (j' < j)%nat ∧ l !! j' = Some base ∧ c = variation base.
End MockGenerator.

(** *** Vocabulary for the reports of the English metrics *)

Module Report.
End Report.

(** * Properties *)

(** ** The bandit *)

(** Unfolds the plumbing of a method body. *)
Ltac unfold_M :=
  unfold mbind, mret, Bandit.M_bind, Bandit.M_ret, outcome_bind, outcome_ret,
    Bandit.bind, Bandit.ret, Bandit.raise, Bandit.lift, Bandit.get,
    Bandit.history_append, Bandit.set_history, Bandit.set_values,
    Bandit.set_counts, Bandit.set_total_selections, Bandit.set_prompts,
    Bandit.set_epsilon in *.

(** ** Binary64 arithmetic *)

Section Float64Facts.
Import Float64 Run.

Lemma pow2_pos (e : Z) : 0 < pow2 e.
Proof. apply Qpower_0_lt. reflexivity. Qed.

Lemma pow2_add (a b : Z) : pow2 (a + b) == pow2 a * pow2 b.
Proof. apply Qpower_plus. discriminate. Qed.

Lemma pow2_le (a b : Z) : (a <= b)%Z → pow2 a <= pow2 b.
Proof. intros Hab. apply Qpower_le_compat_l; [exact Hab|discriminate]. Qed.

Lemma pow2_lt (a b : Z) : (a < b)%Z → pow2 a < pow2 b.
Proof. intros Hab. apply Qpower_lt_compat_l; [exact Hab|reflexivity]. Qed.

Lemma pow2_lt_inv (a b : Z) : pow2 a < pow2 b → (a < b)%Z.
Proof.
  intros Hlt. destruct (Z_lt_le_dec a b) as [?|Hle]; [done|].
  apply pow2_le in Hle. lra.
Qed.

Lemma pow2_inject (e : Z) : (0 <= e)%Z → pow2 e == inject_Z (2 ^ e).
Proof. intros He. unfold pow2. by rewrite Zpower_Qpower. Qed.

Lemma pow2_succ (e : Z) : pow2 (e + 1) == 2 * pow2 e.
Proof. rewrite pow2_add. change (pow2 1) with 2. ring. Qed.

Lemma pow2_pred (e : Z) : pow2 (e - 1) == (1 # 2) * pow2 e.
Proof.
  assert (pow2 e == pow2 (e - 1 + 1)) as -> by (by replace (e - 1 + 1)%Z with e by lia).
  rewrite pow2_succ. ring.
Qed.

Lemma log2_bounds (a : Z) :
  (0 < a)%Z → pow2 (Z.log2 a) <= inject_Z a < pow2 (Z.log2 a + 1).
Proof.
  intros Ha. destruct (Z.log2_spec a Ha) as [H1 H2].
  rewrite !pow2_inject by (pose proof (Z.log2_nonneg a); lia).
  split; [by rewrite <- Zle_Qle|by rewrite <- Zlt_Qlt].
Qed.

Lemma ilog2_spec (x : Q) :
  0 < x → pow2 (ilog2 x) <= x < pow2 (ilog2 x + 1).
Proof.
  intros Hx. unfold ilog2.
  set (la := Z.log2 (Qnum x)). set (lb := Z.log2 (Zpos (Qden x))).
  assert (0 < Qnum x)%Z as Hnum.
  { unfold Qlt in Hx. cbn in Hx. lia. }
  destruct (log2_bounds (Qnum x) Hnum) as [Ha1 Ha2].
  destruct (log2_bounds (Zpos (Qden x)) eq_refl) as [Hb1 Hb2].
  fold la in Ha1, Ha2. fold lb in Hb1, Hb2.
  rewrite pow2_succ in Ha2, Hb2.
  assert (x == inject_Z (Qnum x) / inject_Z (Zpos (Qden x))) as Hxq.
  { rewrite <- Qmake_Qdiv. by destruct x. }
  assert (0 < inject_Z (Zpos (Qden x))) as Hb by reflexivity.
  pose proof (pow2_pos (la - lb)) as Hd.
  pose proof (pow2_pos lb) as Hlb.
  assert (pow2 la == pow2 (la - lb) * pow2 lb) as Hla.
  { rewrite <- pow2_add. by replace (la - lb + lb)%Z with la by lia. }
  assert ((1 # 2) * pow2 (la - lb) < x < 2 * pow2 (la - lb)) as [Hlo Hhi].
  { assert (pow2 (la - lb) * inject_Z (Zpos (Qden x))
            < pow2 (la - lb) * (2 * pow2 lb)) as H1
      by (by apply Qmult_lt_l).
    assert (pow2 (la - lb) * pow2 lb
            <= pow2 (la - lb) * inject_Z (Zpos (Qden x))) as H2
      by (by apply Qmult_le_l).
    rewrite Hxq. clear Hxq Hx.
    generalize dependent (inject_Z (Zpos (Qden x))).
    generalize dependent (inject_Z (Qnum x)).
    intros A HA1 HA2 B HB1 HB2 HB H1 H2. split.
    - apply Qlt_shift_div_l; [done|]. lra.
    - apply Qlt_shift_div_r; [done|]. lra. }
  destruct (Qle_bool (pow2 (la - lb)) x) eqn:Hle.
  - apply Qle_bool_iff in Hle. rewrite pow2_succ. split; [done|done].
  - assert (x < pow2 (la - lb)) as Hlt.
    { destruct (Qlt_le_dec x (pow2 (la - lb))) as [?|Hge]; [done|].
      apply Qle_bool_iff in Hge. congruence. }
    replace (la - lb - 1 + 1)%Z with (la - lb)%Z by lia.
    rewrite pow2_pred. split; [lra|done].
Qed.

Lemma ilog2_unique (x : Q) (e : Z) :
  pow2 e <= x < pow2 (e + 1) → ilog2 x = e.
Proof.
  intros [H1 H2].
  assert (0 < x) as Hx by (pose proof (pow2_pos e); lra).
  destruct (ilog2_spec x Hx) as [H3 H4].
  assert (ilog2 x < e + 1)%Z by (apply pow2_lt_inv; lra).
  assert (e < ilog2 x + 1)%Z by (apply pow2_lt_inv; lra).
  lia.
Qed.

Lemma ilog2_le (x y : Q) : 0 < x → x <= y → (ilog2 x <= ilog2 y)%Z.
Proof.
  intros Hx Hxy.
  destruct (ilog2_spec x Hx) as [H1 _].
  destruct (ilog2_spec y) as [_ H2]; [lra|].
  assert (ilog2 x < ilog2 y + 1)%Z by (apply pow2_lt_inv; lra).
  lia.
Qed.

Lemma ilog2_proper (x y : Q) : 0 < x → x == y → ilog2 x = ilog2 y.
Proof.
  intros Hx Hxy. symmetry. apply ilog2_unique. rewrite <- Hxy.
  by apply ilog2_spec.
Qed.

Lemma round_half_even_proper (t t' : Q) :
  t == t' → round_half_even t = round_half_even t'.
Proof.
  intros Ht. unfold round_half_even.
  assert (Qfloor t = Qfloor t') as <- by (by apply Qfloor_comp).
  assert (Qcompare (t - inject_Z (Qfloor t)) (1 # 2)
          = Qcompare (t' - inject_Z (Qfloor t)) (1 # 2)) as ->; [|done].
  apply Qcompare_comp; [|reflexivity]. lra.
Qed.

Lemma round_half_even_error (t : Q) :
  t - (1 # 2) <= inject_Z (round_half_even t) <= t + (1 # 2).
Proof.
  unfold round_half_even.
  pose proof (Qfloor_le t) as H1. pose proof (Qlt_floor t) as H2.
  rewrite inject_Z_plus in H2. change (inject_Z 1) with 1 in H2.
  destruct (Qcompare_spec (t - inject_Z (Qfloor t)) (1 # 2)) as [He|Hl|Hg].
  - destruct (Z.even (Qfloor t)).
    + lra.
    + rewrite inject_Z_plus. change (inject_Z 1) with 1. lra.
  - lra.
  - rewrite inject_Z_plus. change (inject_Z 1) with 1. lra.
Qed.

Lemma round_half_even_Z (k : Z) : round_half_even (inject_Z k) = k.
Proof.
  unfold round_half_even. rewrite Qfloor_Z.
  destruct (Qcompare_spec (inject_Z k - inject_Z k) (1 # 2)) as [He|Hl|Hg];
    [lra|done|lra].
Qed.

Lemma round_half_even_monotone (t t' : Q) :
  t <= t' → (round_half_even t <= round_half_even t')%Z.
Proof.
  intros Ht. pose proof (Qfloor_resp_le t t' Ht) as Hf.
  destruct (Z_lt_le_dec (Qfloor t) (Qfloor t')) as [Hlt|Hge].
  - assert (round_half_even t <= Qfloor t + 1)%Z.
    { unfold round_half_even. destruct (Qcompare _ _); [|lia|lia].
      destruct (Z.even _); lia. }
    assert (Qfloor t' <= round_half_even t')%Z.
    { unfold round_half_even. destruct (Qcompare _ _); [|lia|lia].
      destruct (Z.even _); lia. }
    lia.
  - assert (Qfloor t = Qfloor t') as Heq by lia.
    unfold round_half_even. rewrite <- Heq.
    destruct (Qcompare_spec (t - inject_Z (Qfloor t)) (1 # 2)) as [He|Hl|Hg];
      destruct (Qcompare_spec (t' - inject_Z (Qfloor t)) (1 # 2)) as [He'|Hl'|Hg'];
      try lia; try lra; destruct (Z.even _); lia.
Qed.

Lemma scaled (x : Q) (q : Z) : x / pow2 q * pow2 q == x.
Proof. field. pose proof (pow2_pos q). lra. Qed.

Lemma round_pos_proper (x y : Q) : 0 < x → x == y → round_pos x = round_pos y.
Proof.
  intros Hx Hxy. unfold round_pos, ulp_exponent.
  rewrite <- (ilog2_proper x y Hx Hxy).
  f_equal. f_equal. apply round_half_even_proper.
  unfold Qdiv. apply Qmult_comp; [done|reflexivity].
Qed.

Lemma round_proper (x y : Q) : x == y → round x = round y.
Proof.
  intros Hxy. unfold round.
  assert (Qcompare x 0 = Qcompare y 0) as <-
    by (apply Qcompare_comp; [done|reflexivity]).
  destruct (Qcompare_spec x 0) as [He|Hl|Hg]; [done| |].
  - f_equal. apply round_pos_proper; lra.
  - by apply round_pos_proper.
Qed.

#[global] Instance round_Proper : Proper (Qeq ==> Qeq) round.
Proof. intros x y Hxy. by rewrite (round_proper x y Hxy). Qed.

Lemma round_pos_error (x : Q) :
  x - (1 # 2) * pow2 (ulp_exponent x) <= round_pos x
  <= x + (1 # 2) * pow2 (ulp_exponent x).
Proof.
  unfold round_pos. set (q := ulp_exponent x).
  pose proof (round_half_even_error (x / pow2 q)) as [H1 H2].
  pose proof (pow2_pos q) as Hq. pose proof (scaled x q) as Hs.
  assert ((x / pow2 q - (1 # 2)) * pow2 q
          <= inject_Z (round_half_even (x / pow2 q)) * pow2 q) as H1'
    by (apply Qmult_le_compat_r; lra).
  assert (inject_Z (round_half_even (x / pow2 q)) * pow2 q
          <= (x / pow2 q + (1 # 2)) * pow2 q) as H2'
    by (apply Qmult_le_compat_r; lra).
  split; lra.
Qed.

Lemma round_pos_nonneg (x : Q) : 0 <= x → 0 <= round_pos x.
Proof.
  intros Hx. unfold round_pos. set (q := ulp_exponent x).
  pose proof (pow2_pos q) as Hq.
  assert (0 <= x / pow2 q) as Ht by (apply Qle_shift_div_l; lra).
  apply round_half_even_monotone in Ht.
  change 0 with (inject_Z 0) in Ht. rewrite round_half_even_Z in Ht.
  apply Qmult_le_0_compat; [|lra].
  change 0 with (inject_Z 0). by rewrite <- Zle_Qle.
Qed.

(** The rounded value of a positive number does not pass the next power
    of two, nor the smallest step. *)
Lemma round_pos_upper (x : Q) :
  0 < x → round_pos x <= pow2 (Z.max (ilog2 x + 1) (ulp_exponent x)).
Proof.
  intros Hx. unfold round_pos. set (q := ulp_exponent x).
  destruct (ilog2_spec x Hx) as [_ Hhi].
  pose proof (pow2_pos q) as Hq.
  set (m := Z.max (ilog2 x + 1 - q) 0).
  assert (x / pow2 q <= inject_Z (2 ^ m)) as Ht.
  { apply Qle_shift_div_r; [done|].
    rewrite <- pow2_inject, <- pow2_add by lia.
    assert (pow2 (ilog2 x + 1) <= pow2 (m + q)) by (apply pow2_le; lia). lra. }
  apply round_half_even_monotone in Ht. rewrite round_half_even_Z in Ht.
  rewrite Zle_Qle in Ht. rewrite <- pow2_inject in Ht by lia.
  assert (inject_Z (round_half_even (x / pow2 q)) * pow2 q <= pow2 m * pow2 q)
    by (apply Qmult_le_compat_r; lra).
  rewrite <- pow2_add in H.
  replace (Z.max (ilog2 x + 1) q) with (m + q)%Z by lia. done.
Qed.

Lemma round_pos_lower (x : Q) :
  0 < x → (ulp_exponent x <= ilog2 x)%Z → pow2 (ilog2 x) <= round_pos x.
Proof.
  intros Hx Hq. unfold round_pos. set (q := ulp_exponent x) in *.
  destruct (ilog2_spec x Hx) as [Hlo _].
  pose proof (pow2_pos q) as Hq'.
  assert (inject_Z (2 ^ (ilog2 x - q)) <= x / pow2 q) as Ht.
  { apply Qle_shift_div_l; [done|].
    rewrite <- pow2_inject, <- pow2_add by lia.
    by replace (ilog2 x - q + q)%Z with (ilog2 x) by lia. }
  apply round_half_even_monotone in Ht. rewrite round_half_even_Z in Ht.
  rewrite Zle_Qle in Ht. rewrite <- pow2_inject in Ht by lia.
  assert (pow2 (ilog2 x - q) * pow2 q
          <= inject_Z (round_half_even (x / pow2 q)) * pow2 q)
    by (apply Qmult_le_compat_r; lra).
  rewrite <- pow2_add in H.
  by replace (ilog2 x - q + q)%Z with (ilog2 x) in H by lia.
Qed.

Lemma round_pos_monotone (x y : Q) :
  0 < x → x <= y → round_pos x <= round_pos y.
Proof.
  intros Hx Hxy.
  assert (0 < y) as Hy by lra.
  pose proof (ilog2_le x y Hx Hxy) as He.
  destruct (Z.eq_dec (ulp_exponent x) (ulp_exponent y)) as [Heq|Hne].
  - unfold round_pos. rewrite <- Heq. set (q := ulp_exponent x).
    pose proof (pow2_pos q) as Hq.
    apply Qmult_le_compat_r; [|lra].
    rewrite <- Zle_Qle. apply round_half_even_monotone.
    apply Qle_shift_div_l; [done|]. rewrite scaled. done.
  - assert (ulp_exponent x < ulp_exponent y)%Z as Hlt
      by (unfold ulp_exponent in *; lia).
    pose proof (round_pos_upper x Hx) as Hup.
    assert (ulp_exponent y = ilog2 y - 52)%Z as Hqy
      by (unfold ulp_exponent in *; lia).
    pose proof (round_pos_lower y Hy ltac:(lia)) as Hlow.
    assert (pow2 (Z.max (ilog2 x + 1) (ulp_exponent x)) <= pow2 (ilog2 y))
      by (apply pow2_le; unfold ulp_exponent in *; lia).
    lra.
Qed.

Lemma ilog2_scaled (k q : Z) :
  (0 < k)%Z → ilog2 (inject_Z k * pow2 q) = (Z.log2 k + q)%Z.
Proof.
  intros Hk. apply ilog2_unique.
  destruct (log2_bounds k Hk) as [H1 H2]. pose proof (pow2_pos q) as Hq.
  replace (Z.log2 k + q + 1)%Z with (Z.log2 k + 1 + q)%Z by lia.
  rewrite (pow2_add (Z.log2 k) q), (pow2_add (Z.log2 k + 1) q). split.
  - apply Qmult_le_compat_r; lra.
  - apply Qmult_lt_compat_r; lra.
Qed.

Lemma round_pos_fixes (k q : Z) :
  (0 < k < 2 ^ 53)%Z → (-1074 <= q)%Z →
  round_pos (inject_Z k * pow2 q) == inject_Z k * pow2 q.
Proof.
  intros [Hk Hk53] Hq. unfold round_pos, ulp_exponent.
  rewrite ilog2_scaled by done.
  assert (Z.log2 k < 53)%Z as Hlog by (by apply Z.log2_lt_pow2).
  set (qy := Z.max (Z.log2 k + q - 52) (-1074)).
  assert (qy <= q)%Z as Hqy by lia.
  pose proof (pow2_pos qy) as Hpos.
  assert (pow2 q == inject_Z (2 ^ (q - qy)) * pow2 qy) as Hsplit.
  { rewrite <- pow2_inject, <- pow2_add by lia.
    by replace (q - qy + qy)%Z with q by lia. }
  assert (inject_Z k * pow2 q / pow2 qy == inject_Z (k * 2 ^ (q - qy))) as Ht.
  { rewrite Hsplit, inject_Z_mult. field. lra. }
  rewrite (round_half_even_proper _ _ Ht), round_half_even_Z.
  rewrite inject_Z_mult, Hsplit. ring.
Qed.

Lemma round_pos_fixes_53 (k q : Z) :
  (0 < k <= 2 ^ 53)%Z → (-1074 <= q)%Z →
  round_pos (inject_Z k * pow2 q) == inject_Z k * pow2 q.
Proof.
  intros [Hk Hk53] Hq.
  destruct (Z.eq_dec k (2 ^ 53)%Z) as [->|Hne]; [|apply round_pos_fixes; lia].
  assert (inject_Z (2 ^ 53)%Z * pow2 q == inject_Z (2 ^ 52)%Z * pow2 (q + 1)) as Heq.
  { rewrite pow2_succ.
    change (inject_Z (2 ^ 53)%Z) with (inject_Z (2 * 2 ^ 52)%Z).
    rewrite inject_Z_mult. change (inject_Z 2) with 2. ring. }
  pose proof (pow2_pos q).
  assert (0 < inject_Z (2 ^ 53)%Z * pow2 q) as Hpos
    by (apply Qmult_lt_0_compat; [reflexivity|done]).
  rewrite (round_pos_proper _ _ Hpos Heq).
  rewrite round_pos_fixes by lia. by rewrite Heq.
Qed.

Lemma round_0 : round 0 = 0.
Proof. reflexivity. Qed.

Lemma round_pos_case (x : Q) : 0 < x → round x = round_pos x.
Proof.
  intros Hx. unfold round.
  destruct (Qcompare_spec x 0) as [He|Hl|Hg]; [lra|lra|done].
Qed.

Lemma round_neg_case (x : Q) : x < 0 → round x = - round_pos (- x).
Proof.
  intros Hx. unfold round.
  destruct (Qcompare_spec x 0) as [He|Hl|Hg]; [lra|done|lra].
Qed.

Lemma round_opp (x : Q) : round (- x) == - round x.
Proof.
  destruct (Q_dec x 0) as [[Hl|Hg]|He].
  - rewrite (round_neg_case x Hl), (round_pos_case (- x)) by lra. ring.
  - rewrite (round_pos_case x Hg), (round_neg_case (- x)) by lra.
    rewrite (round_pos_proper (- - x) x) by (lra || ring). reflexivity.
  - rewrite (round_proper x 0 He), (round_proper (- x) 0) by lra.
    rewrite round_0. reflexivity.
Qed.

Lemma round_representable (y : Q) : representable y → round y == y.
Proof.
  intros (k & q & Hk & Hq & Hy). pose proof (pow2_pos q) as Hpos.
  rewrite (round_proper _ _ Hy).
  destruct (Z.lt_trichotomy k 0) as [Hneg|[->|Hp]].
  - assert (inject_Z k * pow2 q < 0) as Hlt.
    { assert (inject_Z k < 0) by (change 0 with (inject_Z 0); by rewrite <- Zlt_Qlt).
      assert (0 < - inject_Z k * pow2 q) by (apply Qmult_lt_0_compat; lra). lra. }
    rewrite (round_neg_case _ Hlt).
    assert (- (inject_Z k * pow2 q) == inject_Z (- k) * pow2 q) as Ho
      by (rewrite inject_Z_opp; ring).
    assert (0 < - (inject_Z k * pow2 q)) as Hpos' by lra.
    rewrite (round_pos_proper _ _ Hpos' Ho), round_pos_fixes_53 by lia.
    rewrite <- Ho, Hy. ring.
  - assert (inject_Z 0 * pow2 q == 0) as H0 by ring.
    rewrite (round_proper _ _ H0), round_0, Hy. ring.
  - assert (0 < inject_Z k * pow2 q) as Hgt.
    { apply Qmult_lt_0_compat; [|done].
      change 0 with (inject_Z 0). by rewrite <- Zlt_Qlt. }
    rewrite (round_pos_case _ Hgt), round_pos_fixes_53 by lia. by rewrite Hy.
Qed.

Lemma round_pos_representable (x : Q) : 0 < x → representable (round_pos x).
Proof.
  intros Hx. exists (round_half_even (x / pow2 (ulp_exponent x))), (ulp_exponent x).
  split; [|split; [unfold ulp_exponent; lia|reflexivity]].
  set (q := ulp_exponent x). pose proof (pow2_pos q) as Hq.
  destruct (ilog2_spec x Hx) as [_ Hhi].
  assert (0 <= x / pow2 q <= inject_Z (2 ^ 53)) as [Ht0 Ht1].
  { split; [apply Qle_shift_div_l; lra|].
    apply Qle_shift_div_r; [done|].
    rewrite <- pow2_inject, <- pow2_add by lia.
    assert (pow2 (ilog2 x + 1) <= pow2 (53 + q))
      by (apply pow2_le; unfold q, ulp_exponent; lia).
    lra. }
  apply round_half_even_monotone in Ht0, Ht1.
  change 0 with (inject_Z 0) in Ht0. rewrite round_half_even_Z in Ht0, Ht1.
  lia.
Qed.

Lemma representable_opp (y : Q) : representable y → representable (- y).
Proof.
  intros (k & q & Hk & Hq & Hy). exists (- k)%Z, q.
  split; [lia|]. split; [done|]. rewrite Hy, inject_Z_opp. ring.
Qed.

Lemma round_is_representable (x : Q) : representable (round x).
Proof.
  destruct (Q_dec x 0) as [[Hl|Hg]|He].
  - rewrite (round_neg_case x Hl). apply representable_opp.
    apply round_pos_representable. lra.
  - rewrite (round_pos_case x Hg). by apply round_pos_representable.
  - rewrite (round_proper x 0 He), round_0. exists 0%Z, 0%Z.
    split; [done|]. split; [done|]. reflexivity.
Qed.

Lemma round_idempotent (x : Q) : round (round x) == round x.
Proof. apply round_representable, round_is_representable. Qed.

Lemma round_nonneg (x : Q) : 0 <= x → 0 <= round x.
Proof.
  intros Hx. destruct (Qle_lt_or_eq _ _ Hx) as [Hlt|Heq].
  - rewrite (round_pos_case x Hlt). by apply round_pos_nonneg.
  - rewrite (round_proper x 0) by lra. by rewrite round_0.
Qed.

Lemma round_monotone (x y : Q) : x <= y → round x <= round y.
Proof.
  intros Hxy.
  destruct (Qlt_le_dec 0 x) as [Hx|Hx].
  - rewrite (round_pos_case x Hx), (round_pos_case y) by lra.
    by apply round_pos_monotone.
  - destruct (Qlt_le_dec y 0) as [Hy|Hy].
    + rewrite (round_neg_case x), (round_neg_case y) by lra.
      assert (round_pos (- y) <= round_pos (- x))
        by (apply round_pos_monotone; lra).
      lra.
    + pose proof (round_nonneg y Hy).
      assert (0 <= round (- x)) as Hnx by (apply round_nonneg; lra).
      rewrite round_opp in Hnx. lra.
Qed.

Lemma round_Z (n : Z) : (Z.abs n <= 2 ^ 53)%Z → round (inject_Z n) == inject_Z n.
Proof.
  intros Hn. apply round_representable. exists n, 0%Z.
  split; [done|]. split; [done|]. change (pow2 0) with 1. ring.
Qed.

Lemma round_1 : round 1 == 1.
Proof. exact (round_Z 1 ltac:(done)). Qed.

Lemma round_unit (x : Q) : 0 <= x <= 1 → 0 <= round x <= 1.
Proof.
  intros [H0 H1]. split; [by apply round_nonneg|].
  rewrite <- round_1. by apply round_monotone.
Qed.

Lemma half_ulp_pow2 : half_ulp == pow2 (-54).
Proof. reflexivity. Qed.

Lemma unit_roundoff_pow2 : unit_roundoff == pow2 (-53).
Proof. reflexivity. Qed.

Lemma round_pos_error_below_one (x : Q) :
  0 < x < 1 → x - half_ulp <= round_pos x <= x + half_ulp.
Proof.
  intros [Hx0 Hx1]. pose proof (round_pos_error x) as [H1 H2].
  destruct (ilog2_spec x Hx0) as [Hlo _].
  assert (ilog2 x < 0)%Z as He by (apply pow2_lt_inv; change (pow2 0) with 1; lra).
  assert (pow2 (ulp_exponent x) <= pow2 (-53)) as Hq
    by (apply pow2_le; unfold ulp_exponent; lia).
  assert (pow2 (-53) == 2 * half_ulp) as H53 by reflexivity.
  rewrite H53 in Hq. lra.
Qed.

(** Rounding moves a number between -1 and 1 by at most [2^(-54)]. *)
Lemma round_error_unit (x : Q) :
  -1 <= x <= 1 → x - half_ulp <= round x <= x + half_ulp.
Proof.
  assert (∀ y, 0 <= y <= 1 → y - half_ulp <= round y <= y + half_ulp) as Hpos.
  { intros y [Hy0 Hy1].
    destruct (Qle_lt_or_eq _ _ Hy0) as [Hlt|Heq].
    - destruct (Qle_lt_or_eq _ _ Hy1) as [Hlt1|Heq1].
      + rewrite (round_pos_case y Hlt). by apply round_pos_error_below_one.
      + rewrite (round_proper y 1 Heq1), round_1. unfold half_ulp. lra.
    - rewrite (round_proper y 0) by lra. rewrite round_0. unfold half_ulp. lra. }
  intros [H1 H2]. destruct (Qlt_le_dec x 0) as [Hneg|Hnn]; [|by apply Hpos].
  destruct (Hpos (- x)) as [H3 H4]; [lra|]. rewrite round_opp in H3, H4. lra.
Qed.

(** A number that exceeds 1 by at most [2^(-54)] rounds to 1. *)
Lemma round_above_one (x : Q) : 1 <= x <= 1 + half_ulp → round x == 1.
Proof.
  intros [H1 H2]. apply Qle_antisym.
  - assert (round (1 + half_ulp) == 1) as <- by (vm_compute; reflexivity).
    by apply round_monotone.
  - rewrite <- round_1 at 1. by apply round_monotone.
Qed.

(** In the normal range rounding moves a number by at most the fraction
    [2^(-53)] of it. *)
Lemma round_relative (x : Q) :
  pow2 (-1022) <= x →
  x * (1 - unit_roundoff) <= round x <= x * (1 + unit_roundoff).
Proof.
  intros Hx. pose proof (pow2_pos (-1022)) as Hmin.
  assert (0 < x) as Hx0 by lra.
  rewrite (round_pos_case x Hx0).
  pose proof (round_pos_error x) as [H1 H2].
  destruct (ilog2_spec x Hx0) as [Hlo _].
  assert (-1022 <= ilog2 x)%Z as He.
  { assert (ilog2 (pow2 (-1022)) = (-1022)%Z) as <-.
    { apply ilog2_unique. split; [lra|]. by apply pow2_lt. }
    by apply ilog2_le. }
  assert (ulp_exponent x = ilog2 x - 53 + 1)%Z as Hq by (unfold ulp_exponent; lia).
  rewrite Hq, pow2_succ in H1, H2.
  assert (pow2 (ilog2 x - 53) == unit_roundoff * pow2 (ilog2 x)) as Hu.
  { replace (ilog2 x - 53)%Z with (-53 + ilog2 x)%Z by lia.
    by rewrite pow2_add, unit_roundoff_pow2. }
  rewrite Hu in H1, H2.
  assert (unit_roundoff * pow2 (ilog2 x) <= unit_roundoff * x)
    by (apply Qmult_le_l; [reflexivity|done]).
  split; lra.
Qed.

Lemma scale_le (z x y : Q) : 0 <= z → x <= y → z * x <= z * y.
Proof.
  intros Hz Hxy. rewrite (Qmult_comm z x), (Qmult_comm z y).
  by apply Qmult_le_compat_r.
Qed.

Lemma scale_bounds (z e h : Q) :
  0 <= z → - h <= e <= h → - (z * h) <= z * e <= z * h.
Proof.
  intros Hz [H1 H2].
  pose proof (scale_le z e h Hz H2). pose proof (scale_le z (- h) e Hz H1).
  split; lra.
Qed.

Lemma div_shrinks (a m : Q) :
  1 <= m → (0 <= a → 0 <= a / m <= a) ∧ (a <= 0 → a <= a / m <= 0).
Proof.
  intros Hm. assert (0 < m) as Hm0 by lra.
  assert (a / m * m == a) as Hs by (field; lra).
  split; intros Ha.
  - assert (0 <= a / m) as H0 by (apply Qle_shift_div_l; lra).
    assert (a / m * 1 <= a / m * m) by (apply scale_le; lra).
    split; lra.
  - assert (a / m <= 0) as H0 by (apply Qle_shift_div_r; lra).
    assert (- (a / m) * 1 <= - (a / m) * m) by (apply scale_le; lra).
    split; lra.
Qed.

Lemma of_int_ge_1 (n : Z) : (1 <= n)%Z → 1 <= of_int n.
Proof.
  intros Hn. unfold of_int. rewrite <- round_1.
  apply round_monotone. change 1 with (inject_Z 1). by rewrite <- Zle_Qle.
Qed.

Lemma of_int_exact (n : Z) : (Z.abs n <= 2 ^ 53)%Z → of_int n == inject_Z n.
Proof. apply round_Z. Qed.

(** The steps of the new value, with what is known of each: [a] is the
    rounded difference, [d] the rounded quotient and [s] the sum before
    its rounding. *)
Lemma next_value_steps (v r : Q) (n : Z) :
  0 <= v <= 1 → 0 <= r <= 1 → (1 <= n)%Z →
  ∃ a d,
    next_value v r n == round (round v + d)
    ∧ d == round (a / of_int n)
    ∧ a == round (round r - round v)
    ∧ - round v <= a ∧ - round v <= a / of_int n ∧ - round v <= d
    ∧ round v + a <= 1 + half_ulp
    ∧ round v + a / of_int n <= 1 + half_ulp
    ∧ round v + d <= 1 + half_ulp
    ∧ -1 <= a / of_int n <= 1.
Proof.
  intros Hv Hr Hn.
  pose proof (round_unit v Hv) as [Hv0 Hv1].
  pose proof (round_unit r Hr) as [Hr0 Hr1].
  pose proof (of_int_ge_1 n Hn) as Hm.
  set (a := round (round r - round v)).
  set (c := round (1 - round v)).
  assert (- round v <= a) as Ha1.
  { unfold a. rewrite <- (round_idempotent v) at 1. rewrite <- round_opp.
    apply round_monotone. lra. }
  assert (a <= c) as Ha2 by (apply round_monotone; lra).
  assert (0 <= c <= 1 - round v + half_ulp) as [Hc0 Hc1].
  { split; [apply round_nonneg; lra|].
    apply (round_error_unit (1 - round v)). lra. }
  assert (round c == c) as Hcc by apply round_idempotent.
  assert (- round v <= a / of_int n <= c) as [Hx1 Hx2].
  { destruct (div_shrinks a (of_int n) Hm) as [Hp Hq].
    destruct (Qlt_le_dec a 0) as [Hneg|Hpos].
    - destruct Hq as [? ?]; [lra|]. split; lra.
    - destruct (Hp Hpos) as [? ?]. split; lra. }
  set (d := round (a / of_int n)).
  assert (- round v <= d <= c) as [Hd1 Hd2].
  { split.
    - unfold d. rewrite <- (round_idempotent v) at 1. rewrite <- round_opp.
      by apply round_monotone.
    - rewrite <- Hcc. by apply round_monotone. }
  exists a, d. split.
  { unfold next_value, add, div, sub. fold a.
    assert (round a == a) as -> by apply round_idempotent.
    assert (round (of_int n) == of_int n) as -> by apply round_idempotent.
    fold d. assert (round d == d) as -> by apply round_idempotent.
    reflexivity. }
  split; [reflexivity|]. split; [reflexivity|].
  assert (c <= 1) as Hc2.
  { apply (round_unit (1 - round v)). lra. }
  repeat (split; [lra|]). lra.
Qed.

(** An update of a value between 0 and 1 with a reward between 0 and 1
    gives a value between 0 and 1. *)
Lemma next_value_unit (v r : Q) (n : Z) :
  0 <= v <= 1 → 0 <= r <= 1 → (1 <= n)%Z → 0 <= next_value v r n <= 1.
Proof.
  intros Hv Hr Hn.
  destruct (next_value_steps v r n Hv Hr Hn)
    as (a & d & -> & _ & _ & _ & _ & Hd1 & _ & _ & Hd2 & _).
  split; [apply round_nonneg; lra|].
  assert (round (1 + half_ulp) == 1) as <- by (vm_compute; reflexivity).
  by apply round_monotone.
Qed.

(** The new value is the exact incremental mean up to four roundings:
    [n] times the new value differs from [(n - 1) * v + r] by at most
    [(2 n + 2) * 2^(-54)]. *)
Lemma next_value_error (v r : Q) (n : Z) :
  0 <= v <= 1 → 0 <= r <= 1 → (1 <= n <= 2 ^ 53)%Z →
  n = 1%Z ∨ round v == v →
  Qabs (inject_Z n * next_value v r n - (inject_Z (n - 1) * v + r))
  <= (2 * inject_Z n + 2) * half_ulp.
Proof.
  intros Hv Hr [Hn Hn53] Hrep.
  destruct (next_value_steps v r n Hv Hr Hn)
    as (a & d & -> & Hd & Ha & Ha1 & Hx1 & Hd1 & Ha2 & Hx2 & Hd2 & Hx).
  pose proof (round_unit v Hv) as [Hv0 Hv1].
  pose proof (round_unit r Hr) as [Hr0 Hr1].
  pose proof (of_int_exact n ltac:(lia)) as Hm.
  assert (1 <= inject_Z n) as HN
    by (change 1 with (inject_Z 1); by rewrite <- Zle_Qle).
  set (N := inject_Z n) in *.
  assert (inject_Z (n - 1) == N - 1) as ->.
  { unfold Zminus. rewrite inject_Z_plus, inject_Z_opp. reflexivity. }
  (* the four rounding errors *)
  assert (- half_ulp <= round r - r <= half_ulp) as Hr_err.
  { pose proof (round_error_unit r ltac:(lra)). lra. }
  assert (- half_ulp <= a - (round r - round v) <= half_ulp) as Ha_err.
  { rewrite Ha. pose proof (round_error_unit (round r - round v) ltac:(lra)). lra. }
  assert (- half_ulp <= d - a / of_int n <= half_ulp) as Hd_err.
  { rewrite Hd. pose proof (round_error_unit (a / of_int n) Hx). lra. }
  assert (- half_ulp <= round (round v + d) - (round v + d) <= half_ulp) as Hs_err.
  { destruct (Qlt_le_dec 1 (round v + d)) as [Hgt|Hle].
    - rewrite (round_above_one (round v + d)) by lra. lra.
    - pose proof (round_error_unit (round v + d) ltac:(lra)). lra. }
  assert (N * (a / of_int n) == a) as Hquot.
  { rewrite Hm. unfold N. field. fold N. lra. }
  pose proof (scale_bounds N _ half_ulp ltac:(lra) Hd_err) as HNd.
  pose proof (scale_bounds N _ half_ulp ltac:(lra) Hs_err) as HNs.
  assert ((N - 1) * round v == (N - 1) * v) as Hvv.
  { destruct Hrep as [Hone|Hfix]; [|by rewrite Hfix].
    unfold N. rewrite Hone. change (inject_Z 1) with 1. ring. }
  apply Qabs_Qle_condition. split; lra.
Qed.
End Float64Facts.








Section WeightedMeanError.
Import Float64 WeightedMean.

Lemma lower_upper : 0 < lower ∧ lower <= 1 ∧ 1 <= upper ∧ upper <= 2.
Proof. unfold lower, upper, unit_roundoff. repeat split; lra. Qed.

Lemma pow_pos (b : Q) (k : nat) : 0 < b → 0 < pow b k.
Proof.
  intros Hb. induction k as [|k IH]; cbn [pow]; [lra|].
  by apply Qmult_lt_0_compat.
Qed.

Lemma pow_ge_1 (b : Q) (k : nat) : 1 <= b → 1 <= pow b k.
Proof.
  intros Hb. induction k as [|k IH]; cbn [pow]; [lra|].
  pose proof (scale_le b 1 (pow b k) ltac:(lra) IH). lra.
Qed.

Lemma pow_le_1 (b : Q) (k : nat) : 0 < b <= 1 → pow b k <= 1.
Proof.
  intros Hb. induction k as [|k IH]; cbn [pow]; [lra|].
  pose proof (scale_le b (pow b k) 1 ltac:(lra) IH). lra.
Qed.

Lemma pow_grows (b : Q) (j k : nat) : 1 <= b → (j <= k)%nat → pow b j <= pow b k.
Proof.
  intros Hb Hjk. induction Hjk as [|k _ IH]; [lra|]. cbn [pow].
  pose proof (pow_pos b k ltac:(lra)).
  pose proof (scale_le (pow b k) 1 b ltac:(lra) Hb). lra.
Qed.

Lemma pow_shrinks (b : Q) (j k : nat) :
  0 < b <= 1 → (j <= k)%nat → pow b k <= pow b j.
Proof.
  intros Hb Hjk. induction Hjk as [|k _ IH]; [lra|]. cbn [pow].
  pose proof (pow_pos b k ltac:(lra)).
  pose proof (scale_le (pow b k) b 1 ltac:(lra) ltac:(lra)). lra.
Qed.

(** Rounding a number of the normal range changes it by a factor between
    [1 - 2^(-53)] and [1 + 2^(-53)]. *)
Lemma round_factor (x : Q) :
  x == 0 ∨ pow2 (-1022) <= x → lower * x <= round x <= upper * x.
Proof.
  intros [Hx|Hx].
  - rewrite (round_proper x 0 Hx), round_0, Hx. lra.
  - pose proof (round_relative x Hx). unfold lower, upper. lra.
Qed.

Lemma round_in_range (x : Q) :
  in_range x →
  (x == 0 ∧ round x = 0)
  ∨ (pow2 (-200) <= x ∧ lower * x <= round x <= upper * x ∧ pow2 (-201) <= round x).
Proof.
  intros [Hx|[Hx1 Hx2]].
  - left. split; [done|]. by rewrite (round_proper x 0 Hx), round_0.
  - right. split; [done|].
    assert (pow2 (-1022) <= pow2 (-200)) by (by apply pow2_le).
    pose proof (round_factor x ltac:(right; lra)) as [H1 H2].
    split; [done|].
    assert (pow2 (-201) == (1 # 2) * pow2 (-200)) as -> by reflexivity.
    pose proof (pow2_pos (-200)).
    assert ((1 # 2) * x <= lower * x).
    { rewrite (Qmult_comm (1 # 2)), (Qmult_comm lower).
      apply scale_le; [lra|]. unfold lower, unit_roundoff. lra. }
    lra.
Qed.

(** The product of a weight and a score. *)
Lemma mul_in_range (w s : Q) :
  in_range w → in_range s →
  (w * s == 0 ∧ mul w s = 0)
  ∨ (pow2 (-400) <= w * s
     ∧ pow lower 3 * (w * s) <= mul w s <= pow upper 3 * (w * s)
     ∧ pow2 (-1022) <= mul w s).
Proof.
  intros Hw Hs. unfold mul.
  destruct (round_in_range w Hw) as [[Hw0 ->]|(Hw1 & [Hw2 Hw3] & Hw4)].
  { left. split; [rewrite Hw0; ring|].
    rewrite (round_proper (0 * round s) 0) by ring. apply round_0. }
  destruct (round_in_range s Hs) as [[Hs0 ->]|(Hs1 & [Hs2 Hs3] & Hs4)].
  { left. split; [rewrite Hs0; ring|].
    rewrite (round_proper (round w * 0) 0) by ring. apply round_0. }
  right. destruct lower_upper as (Hl0 & Hl1 & Hu1 & Hu2).
  pose proof (pow2_pos (-200)) as H200. pose proof (pow2_pos (-201)) as H201.
  assert (pow2 (-400) <= w * s) as Hws.
  { assert (pow2 (-400) == pow2 (-200) * pow2 (-200)) as -> by reflexivity.
    apply Qmult_le_compat_nonneg; split; lra. }
  assert (pow2 (-402) <= round w * round s) as Hprod.
  { assert (pow2 (-402) == pow2 (-201) * pow2 (-201)) as -> by reflexivity.
    apply Qmult_le_compat_nonneg; split; lra. }
  assert (lower * w * (lower * s) <= round w * round s <= upper * w * (upper * s))
    as [Hp1 Hp2].
  { assert (0 <= lower * w) by (apply Qmult_le_0_compat; lra).
    assert (0 <= lower * s) by (apply Qmult_le_0_compat; lra).
    split; apply Qmult_le_compat_nonneg; split; lra. }
  assert (pow2 (-1022) <= pow2 (-403)) as Hmin by (by apply pow2_le).
  assert (pow2 (-403) <= pow2 (-402)) as Hmin' by (by apply pow2_le).
  pose proof (round_factor (round w * round s) ltac:(right; lra)) as [Hr1 Hr2].
  pose proof (scale_le lower _ _ ltac:(lra) Hp1) as Hq1.
  pose proof (scale_le upper _ _ ltac:(lra) Hp2) as Hq2.
  split; [done|]. cbn [pow]. split; [split|].
  - lra.
  - lra.
  - assert (pow2 (-403) == (1 # 2) * pow2 (-402)) as Hhalf by reflexivity.
    assert ((1 # 2) * (round w * round s) <= lower * (round w * round s)).
    { rewrite (Qmult_comm (1 # 2)), (Qmult_comm lower).
      apply scale_le; [lra|]. unfold lower, unit_roundoff. lra. }
    lra.
Qed.

(** One addition of the accumulation: the sum [t] so far is within the
    factors [lower ^ a] and [upper ^ a] of the exact sum [x], and so is the
    term [p], once rounded, of [y]. *)
Lemma add_factor (t p x y : Q) (a : nat) :
  round t == t →
  0 <= x → 0 <= y →
  pow lower a * x <= t <= pow upper a * x →
  pow lower a * y <= round p <= pow upper a * y →
  (y == 0 ∧ round p == 0) ∨ pow2 (-1022) <= round p →
  round (add t p) == add t p
  ∧ pow lower (S a) * (x + y) <= add t p <= pow upper (S a) * (x + y).
Proof.
  intros Ht Hx Hy [Ht1 Ht2] [Hp1 Hp2] Hcase.
  destruct lower_upper as (Hl0 & Hl1 & Hu1 & Hu2).
  split; [apply round_idempotent|].
  unfold add. rewrite (round_proper (round t + round p) (t + round p)) by (by rewrite Ht).
  pose proof (pow_pos lower a Hl0) as HA.
  pose proof (pow_pos upper a ltac:(lra)) as HB.
  assert (0 <= pow lower a * x) as HAx by (apply Qmult_le_0_compat; lra).
  cbn [pow].
  destruct Hcase as [[Hy0 Hp0]|Hpmin].
  - rewrite (round_proper (t + round p) t) by (rewrite Hp0; ring).
    rewrite Ht. rewrite Hy0, !Qplus_0_r.
    pose proof (scale_le (pow lower a * x) lower 1 HAx Hl1).
    assert (0 <= pow upper a * x) as HBx by (apply Qmult_le_0_compat; lra).
    pose proof (scale_le (pow upper a * x) 1 upper HBx Hu1).
    split; lra.
  - assert (0 <= pow lower a * y) as HAy by (apply Qmult_le_0_compat; lra).
    pose proof (round_factor (t + round p) ltac:(right; lra)) as [Hr1 Hr2].
    assert (pow lower a * (x + y) <= t + round p <= pow upper a * (x + y))
      as [Hs1 Hs2] by (split; lra).
    pose proof (scale_le lower _ _ ltac:(lra) Hs1) as Hq1.
    pose proof (scale_le upper _ _ ltac:(lra) Hs2) as Hq2.
    split; lra.
Qed.

Lemma products_snoc (l : list (Q * Q)) (x : Q * Q) :
  products (l ++ [x]) == products l + x.1 * x.2.
Proof.
  unfold products. induction l as [|y l IH]; cbn; [ring|]. cbn in IH. rewrite IH. ring.
Qed.

Lemma total_snoc (l : list (Q * Q)) (x : Q * Q) : total (l ++ [x]) == total l + x.1.
Proof.
  unfold total. induction l as [|y l IH]; cbn; [ring|]. cbn in IH. rewrite IH. ring.
Qed.

Lemma product_in_range (w s : Q) :
  in_range w → in_range s → 0 <= w * s ∧ (w * s == 0 ∨ pow2 (-400) <= w * s).
Proof.
  intros [Hw|[Hw1 Hw2]]; [intros _; rewrite Hw; split; [lra|left; ring]|].
  intros [Hs|[Hs1 Hs2]]; [rewrite Hs; split; [lra|left; ring]|].
  pose proof (pow2_pos (-200)).
  assert (pow2 (-400) <= w * s).
  { assert (pow2 (-400) == pow2 (-200) * pow2 (-200)) as -> by reflexivity.
    apply Qmult_le_compat_nonneg; split; lra. }
  pose proof (pow2_pos (-400)). split; [lra|by right].
Qed.

(** The two sums of the accumulation are the exact sums up to one factor
    for every operation. *)
Lemma fold_factor (l : list (Q * Q)) :
  Forall (fun ws => in_range ws.1 ∧ in_range ws.2) l →
  let acc := foldl add_term (0, 0) l in
  round acc.1 == acc.1 ∧ round acc.2 == acc.2
  ∧ 0 <= products l ∧ 0 <= total l
  ∧ pow lower (length l + 3) * products l <= acc.1
    <= pow upper (length l + 3) * products l
  ∧ pow lower (length l + 1) * total l <= acc.2
    <= pow upper (length l + 1) * total l.
Proof.
  destruct lower_upper as (Hl0 & Hl1 & Hu1 & Hu2).
  induction l as [|[w s] l IH] using rev_ind; intros Hall; cbv zeta.
  - cbn [foldl fst snd length]. rewrite round_0.
    unfold products, total. cbn [fmap list_fmap foldr]. repeat split; lra.
  - apply Forall_app in Hall as [Hl Hx]. apply Forall_inv in Hx as [Hw Hs].
    cbn [fst snd] in Hw, Hs.
    destruct (IH Hl) as (HT & HW & Hn & Hd & HTb & HWb).
    rewrite foldl_app. cbn [foldl].
    set (acc := foldl add_term (0, 0) l) in *. unfold add_term. cbn [fst snd].
    set (T := acc.1) in *. set (W := acc.2) in *.
    rewrite products_snoc, total_snoc, length_app. cbn [fst snd length].
    replace (length l + 1 + 3)%nat with (S (length l + 3)) by lia.
    replace (length l + 1 + 1)%nat with (S (length l + 1)) by lia.
    destruct (product_in_range w s Hw Hs) as [Hws0 Hws].
    assert (0 <= w) as Hw0.
    { destruct Hw as [->|[? _]]; [lra|]. pose proof (pow2_pos (-200)). lra. }
    assert (pow lower (length l + 3) <= pow lower 3) as HA3
      by (apply pow_shrinks; [lra|lia]).
    assert (pow upper 3 <= pow upper (length l + 3)) as HB3
      by (apply pow_grows; [lra|lia]).
    assert (pow lower (length l + 1) <= pow lower 1) as HA1
      by (apply pow_shrinks; [lra|lia]).
    assert (pow upper 1 <= pow upper (length l + 1)) as HB1
      by (apply pow_grows; [lra|lia]).
    destruct (add_factor T (mul w s) (products l) (w * s) (length l + 3))
      as [HT' HTb']; [done|done|done|done| | |].
    { unfold mul at 1 2. rewrite round_idempotent. fold (mul w s).
      destruct (mul_in_range w s Hw Hs) as [[H0 ->]|(_ & [H1 H2] & _)].
      - rewrite H0. split; lra.
      - pose proof (scale_le (w * s) _ _ Hws0 HA3).
        pose proof (scale_le (w * s) _ _ Hws0 HB3). split; lra. }
    { unfold mul at 1 2. rewrite round_idempotent. fold (mul w s).
      destruct (mul_in_range w s Hw Hs) as [[H0 ->]|(_ & _ & H1)];
        [left; split; [done|reflexivity]|by right]. }
    destruct (add_factor W w (total l) w (length l + 1))
      as [HW' HWb']; [done|done|done|done| | |].
    { destruct (round_in_range w Hw) as [[H0 ->]|(_ & [H1 H2] & _)].
      - rewrite H0. split; lra.
      - cbn [pow] in HA1, HB1.
        pose proof (scale_le w _ _ Hw0 HA1).
        pose proof (scale_le w _ _ Hw0 HB1). split; lra. }
    { destruct (round_in_range w Hw) as [[H0 ->]|(_ & _ & H1)];
        [left; split; [done|reflexivity]|right].
      assert (pow2 (-1022) <= pow2 (-201)) by (by apply pow2_le). lra. }
    split; [done|]. split; [done|]. split; [lra|]. split; [lra|]. by split.
Qed.

Lemma sums_in_range (l : list (Q * Q)) :
  Forall (fun ws => in_range ws.1 ∧ in_range ws.2) l →
  (products l == 0 ∨ pow2 (-400) <= products l)
  ∧ total l <= inject_Z (Z.of_nat (length l)) * pow2 200.
Proof.
  pose proof (pow2_pos (-400)) as H400. pose proof (pow2_pos 200) as H200.
  induction 1 as [|[w s] l [Hw Hs] Hl [IH1 IH2]].
  - unfold products, total. cbn [fmap list_fmap foldr length].
    change (inject_Z (Z.of_nat 0)) with 0. split; [by left|lra].
  - cbn [fst snd] in Hw, Hs.
    assert (products ((w, s) :: l) == w * s + products l) as -> by reflexivity.
    assert (total ((w, s) :: l) == w + total l) as -> by reflexivity.
    cbn [length]. rewrite Nat2Z.inj_succ, <- Z.add_1_r, inject_Z_plus.
    change (inject_Z 1) with 1.
    destruct (product_in_range w s Hw Hs) as [Hws0 Hws].
    assert (w <= pow2 200) by (destruct Hw as [Hw0|[_ ?]]; lra).
    split; [|lra].
    destruct IH1 as [IH1|IH1], Hws as [Hws|Hws]; [left|right..]; lra.
Qed.

(** A thousand operations change a number by less than three parts in
    [10^13]. *)
Lemma factors_bound (k : nat) :
  (k <= 1004)%nat →
  1 - (1 # 4000000000000) <= pow lower k ∧ pow upper k <= 1 + (1 # 4000000000000).
Proof.
  intros Hk.
  assert (1 - inject_Z (Z.of_nat k) * unit_roundoff <= pow lower k
          ∧ pow upper k <= 1 + 2 * inject_Z (Z.of_nat k) * unit_roundoff) as [H1 H2].
  { induction k as [|k IH].
    - cbn [pow]. change (inject_Z (Z.of_nat 0)) with 0. split; lra.
    - destruct IH as [IH1 IH2]; [lia|].
      assert (0 <= inject_Z (Z.of_nat k) <= 1004) as [HK0 HK1].
      { change 0 with (inject_Z 0). change 1004 with (inject_Z 1004).
        rewrite <- !Zle_Qle. lia. }
      rewrite Nat2Z.inj_succ, <- Z.add_1_r, inject_Z_plus.
      change (inject_Z 1) with 1. cbn [pow].
      unfold lower, upper, unit_roundoff in *. split; lra. }
  assert (0 <= inject_Z (Z.of_nat k) <= 1004) as [HK0 HK1].
  { change 0 with (inject_Z 0). change 1004 with (inject_Z 1004).
    rewrite <- !Zle_Qle. lia. }
  unfold unit_roundoff in *. split; lra.
Qed.

(** The quotient of the two sums is the exact weighted mean up to one part
    in [10^12]. *)
Lemma fold_close (l : list (Q * Q)) :
  Forall (fun ws => in_range ws.1 ∧ in_range ws.2) l →
  (length l <= 1000)%nat →
  0 < total l →
  let acc := foldl add_term (0, 0) l in
  0 < acc.2
  ∧ Qabs (div acc.1 acc.2 - products l / total l) <= (1 # 1000000000000) * (products l / total l).
Proof.
  intros Hall Hlen Hden. cbv zeta.
  destruct (fold_factor l Hall) as (HT & HW & Hn & _ & [HT1 HT2] & [HW1 HW2]).
  destruct (sums_in_range l Hall) as [Hnum Hmax].
  set (T := (foldl add_term (0, 0) l).1) in *.
  set (W := (foldl add_term (0, 0) l).2) in *.
  destruct (factors_bound (length l + 3) ltac:(lia)) as [HA3 HB3].
  destruct (factors_bound (length l + 1) ltac:(lia)) as [HA1 HB1].
  assert ((1 - (1 # 4000000000000)) * products l <= T
          <= (1 + (1 # 4000000000000)) * products l) as [HTa HTb].
  { pose proof (scale_le (products l) _ _ Hn HA3).
    pose proof (scale_le (products l) _ _ Hn HB3). split; lra. }
  assert ((1 - (1 # 4000000000000)) * total l <= W
          <= (1 + (1 # 4000000000000)) * total l) as [HWa HWb].
  { pose proof (scale_le (total l) _ _ ltac:(lra) HA1).
    pose proof (scale_le (total l) _ _ ltac:(lra) HB1). split; lra. }
  assert (0 < W) as HWpos by (lra).
  split; [done|].
  unfold div. rewrite (round_proper (round T / round W) (T / W)) by (by rewrite HT, HW).
  assert (T / W * W == T) as Hx by (field; lra).
  assert (products l / total l * total l == products l) as Hm by (field; lra).
  set (x := T / W) in *. set (m := products l / total l) in *.
  destruct Hnum as [Hnum|Hnum].
  { assert (T == 0) as HT0 by (rewrite Hnum in HTa, HTb; lra).
    assert (x == 0) as Hx0 by (unfold x; rewrite HT0; field; lra).
    assert (m == 0) as Hm0 by (unfold m; rewrite Hnum; field; lra).
    rewrite (round_proper x 0 Hx0), round_0, Hm0. done. }
  assert (0 <= x) as Hx0 by (unfold x; apply Qle_shift_div_l; lra).
  assert (pow2 (-1022) <= x) as Hxmin.
  { unfold x. apply Qle_shift_div_l; [done|].
    assert (W <= pow2 211) as HW211.
    { assert (inject_Z (Z.of_nat (length l)) <= 1000) as HK.
      { change 1000 with (inject_Z 1000). rewrite <- Zle_Qle. lia. }
      pose proof (pow2_pos 200) as H200.
      pose proof (scale_le (pow2 200) _ _ ltac:(lra) HK).
      assert (pow2 211 == 2048 * pow2 200) as -> by reflexivity.
      lra. }
    pose proof (pow2_pos (-1022)) as Hmin.
    pose proof (scale_le (pow2 (-1022)) _ _ ltac:(lra) HW211) as Hs.
    assert (pow2 (-1022) * pow2 211 == pow2 (-811)) as Heq by reflexivity.
    assert (pow2 (-811) <= pow2 (-401)) by (by apply pow2_le).
    assert (pow2 (-401) == (1 # 2) * pow2 (-400)) as H401 by reflexivity.
    pose proof (pow2_pos (-400)). lra. }
  pose proof (round_factor x ltac:(by right)) as [HR1 HR2].
  set (R := round x) in *.
  assert (0 <= R) as HR0.
  { destruct lower_upper as (Hl0 & _). pose proof (Qmult_le_0_compat lower x). lra. }
  assert ((1 - (1 # 4000000000000)) * x <= R <= (1 + (1 # 4000000000000)) * x) as [HRa HRb].
  { unfold lower, upper, unit_roundoff in *. split; lra. }
  pose proof (scale_le W _ _ ltac:(lra) HRa) as HRWa.
  pose proof (scale_le W _ _ ltac:(lra) HRb) as HRWb.
  pose proof (scale_le R _ _ HR0 HWa) as HRVa.
  pose proof (scale_le R _ _ HR0 HWb) as HRVb.
  assert (0 <= m) as Hm0 by (unfold m; apply Qle_shift_div_l; lra).
  assert ((1 - (1 # 1000000000000)) * products l <= R * total l
          <= (1 + (1 # 1000000000000)) * products l) as [Hlo Hhi].
  { assert (W * x == T) as Hx' by (rewrite <- Hx; ring).
    split; lra. }
  assert (R * total l - m * total l <= (1 # 1000000000000) * m * total l) by lra.
  assert (- ((1 # 1000000000000) * m * total l) <= R * total l - m * total l) by lra.
  apply Qabs_Qle_condition. split.
  - apply (Qmult_le_r _ _ (total l) Hden). lra.
  - apply (Qmult_le_r _ _ (total l) Hden). lra.
Qed.


(** With weights that are not negative and scores between 0 and 1, the
    sum of the products is between 0 and the sum of the weights. *)
Lemma fold_unit (l : list (Q * Q)) :
  Forall (fun ws => 0 <= ws.1 ∧ 0 <= ws.2 <= 1) l →
  0 <= (foldl add_term (0, 0) l).1 <= (foldl add_term (0, 0) l).2.
Proof.
  induction l as [|[w s] l IH] using rev_ind; intros Hall.
  - cbn [foldl fst snd]. lra.
  - apply Forall_app in Hall as [Hl Hx]. apply Forall_inv in Hx as [Hw Hs].
    cbn [fst snd] in Hw, Hs. destruct (IH Hl) as [HT HW].
    rewrite foldl_app. cbn [foldl].
    set (acc := foldl add_term (0, 0) l) in *. unfold add_term. cbn [fst snd].
    set (T := acc.1) in *. set (W := acc.2) in *.
    pose proof (round_nonneg T HT) as HT0.
    pose proof (round_monotone T W HW) as HTW.
    pose proof (round_nonneg w Hw) as Hw0.
    pose proof (round_unit s Hs) as [Hs0 Hs1].
    assert (0 <= round w * round s <= round w) as [Hp0 Hp1].
    { split; [by apply Qmult_le_0_compat|].
      pose proof (scale_le (round w) (round s) 1 Hw0 Hs1). lra. }
    assert (0 <= round (mul w s) <= round w) as [Hm0 Hm1].
    { unfold mul. rewrite round_idempotent. split; [by apply round_nonneg|].
      apply (Qle_trans _ (round (round w))); [by apply round_monotone|].
      rewrite round_idempotent. lra. }
    unfold add. split; [apply round_nonneg; lra|apply round_monotone; lra].
Qed.

Lemma div_unit (t w : Q) : 0 <= t <= w → 0 <= div t w <= 1.
Proof.
  intros [Ht Hw]. unfold div. apply round_unit.
  pose proof (round_nonneg t Ht) as Ht0.
  pose proof (round_monotone t w Hw) as Htw.
  destruct (Qle_lt_or_eq 0 (round w) ltac:(lra)) as [Hpos|Hzero].
  - split; [apply Qle_shift_div_l|apply Qle_shift_div_r]; lra.
  - assert (round t / round w == 0) as ->; [|lra].
    rewrite <- Hzero. unfold Qdiv. change (/ 0) with 0. ring.
Qed.
End WeightedMeanError.

(** ** The running mean and the runs of the bandit *)

Section BanditFacts.
Import Bandit Run Examples.

Lemma dict_comprehension_lookup {V} (v : V) (ps : list string) (p : string) :
  dict_comprehension v ps !! p = if bool_decide (p ∈ ps) then Some v else None.
Proof.
  unfold dict_comprehension.
  assert (∀ d : gmap string V,
            foldl (fun d p => <[p:=v]> d) d ps !! p
            = if bool_decide (p ∈ ps) then Some v else d !! p) as Hgen.
  { induction ps as [|q ps IH]; intros d; cbn [foldl]; [done|].
    rewrite IH. destruct (decide (p ∈ ps)) as [Hin|Hnin].
    - rewrite !bool_decide_eq_true_2; [done|by apply elem_of_cons; right|done].
    - rewrite (bool_decide_eq_false_2 (p ∈ ps)) by done.
      destruct (decide (q = p)) as [->|Hne].
      + rewrite lookup_insert_eq, bool_decide_eq_true_2; [done|apply list_elem_of_here].
      + rewrite lookup_insert_ne, bool_decide_eq_false_2; [done| |done].
        intros [->|Hin]%elem_of_cons; [by apply Hne|by apply Hnin]. }
  rewrite Hgen. by destruct (bool_decide (p ∈ ps)).
Qed.

(** An update of a prompt that is known and has its count and its value. *)
Lemma update_known (p : string) (r : Q) (b : bandit) (c : Z) (v : Q) :
  p ∈ prompts b → counts b !! p = Some c → values b !! p = Some v →
  (c + 1)%Z ≠ 0%Z →
  ∃ h, update p r b =
    (mk_bandit (prompts b) (epsilon b)
       (<[p := next_value v r (c + 1)]> (values b))
       (<[p := (c + 1)%Z]> (counts b)) (total_selections b) h, Ok tt).
Proof.
  intros Hin Hc Hv Hn. unfold update. unfold_M.
  rewrite bool_decide_eq_true_2 by done. simpl.
  unfold getitem. rewrite Hc. simpl. rewrite lookup_insert_eq, Hv.
  unfold Float64.truediv. destruct (Z.eqb_spec (c + 1) 0) as [|_]; [done|]. simpl.
  rewrite lookup_insert_eq. simpl. eauto.
Qed.

Lemma update_unknown (q : string) (r : Q) (b : bandit) :
  q ∉ prompts b →
  update q r b = (b, Raise (ValueError ("Unknown prompt: " ++ q))).
Proof.
  intros Hq. unfold update. unfold_M. by rewrite bool_decide_eq_false_2.
Qed.

(** An update leaves the prompts, and the entries of the other prompts,
    as they are, also when it raises. *)
Lemma update_frame (p q : string) (r : Q) (b : bandit) :
  q ≠ p →
  prompts (update q r b).1 = prompts b
  ∧ values (update q r b).1 !! p = values b !! p
  ∧ counts (update q r b).1 !! p = counts b !! p.
Proof.
  intros Hne. unfold update. unfold_M.
  destruct (bool_decide (q ∈ prompts b)); simpl; [|done].
  unfold getitem. destruct (counts b !! q) as [c|]; simpl; [|done].
  rewrite lookup_insert_eq.
  destruct (values b !! q) as [v|]; simpl; [|by rewrite lookup_insert_ne].
  unfold Float64.truediv.
  destruct (c + 1 =? 0)%Z; simpl; [by rewrite lookup_insert_ne|].
  rewrite lookup_insert_eq. simpl. by rewrite !lookup_insert_ne.
Qed.

Lemma pick_frame (u : Q) (i : nat) (b : bandit) :
  prompts (pick u i b).1 = prompts b
  ∧ values (pick u i b).1 = values b
  ∧ counts (pick u i b).1 = counts b.
Proof.
  unfold pick. unfold_M. simpl.
  destruct (Qlt_le_dec u (epsilon b)); simpl.
  - destruct (choice (prompts b) i) as [p|]; simpl; [|done].
    destruct (getitem (values b) p); simpl; done.
  - destruct (max_by_value (values b) (prompts b)) as [p|]; simpl; [|done].
    destruct (getitem (values b) p); simpl; done.
Qed.

Lemma sum_snoc (rs : list Q) (r : Q) : sum (rs ++ [r]) == sum rs + r.
Proof.
  unfold sum. induction rs as [|x rs IH]; simpl; [ring|]. rewrite IH. ring.
Qed.

Lemma rewards_of_app (p : string) (cs1 cs2 : list call) :
  rewards_of p (cs1 ++ cs2) = rewards_of p cs1 ++ rewards_of p cs2.
Proof.
  induction cs1 as [|[u i|q r] cs1 IH]; cbn [rewards_of app]; [done|done|].
  case_bool_decide; [|done]. by rewrite IH.
Qed.

(** The count follows the number of rewards, whatever the rewards are. *)
Lemma step_counted (p : string) (ps : list string) (rs : list Q) (b : bandit)
    (c : call) :
  p ∈ ps → counted p ps rs b → counted p ps (rs ++ rewards_of p [c]) (step b c).
Proof.
  intros Hin (Hps & Hc & v & Hv). unfold counted.
  destruct c as [u i|q r]; cbn [step rewards_of].
  - rewrite app_nil_r. destruct (pick_frame u i b) as (-> & -> & ->). eauto.
  - case_bool_decide as Hq.
    + subst q.
      destruct (update_known p r b (Z.of_nat (length rs)) v) as [h ->];
        [by rewrite Hps|done|done|lia|].
      cbn [fst prompts counts values]. rewrite !lookup_insert_eq, length_app.
      cbn [length].
      replace (Z.of_nat (length rs + 1)) with (Z.of_nat (length rs) + 1)%Z by lia.
      eauto.
    + rewrite app_nil_r.
      destruct (update_frame p q r b Hq) as (-> & -> & ->). eauto.
Qed.

Lemma run_counted (p : string) (ps : list string) (cs : list call) :
  ∀ (rs : list Q) (b : bandit),
    p ∈ ps → counted p ps rs b → counted p ps (rs ++ rewards_of p cs) (run b cs).
Proof.
  induction cs as [|c cs IH]; intros rs b Hin Ht.
  - cbn [rewards_of]. by rewrite app_nil_r.
  - change (c :: cs) with ([c] ++ cs). rewrite rewards_of_app, app_assoc.
    apply (IH _ (step b c)); [done|]. by apply step_counted.
Qed.

Lemma init_counted (p : string) (ps : list string) (eps initial_value : Q) :
  p ∈ ps → counted p ps [] (init ps eps initial_value).
Proof.
  intros Hin. unfold counted, init; cbn [prompts counts values length].
  rewrite !dict_comprehension_lookup, !bool_decide_eq_true_2 by done. eauto.
Qed.

(** The value follows the mean of the rewards, as long as these are
    between 0 and 1 and fewer than [2^53]. *)
Lemma step_tracks (p : string) (ps : list string) (rs : list Q) (b : bandit)
    (c : call) :
  p ∈ ps → counted p ps rs b → tracks p rs b →
  Forall unit_interval (rewards_of p [c]) →
  (Z.of_nat (length (rs ++ rewards_of p [c])) <= 2 ^ 53)%Z →
  tracks p (rs ++ rewards_of p [c]) (step b c).
Proof.
  intros Hin (Hps & Hc & _) (v & Hv & Hunit & Hrep & Herr) Hr Hlen. unfold tracks.
  destruct c as [u i|q r]; cbn [step rewards_of] in *.
  - rewrite app_nil_r. destruct (pick_frame u i b) as (_ & -> & _). eauto.
  - case_bool_decide as Hq.
    + subst q. apply Forall_inv in Hr. unfold unit_interval in Hr.
      destruct (update_known p r b (Z.of_nat (length rs)) v) as [h ->];
        [by rewrite Hps|done|done|lia|].
      cbn [fst values]. rewrite lookup_insert_eq.
      rewrite length_app in *. cbn [length] in *.
      replace (Z.of_nat (length rs + 1)) with (Z.of_nat (length rs) + 1)%Z in * by lia.
      assert ((Z.of_nat (length rs) + 1)%Z = 1%Z ∨ Float64.round v == v) as Hrep'
        by (destruct Hrep as [->|Hrep]; [by left|by right]).
      set (n := Z.of_nat (length rs)) in *.
      assert (0 <= inject_Z n) as Hn0
        by (change 0 with (inject_Z 0); rewrite <- Zle_Qle; lia).
      eexists. split; [done|].
      split; [apply next_value_unit; [done|done|lia]|].
      split; [right; apply round_idempotent|].
      pose proof (next_value_error v r (n + 1) Hunit Hr ltac:(lia) Hrep')
        as [Hs1 Hs2]%Qabs_Qle_condition.
      apply Qabs_Qle_condition in Herr as [He1 He2].
      rewrite sum_snoc. apply Qabs_Qle_condition.
      replace (n + 1 - 1)%Z with n in * by lia.
      rewrite inject_Z_plus in *. change (inject_Z 1) with 1 in *.
      unfold Float64.half_ulp in *. split; lra.
    + rewrite app_nil_r.
      destruct (update_frame p q r b Hq) as (_ & -> & _). eauto.
Qed.

Lemma run_tracks (p : string) (ps : list string) (cs : list call) :
  ∀ (rs : list Q) (b : bandit),
    p ∈ ps → counted p ps rs b → tracks p rs b →
    Forall unit_interval (rewards_of p cs) →
    (Z.of_nat (length (rs ++ rewards_of p cs)) <= 2 ^ 53)%Z →
    tracks p (rs ++ rewards_of p cs) (run b cs).
Proof.
  induction cs as [|c cs IH]; intros rs b Hin Hc Ht Hr Hlen.
  - cbn [rewards_of]. by rewrite app_nil_r.
  - change (c :: cs) with ([c] ++ cs) in *.
    rewrite rewards_of_app in *. apply Forall_app in Hr as [Hr1 Hr2].
    rewrite app_assoc in *.
    apply (IH _ (step b c)); [done|by apply step_counted| |done|done].
    apply (step_tracks p ps); [done|done|done|done|].
    rewrite length_app in Hlen. lia.
Qed.

Lemma init_tracks (p : string) (ps : list string) (eps initial_value : Q) :
  p ∈ ps → 0 <= initial_value <= 1 → tracks p [] (init ps eps initial_value).
Proof.
  intros Hin Hiv. unfold tracks, init; cbn [values length].
  rewrite !dict_comprehension_lookup, !bool_decide_eq_true_2 by done.
  exists initial_value. split; [done|]. split; [done|]. split; [by left|].
  unfold sum; simpl. by rewrite !Qmult_0_l.
Qed.

(** C1. On a bandit made by the constructor and used through any sequence
    of [pick] and [update] calls, a prompt of the list that has received
    the rewards [r_1 .. r_n], [n >= 1], has the count [n], whatever the
    initial value and the rewards. When the initial value and the rewards
    are between 0 and 1 and [n] is at most [10^7], its value differs from
    the arithmetic mean of the rewards by at most [(n + 3) * 2^(-54)],
    which is less than 1e-9. *)
Theorem update_is_running_mean (ps : list string) (eps initial_value : Q)
    (p : string) (cs : list call) :
  p ∈ ps →
  rewards_of p cs ≠ [] →
  let b := run (init ps eps initial_value) cs in
  let n := length (rewards_of p cs) in
  counts b !! p = Some (Z.of_nat n)
  ∧ (0 <= initial_value <= 1 →
     Forall unit_interval (rewards_of p cs) →
     (Z.of_nat n <= 10000000)%Z →
     ∃ v, values b !! p = Some v
          ∧ Qabs (v - mean (rewards_of p cs))
            <= (inject_Z (Z.of_nat n) + 3) * Float64.half_ulp
          ∧ Qabs (v - mean (rewards_of p cs)) <= 1 # 1000000000).
Proof.
  intros Hin Hne b n.
  pose proof (run_counted p ps cs [] (init ps eps initial_value) Hin
                (init_counted p ps eps initial_value Hin)) as Hcounted.
  cbn [app] in Hcounted. split; [by destruct Hcounted as (_ & Hc & _)|].
  intros Hiv Hrs Hn.
  destruct (run_tracks p ps cs [] (init ps eps initial_value) Hin
              (init_counted p ps eps initial_value Hin)
              (init_tracks p ps eps initial_value Hin Hiv) Hrs)
    as (v & Hv & _ & _ & Herr).
  { cbn [app]. fold n. transitivity 10000000%Z; [done|]. by vm_compute. }
  cbn [app] in Hv, Herr. fold b in Hv. fold n in Herr.
  exists v. split; [done|].
  assert (1 <= inject_Z (Z.of_nat n) <= 10000000) as [HN1 HN2].
  { change 1 with (inject_Z 1). change 10000000 with (inject_Z 10000000).
    rewrite <- !Zle_Qle. unfold n in *.
    destruct (rewards_of p cs); [done|cbn [length] in *; lia]. }
  set (N := inject_Z (Z.of_nat n)) in *.
  assert (Qabs (v - mean (rewards_of p cs)) <= (N + 3) * Float64.half_ulp) as Hclose.
  { apply Qabs_Qle_condition in Herr as [He1 He2].
    assert (mean (rewards_of p cs) * N == sum (rewards_of p cs)) as Hmean
      by (unfold mean; fold n; fold N; field; lra).
    set (m := mean (rewards_of p cs)) in *.
    assert (N * (v - m) <= N * ((N + 3) * Float64.half_ulp)) as Hup by lra.
    assert (N * (- ((N + 3) * Float64.half_ulp)) <= N * (v - m)) as Hdown by lra.
    apply Qmult_le_l in Hup; [|lra]. apply Qmult_le_l in Hdown; [|lra].
    by apply Qabs_Qle_condition. }
  split; [done|].
  apply (Qle_trans _ _ _ Hclose). unfold Float64.half_ulp. lra.
Qed.

(** The updates [update(p, r_1)], ..., [update(p, r_n)] in a row are a run
    in which [p] receives exactly the rewards [r_1 .. r_n]. *)
Lemma rewards_of_updates (p : string) (rs : list Q) :
  rewards_of p (Update p <$> rs) = rs.
Proof.
  induction rs as [|r rs IH]; cbn [fmap list_fmap rewards_of]; [done|].
  rewrite bool_decide_eq_true_2 by done. f_equal. exact IH.
Qed.

(** C1 as stated, for any initial value, fails: after the one update
    [update("A", 0.7)] of a bandit whose initial value is [1e8], the value
    of A is [0.7000000029802322], which is further than 1e-9 from the
    mean 0.7 of the rewards. *)
Lemma running_mean_needs_bounded_initial_value :
  let cs := [Update "A" (7 # 10)] in
  let b := run (init ["A"] 0 100000000) cs in
  "A" ∈ ["A"]
  ∧ rewards_of "A" cs = [7 # 10]
  ∧ counts b !! "A" = Some 1%Z
  ∧ ∃ v, values b !! "A" = Some v
         ∧ v == 46976205 # 67108864
         ∧ ¬ Qabs (v - mean (rewards_of "A" cs)) <= 1 # 1000000000.
Proof.
  cbv zeta. split; [apply list_elem_of_here|]. split; [reflexivity|].
  split; [vm_compute; reflexivity|].
  eexists. split; [vm_compute; reflexivity|]. split; [reflexivity|].
  vm_compute. intros H. by apply H.
Qed.

Lemma scenario_rewards_unit :
  Forall unit_interval (rewards_of "A" scenario).
Proof.
  assert (rewards_of "A" scenario = [1; 0]) as -> by reflexivity.
  repeat apply Forall_cons_2; [..|apply Forall_nil_2]; unfold unit_interval; lra.
Qed.

Lemma update_is_running_mean_witness :
  "A" ∈ ["A"; "B"; "C"]
  ∧ rewards_of "A" scenario ≠ []
  ∧ 0 <= 1 # 2 <= 1
  ∧ Forall unit_interval (rewards_of "A" scenario)
  ∧ (Z.of_nat (length (rewards_of "A" scenario)) <= 10000000)%Z
  ∧ (let b := run (init ["A"; "B"; "C"] 0 (1 # 2)) scenario in
     counts b !! "A" = Some 2%Z
     ∧ ∃ v, values b !! "A" = Some v
            ∧ Qabs (v - mean (rewards_of "A" scenario)) <= 1 # 1000000000).
Proof.
  assert ("A" ∈ ["A"; "B"; "C"]) as Hin by apply list_elem_of_here.
  assert (rewards_of "A" scenario ≠ []) as Hne by (vm_compute; discriminate).
  assert (0 <= 1 # 2 <= 1) as Hiv by (split; lra).
  assert (Z.of_nat (length (rewards_of "A" scenario)) <= 10000000)%Z as Hn
    by (by vm_compute).
  split; [exact Hin|]. split; [exact Hne|]. split; [exact Hiv|].
  split; [exact scenario_rewards_unit|]. split; [exact Hn|].
  destruct (update_is_running_mean ["A"; "B"; "C"] 0 (1 # 2) "A" scenario Hin Hne)
    as [Hc Hclose].
  split; [exact Hc|].
  destruct (Hclose Hiv scenario_rewards_unit Hn) as (v & Hv & _ & Hv').
  exists v. split; [exact Hv|exact Hv'].
Defined.

(** C8. An update with a prompt that is not in the list raises the
    unknown-prompt error and leaves the whole state, so the values, the
    counts, the number of selections and the history, as it was. *)
Theorem update_unknown_prompt_raises (b : bandit) (q : string) (reward : Q) :
  q ∉ prompts b →
  (update q reward b).2 = Raise (ValueError ("Unknown prompt: " ++ q))
  ∧ (update q reward b).1 = b
  ∧ values (update q reward b).1 = values b
  ∧ counts (update q reward b).1 = counts b
  ∧ total_selections (update q reward b).1 = total_selections b
  ∧ history (update q reward b).1 = history b.
Proof. intros Hq. by rewrite update_unknown. Qed.

Lemma update_unknown_prompt_raises_witness :
  let b := run (init ["A"; "B"; "C"] 0 (1 # 2)) scenario in
  ("Z" ∉ prompts b)
  ∧ (update "Z" 1 b).2 = Raise (ValueError "Unknown prompt: Z")
  ∧ (update "Z" 1 b).1 = b.
Proof.
  intros b.
  assert ("Z" ∉ prompts b) as Hq.
  { apply (bool_decide_unpack _). vm_compute. exact I. }
  split; [exact Hq|].
  destruct (update_unknown_prompt_raises b "Z" 1 Hq) as (H1 & H2 & _).
  split; [exact H1|exact H2].
Defined.
End BanditFacts.

(** ** Persistence of the bandit *)

Section PersistenceFacts.
Import Bandit Run Examples.

Lemma as_list_str (ps : list string) : as_list as_str (JStr <$> ps) = Ok ps.
Proof. induction ps as [|p ps IH]; cbn; [done|]. cbn in IH. by rewrite IH. Qed.

(** Assigning the items of a dict to an empty dict gives the dict back. *)
Lemma assign_items {V} (l : list (string * V)) (acc : gmap string V) :
  foldl (fun d kv => <[kv.1 := kv.2]> d) acc l = list_to_map (rev l) ∪ acc.
Proof.
  revert acc. induction l as [|[k v] l IH]; intros acc; cbn [foldl rev].
  - change (list_to_map []) with (∅ : gmap string V).
    by rewrite (left_id_L ∅ (∪)).
  - rewrite IH, list_to_map_app, list_to_map_cons, list_to_map_nil.
    rewrite insert_empty, <- (assoc_L (∪)). by rewrite <- insert_union_singleton_l.
Qed.

Lemma assign_map_to_list {V} (m : gmap string V) :
  foldl (fun d kv => <[kv.1 := kv.2]> d) ∅ (map_to_list m) = m.
Proof.
  rewrite assign_items, (right_id_L ∅ (∪)).
  rewrite <- (list_to_map_to_list m) at 2.
  assert (rev (map_to_list m) ≡ₚ map_to_list m) as Hrev
    by (symmetry; apply Permutation_rev).
  apply list_to_map_proper; [|done].
  rewrite Hrev. apply NoDup_fst_map_to_list.
Qed.

Lemma as_dict_from_encoded {V} (enc : V → json) (dec : json → outcome V)
    (l : list (string * V)) (acc : gmap string V) :
  (∀ v, dec (enc v) = Ok v) →
  as_dict_from dec acc (prod_map id enc <$> l)
  = Ok (foldl (fun d kv => <[kv.1 := kv.2]> d) acc l).
Proof.
  intros Hdec. revert acc.
  induction l as [|[k v] l IH]; intros acc; cbn; [done|].
  rewrite Hdec. apply IH.
Qed.

Lemma as_float_dict (m : gmap string Q) :
  as_dict as_float (JObj (prod_map id JFloat <$> map_to_list m)) = Ok m.
Proof.
  unfold as_dict. rewrite (as_dict_from_encoded JFloat as_float) by done.
  by rewrite assign_map_to_list.
Qed.

Lemma as_int_dict (m : gmap string Z) :
  as_dict as_int (JObj (prod_map id JInt <$> map_to_list m)) = Ok m.
Proof.
  unfold as_dict. rewrite (as_dict_from_encoded JInt as_int) by done.
  by rewrite assign_map_to_list.
Qed.

(** C9. Saving any bandit state to a file and loading that file into a
    bandit, freshly constructed or not, succeeds and gives a bandit with
    the prompts, epsilon, values, counts and number of selections of the
    saved one; its history is the last 100 entries of the saved history. *)
Theorem save_then_load_restores (b b0 : bandit) (filepath : string)
    (fs : gmap string json) :
  let r := load_state filepath (save_state filepath b fs) b0 in
  r.2 = Ok tt
  ∧ prompts r.1 = prompts b
  ∧ epsilon r.1 = epsilon b
  ∧ values r.1 = values b
  ∧ counts r.1 = counts b
  ∧ total_selections r.1 = total_selections b
  ∧ history r.1 = last_entries 100 (history b).
Proof.
  unfold load_state, save_state. rewrite lookup_insert_eq.
  assert (json_get "prompts" (state_document b) = Ok (JArr (JStr <$> prompts b)))
    as Hp by reflexivity.
  assert (json_get "epsilon" (state_document b) = Ok (JFloat (epsilon b)))
    as He by reflexivity.
  assert (json_get "values" (state_document b)
          = Ok (JObj (prod_map id JFloat <$> map_to_list (values b))))
    as Hv by reflexivity.
  assert (json_get "counts" (state_document b)
          = Ok (JObj (prod_map id JInt <$> map_to_list (counts b))))
    as Hc by reflexivity.
  assert (json_get "total_selections" (state_document b)
          = Ok (JInt (total_selections b)))
    as Hn by reflexivity.
  assert (json_get_default "history" (JArr []) (state_document b)
          = JArr (last_entries 100 (history b)))
    as Hh by reflexivity.
  unfold_M. rewrite Hp, He, Hv, Hc, Hn, Hh.
  cbn [as_str_list as_float as_int as_history]. 
  rewrite as_list_str, as_float_dict, as_int_dict. cbn. done.
Qed.
End PersistenceFacts.

(** ** The statistics endpoint *)

Section StatsFacts.
Import Bandit Run Pipeline Examples.

Lemma init_keyed (ps : list string) (eps initial_value : Q) :
  keyed (init ps eps initial_value).
Proof.
  intros p Hp. unfold init; cbn [prompts values counts] in *.
  rewrite !dict_comprehension_lookup, !bool_decide_eq_true_2 by done. eauto.
Qed.

Lemma update_keeps_keys (p q : string) (r : Q) (b : bandit) :
  prompts (update q r b).1 = prompts b
  ∧ (is_Some (values b !! p) → is_Some (values (update q r b).1 !! p))
  ∧ (is_Some (counts b !! p) → is_Some (counts (update q r b).1 !! p)).
Proof.
  unfold update. unfold_M.
  destruct (bool_decide (q ∈ prompts b)); simpl; [|done].
  unfold getitem. destruct (counts b !! q) as [c|]; simpl; [|done].
  rewrite lookup_insert_eq.
  destruct (values b !! q) as [v|]; simpl.
  2: { rewrite lookup_insert_is_Some. 
       split; [done|]. split; [done|]. intros ?. destruct (decide (q = p)); eauto. }
  unfold Float64.truediv. destruct (c + 1 =? 0)%Z; simpl.
  { rewrite lookup_insert_is_Some. 
    split; [done|]. split; [done|]. intros ?. destruct (decide (q = p)); eauto. }
  rewrite lookup_insert_eq. simpl. rewrite !lookup_insert_is_Some.
  split; [done|]. split; intros ?; destruct (decide (q = p)); eauto.
Qed.

Lemma step_keyed (b : bandit) (c : call) : keyed b → keyed (step b c).
Proof.
  intros Hk p. destruct c as [u i|q r]; cbn [step].
  - destruct (pick_frame u i b) as (-> & -> & ->). apply Hk.
  - destruct (update_keeps_keys p q r b) as (-> & Hv & Hc).
    intros Hp. destruct (Hk p Hp). eauto.
Qed.

Lemma run_keyed (cs : list call) : ∀ b, keyed b → keyed (run b cs).
Proof.
  induction cs as [|c cs IH]; intros b Hk; [done|].
  apply (IH (step b c)). by apply step_keyed.
Qed.

Lemma stat_rows_keyed (b : bandit) (ps : list string) :
  (∀ p, p ∈ ps → is_Some (values b !! p) ∧ is_Some (counts b !! p)) →
  ∃ rows, stat_rows b ps = Ok rows.
Proof.
  induction ps as [|p ps IH]; intros Hk; cbn [stat_rows]; [eauto|].
  destruct (Hk p) as [[v Hv] [c Hc]]; [apply list_elem_of_here|].
  unfold getitem. rewrite Hv, Hc.
  destruct IH as [rows ->]; [|eauto].
  intros q Hq. apply Hk. by apply elem_of_cons; right.
Qed.

Lemma get_stats_keyed (b : bandit) : keyed b → ∃ st, get_stats b = Ok st.
Proof.
  intros Hk. unfold get_stats.
  destruct (stat_rows_keyed b (prompts b) Hk) as [rows ->]. eauto.
Qed.

(** C7, as the code has it. [GET /stats/{lang}] for a language code
    without a bandit fails with status 404, and for a language whose
    bandit was made by the constructor and used through [pick] and
    [update] it answers with the statistics of that bandit. *)
Theorem stats_unknown_language_is_404 (BANDITS : gmap string bandit)
    (lang_code : string) :
  (BANDITS !! lang_code = None →
   get_language_stats BANDITS lang_code
   = HTTPException 404 ("Language " ++ lang_code ++ " not initialized"))
  ∧ (∀ ps eps initial_value cs,
       BANDITS !! lang_code = Some (run (init ps eps initial_value) cs) →
       ∃ st, get_stats (run (init ps eps initial_value) cs) = Ok st
             ∧ get_language_stats BANDITS lang_code = Response st).
Proof.
  unfold get_language_stats. split.
  - by intros ->.
  - intros ps eps initial_value cs ->.
    destruct (get_stats_keyed (run (init ps eps initial_value) cs)) as [st Hst].
    { apply run_keyed, init_keyed. }
    rewrite Hst. eauto.
Qed.

(** C7 as stated fails: the status for an unknown language is not 400. *)
Lemma stats_unknown_language_is_not_400 :
  ¬ ∃ detail, get_language_stats started "fr" = HTTPException 400 detail.
Proof. intros [detail Hd]. vm_compute in Hd. discriminate Hd. Qed.

Lemma stats_unknown_language_is_404_witness :
  started !! "fr" = None
  ∧ get_language_stats started "fr"
    = HTTPException 404 "Language fr not initialized"
  ∧ started !! "haw"
    = Some (run (init ["P"; "Q"; "R"] default_epsilon default_initial_value) [])
  ∧ ∃ st, get_stats (run (init ["P"; "Q"; "R"] default_epsilon default_initial_value) [])
          = Ok st
          ∧ get_language_stats started "haw" = Response st.
Proof.
  assert (started !! "fr" = None) as Hfr by reflexivity.
  assert (started !! "haw"
          = Some (run (init ["P"; "Q"; "R"] default_epsilon default_initial_value) []))
    as Hhaw by reflexivity.
  split; [exact Hfr|].
  split; [exact (proj1 (stats_unknown_language_is_404 started "fr") Hfr)|].
  split; [exact Hhaw|].
  exact (proj2 (stats_unknown_language_is_404 started "haw") _ _ _ _ Hhaw).
Defined.
End StatsFacts.

(** ** The aggregator *)

Section AggregateFacts.
Import Scoring WeightedMean Weights Examples.

(** The loop of [aggregate_scores] is the accumulation over the pairs of
    weight and score of the records that have a weight. *)
Lemma accumulate_terms (weights : gmap string Q) (cs : list result) :
  ∀ acc : Q * Q,
    foldl (accumulate weights) acc cs = foldl add_term acc (terms weights cs).
Proof.
  unfold terms, present.
  induction cs as [|r cs IH]; intros acc; cbn [foldl]; [done|].
  rewrite IH, filter_cons. unfold accumulate.
  destruct (weights !! r_name r) as [w|] eqn:Hw.
  - rewrite decide_True by eauto. cbn [fmap list_fmap foldl].
    unfold add_term at 2, weight_of. by rewrite Hw.
  - by rewrite decide_False by (by intros [? ?]).
Qed.

Lemma sums_terms (weights : gmap string Q) (cs : list result) :
  weighted_sum weights cs = products (terms weights cs)
  ∧ total_weight weights cs = total (terms weights cs).
Proof.
  unfold weighted_sum, total_weight, products, total, terms.
  by rewrite <- !list_fmap_compose.
Qed.

Lemma terms_present (weights : gmap string Q) (cs : list result) (ws : Q * Q) :
  ws ∈ terms weights cs →
  ∃ r, r ∈ cs ∧ weights !! r_name r = Some ws.1 ∧ r_score r = ws.2.
Proof.
  unfold terms, present. intros (r & -> & Hr)%list_elem_of_fmap.
  apply list_elem_of_filter in Hr as [[w Hw] Hr]. exists r.
  unfold weight_of. rewrite Hw. done.
Qed.

Lemma terms_in_range (weights : gmap string Q) (cs : list result) :
  Weights.in_range weights cs →
  Forall (fun ws => Float64.in_range ws.1 ∧ Float64.in_range ws.2) (terms weights cs).
Proof.
  intros Hr. apply Forall_forall. intros ws (r & Hin & Hw & <-)%terms_present.
  by apply (Hr r).
Qed.



(** The aggregate is within one part in [10^12] of the weighted mean when
    some weight counts and no operation underflows. *)
Lemma aggregate_close (cs : list result) (weights : gmap string Q) :
  0 < total_weight weights cs →
  Weights.in_range weights cs →
  (length (present weights cs) <= 1000)%nat →
  Qabs (aggregate_scores cs weights - weighted_mean weights cs)
  <= (1 # 1000000000000) * weighted_mean weights cs.
Proof.
  intros Hpos Hr Hlen. unfold aggregate_scores, weighted_mean.
  destruct (sums_terms weights cs) as [-> Ht]. rewrite Ht in *.
  rewrite accumulate_terms.
  destruct (fold_close (terms weights cs)) as [Hw Hclose];
    [by apply terms_in_range|by unfold terms; rewrite length_fmap|done|].
  by destruct (Qlt_le_dec _ _) as [_|Hle]; [|lra].
Qed.


Lemma example_weights_nonneg : nonneg weights.
Proof.
  intros n w. unfold weights. rewrite !lookup_insert_Some, lookup_empty.
  intros [[_ <-]|[_ [[_ <-]|[_ [[_ <-]|[_ ?]]]]]]; [lra|lra|lra|done].
Qed.

Lemma example_weights_in_range : Weights.in_range weights scenario_scores.
Proof.
  assert (∀ x : Q, Qle_bool (Float64.pow2 (-200)) x && Qle_bool x (Float64.pow2 200)
                   = true → Float64.in_range x) as Hdec.
  { intros x [H1 H2]%andb_true_iff. right. by rewrite <- !Qle_bool_iff. }
  intros r w Hin. unfold scenario_scores in Hin.
  repeat (apply elem_of_cons in Hin as [->|Hin];
          [intros [= <-]; split; apply Hdec; by vm_compute|]).
  by apply elem_of_nil in Hin.
Qed.

End AggregateFacts.

(** ** The stable sort and the ranking of the candidates *)

Section SortFacts.
Context {A : Type} (key : A → Q).
Import Ranked.

Lemma insert_desc_perm (x : A) (l : list A) : insert_desc key x l ≡ₚ x :: l.
Proof.
  induction l as [|y l IH]; cbn [insert_desc]; [done|].
  destruct (Qle_bool (key y) (key x)); [done|].
  rewrite IH. apply perm_swap.
Qed.

Lemma sort_desc_perm (l : list A) : sort_desc key l ≡ₚ l.
Proof.
  induction l as [|x l IH]; cbn [sort_desc]; [done|].
  by rewrite insert_desc_perm, IH.
Qed.

Lemma insert_desc_descending (x : A) (l : list A) :
  descending key l → descending key (insert_desc key x l).
Proof.
  unfold descending.
  induction l as [|y l IH]; intros Hl; cbn [insert_desc].
  - repeat constructor.
  - destruct (Qle_bool (key y) (key x)) eqn:Hyx.
    + apply Qle_bool_iff in Hyx. inversion_clear Hl as [|? ? Hl' Hall].
      constructor; [by constructor|].
      constructor; [done|].
      eapply Forall_impl; [exact Hall|]. intros z Hz. cbn in Hz. lra.
    + assert (key x <= key y) as Hxy.
      { destruct (Qlt_le_dec (key x) (key y)) as [Hlt|Hle]; [lra|].
        apply Qle_bool_iff in Hle. congruence. }
      inversion_clear Hl as [|? ? Hl' Hall].
      constructor; [by apply IH|].
      rewrite insert_desc_perm. by constructor.
Qed.

Lemma sort_desc_descending (l : list A) : descending key (sort_desc key l).
Proof.
  induction l as [|x l IH]; cbn [sort_desc]; [constructor|].
  by apply insert_desc_descending.
Qed.

Lemma insert_desc_with_key (r : Q) (x : A) (l : list A) :
  with_key key r (insert_desc key x l) = with_key key r (x :: l).
Proof.
  unfold with_key.
  induction l as [|y l IH]; cbn [insert_desc]; [done|].
  destruct (Qle_bool (key y) (key x)) eqn:Hyx; [done|].
  rewrite filter_cons, IH, !filter_cons.
  destruct (decide (Qeq_bool (key x) r = true)) as [Hx|Hx]; [|done].
  destruct (decide (Qeq_bool (key y) r = true)) as [Hy|Hy]; [|done].
  apply Qeq_bool_iff in Hx, Hy.
  assert (Qle_bool (key y) (key x) = true) as Hle
    by (apply Qle_bool_iff; rewrite Hx, Hy; lra).
  congruence.
Qed.

Lemma sort_desc_with_key (r : Q) (l : list A) :
  with_key key r (sort_desc key l) = with_key key r l.
Proof.
  induction l as [|x l IH]; cbn [sort_desc]; [done|].
  rewrite insert_desc_with_key. unfold with_key in *.
  by rewrite !filter_cons, IH.
Qed.

Lemma sort_desc_stably_ranks (l : list A) : stably_ranks key l (sort_desc key l).
Proof.
  split; [apply sort_desc_perm|]. split; [apply sort_desc_descending|].
  intros r. apply sort_desc_with_key.
Qed.
End SortFacts.

Section RankingFacts.
Import Bandit Pipeline Ranked Loops Examples.

(** What [rank] returns: the ranked list is a permutation of the scored
    candidates, in descending order of [R], with candidates of equal [R]
    in the order they had, and the best candidate is its first element. *)
Lemma rank_returns (scored_candidates ranked : list scored_candidate)
    (best : scored_candidate) :
  rank scored_candidates = Ok (best, ranked) →
  stably_ranks sc_R scored_candidates ranked ∧ ranked !! 0%nat = Some best.
Proof.
  unfold rank. pose proof (sort_desc_stably_ranks sc_R scored_candidates) as Hranks.
  destruct (sort_desc sc_R scored_candidates) as [|best' rest]; [done|].
  by intros [= <- <-].
Qed.

(** What the gym returns for an example is what [rank] gives for the
    scored candidates of the prompt it picked. *)
Lemma process_example_returns_rank generate metrics weights k temperature
    u i example_id src ref (self self' : bandit) (res : gym_result) :
  process_example generate metrics weights k temperature u i example_id src ref self
  = (self', Ok res) →
  rank (score_candidates true metrics weights src
          (generate src k (g_prompt res) temperature))
  = Ok (g_best res, g_candidates res).
Proof.
  unfold process_example. unfold_M.
  destruct (pick u i self) as [s1 [prompt|e]]; [|done].
  destruct (rank _) as [[best ranked]|e] eqn:Hrank; [|done]. cbn [fst snd].
  destruct (update prompt (sc_R best) s1) as [s2 [[]|e]]; [|done].
  intros [= <- <-]. done.
Qed.

(** What the API returns for a segment is what [rank] gives for the scored
    candidates of the segment in the mode of the request. *)
Lemma translate_segment_returns_rank showcase_generate get_process_log generate
    translate metrics weights k_samples temperature prompt_template
    mode u i segment_id segment_src (self self' : bandit) (res : translation_result) :
  translate_segment showcase_generate get_process_log generate translate metrics
    weights k_samples temperature prompt_template mode u i segment_id segment_src self
  = (self', Ok res) →
  ∃ best,
    rank (score_candidates false metrics weights segment_src
            (segment_candidates showcase_generate generate translate k_samples
               temperature prompt_template mode (t_prompt res) segment_src))
    = Ok (best, t_candidates res)
    ∧ t_best res = sc_text best.
Proof.
  unfold translate_segment, segment_candidates. unfold_M.
  destruct (String.eqb mode "showcase") eqn:Hshow; cbn [negb].
  - destruct (rank _) as [[best ranked]|e] eqn:Hrank; [|done]. cbn [fst snd].
    intros [= <- <-]. eauto.
  - destruct (String.eqb mode "rlvr").
    + destruct (pick u i self) as [s1 [prompt|e]]; [|done].
      destruct (rank _) as [[best ranked]|e] eqn:Hrank; [|done]. cbn [fst snd].
      destruct (update prompt (sc_R best) s1) as [s2 [[]|e]]; [|done].
      intros [= <- <-]. eauto.
    + destruct (rank _) as [[best ranked]|e] eqn:Hrank; [|done]. cbn [fst snd].
      destruct (update prompt_template (sc_R best) self) as [s2 [[]|e]]; [|done].
      intros [= <- <-]. eauto.
Qed.
End RankingFacts.

(** ** The TAM particles metric *)

Section TamFacts.
Context `{Py.Lib}.
Import TAMParticles TamRule.

Lemma matching_found (self : patterns) (templates : list string) (text : string) :
  matching self templates text ≠ [] ↔ found_in self templates text.
Proof.
  unfold matching, found_in. split.
  - intros Hne. destruct (filter _ templates) as [|t ts] eqn:Hf; [done|].
    exists t.
    assert (t ∈ t :: ts) as Ht by apply list_elem_of_here.
    rewrite <- Hf in Ht. apply list_elem_of_filter in Ht. tauto.
  - intros (t & Hin & Hs) Hnil.
    assert (t ∈ filter (fun pattern_template =>
              Py.search (Py.replace pattern_template "VERB" (verb_pattern self))
                true text = true) templates) as Ht
      by (by apply list_elem_of_filter).
    rewrite Hnil in Ht. by apply elem_of_nil in Ht.
Qed.

(** The score of a text with the negation marker, by the templates found. *)
Lemma score_negative (self : patterns) (text : string) (src : option string) :
  Py.search (neg_marker self) true text = true →
  let v := matching self (neg_valid self) text in
  let i := matching self (default [] (neg_invalid self)) text in
  r_score (score self text src)
  = match v, i with
    | _ :: _, [] => 1
    | _, _ :: _ => 0
    | [], [] => 1 # 2
    end
  ∧ r_details (score self text src) = check_json (Negative v i).
Proof.
  intros Hneg v i. subst v i.
  unfold score, _check_negative_context. rewrite Hneg. cbn [negb has_negative].
  destruct (matching self (neg_valid self) text) as [|v vs];
    destruct (matching self (default [] (neg_invalid self)) text) as [|i0 ir];
    done.
Qed.

(** C4. On a text in which the negation marker is found, the score is 1.0
    exactly when some valid negative template is found and no invalid one,
    0.0 whenever an invalid template is found, and 0.5 when neither a
    valid nor an invalid template is found; when an invalid template is
    found the details have [has_negative] true and a non-empty
    [invalid_patterns] list, as for the text of the specification's
    hard-fail scenario. *)
Theorem tam_negation_scoring (self : patterns) (text : string) (src : option string) :
  Py.search (neg_marker self) true text = true →
  let r := score self text src in
  let valid_found := found_in self (neg_valid self) text in
  let invalid_found := found_in self (default [] (neg_invalid self)) text in
  (r_score r = 1 ↔ valid_found ∧ ¬ invalid_found)
  ∧ (invalid_found → r_score r = 0)
  ∧ (¬ valid_found ∧ ¬ invalid_found → r_score r = 1 # 2)
  ∧ (invalid_found →
     json_get "has_negative" (r_details r) = Ok (JBool true)
     ∧ ∃ t ts, json_get "invalid_patterns" (r_details r) = Ok (JArr (JStr t :: ts))).
Proof.
  intros Hneg r valid_found invalid_found.
  destruct (score_negative self text src Hneg) as [Hscore Hdetails].
  fold r in Hscore, Hdetails. rewrite Hscore, Hdetails.
  subst valid_found invalid_found. rewrite <- !matching_found.
  destruct (matching self (neg_valid self) text) as [|v vs];
    destruct (matching self (default [] (neg_invalid self)) text) as [|i0 ir].
  - split; [split; [discriminate|intros [Hv _]; by destruct Hv]|].
    split; [intros Hi; by destruct Hi|]. split; [done|intros Hi; by destruct Hi].
  - split; [split; [discriminate|intros [Hv _]; by destruct Hv]|].
    split; [done|]. split; [intros [_ Hi]; by destruct Hi|].
    intros _. split; [reflexivity|]. eexists _, _. reflexivity.
  - split; [split; [intros _; split; [done|intros Hi; by apply Hi]|done]|].
    split; [intros Hi; by destruct Hi|].
    split; [intros [Hv _]; by destruct Hv|intros Hi; by destruct Hi].
  - split; [split; [discriminate|intros [_ Hi]; by destruct Hi]|].
    split; [done|]. split; [intros [_ Hi]; by destruct Hi|].
    intros _. split; [reflexivity|]. eexists _, _. reflexivity.
Qed.

(** C10. On a text in which the negation marker is not found the score
    is exactly 1.0, whatever the affirmative templates find. *)
Theorem tam_without_negation_scores_one (self : patterns) (text : string)
    (src : option string) :
  Py.search (neg_marker self) true text = false →
  r_score (score self text src) = 1.
Proof.
  intros Hneg. unfold score, _check_negative_context. by rewrite Hneg.
Qed.
End TamFacts.

Lemma tam_negation_scoring_witness :
  let r := @TAMParticles.score PyRef.lib TamExample.table "ʻAʻole ua." None in
  @Py.search PyRef.lib (TAMParticles.neg_marker TamExample.table) true "ʻAʻole ua." = true
  ∧ r_score r = 0
  ∧ json_get "has_negative" (r_details r) = Ok (JBool true)
  ∧ ∃ t ts, json_get "invalid_patterns" (r_details r) = Ok (JArr (JStr t :: ts)).
Proof.
  intros r.
  assert (@Py.search PyRef.lib (TAMParticles.neg_marker TamExample.table) true
            "ʻAʻole ua." = true) as Hneg by reflexivity.
  assert (@TamRule.found_in PyRef.lib TamExample.table
            (default [] (TAMParticles.neg_invalid TamExample.table)) "ʻAʻole ua.")
    as Hinvalid.
  { exists "ʻAʻole ua". split; [apply list_elem_of_here|reflexivity]. }
  destruct (@tam_negation_scoring PyRef.lib TamExample.table "ʻAʻole ua." None Hneg)
    as (_ & Hzero & _ & Hdetails).
  split; [exact Hneg|]. split; [exact (Hzero Hinvalid)|]. exact (Hdetails Hinvalid).
Defined.

Lemma tam_without_negation_scores_one_witness :
  @Py.search PyRef.lib (TAMParticles.neg_marker TamExample.table) true "Ua hele ʻo ia." = false
  ∧ r_score (@TAMParticles.score PyRef.lib TamExample.table "Ua hele ʻo ia." None) = 1.
Proof.
  assert (@Py.search PyRef.lib (TAMParticles.neg_marker TamExample.table) true
            "Ua hele ʻo ia." = false) as Hneg by reflexivity.
  split; [exact Hneg|].
  exact (@tam_without_negation_scores_one PyRef.lib TamExample.table "Ua hele ʻo ia." None Hneg).
Defined.

(** ** The ke/ka articles metric *)

Section KeKaFacts.
Context `{Py.Lib}.
Import ArticlesKeKa KeaoRule.

Lemma should_use_ke_takes_ke (self : t) (next_word : string) :
  _should_use_ke self next_word = takes_ke keao_okina self next_word.
Proof.
  unfold _should_use_ke, takes_ke, keao_okina.
  by destruct (bool_decide (_ ∈ ke_exceptions self)).
Qed.

Lemma is_correct_agrees (self : t) (article next_word : string) :
  is_correct self article next_word = agrees keao_okina self article next_word.
Proof.
  unfold is_correct, agrees. rewrite should_use_ke_takes_ke.
  destruct (takes_ke keao_okina self next_word); cbn [andb negb orb].
  - by rewrite orb_false_r.
  - done.
Qed.

(** The pairs found are the adjacent words of which the first is an
    article. *)
Lemma pairs_from_spec (words : list string) :
  ∀ (i j : nat) (article next_word : string),
    (j, article, next_word) ∈ pairs_from i words
    ↔ ∃ n, j = (i + n)%nat ∧ words !! n = Some article
           ∧ words !! S n = Some next_word
           ∧ Py.lower article ∈ ["ke"; "ka"].
Proof.
  induction words as [|w words IH]; intros i j article next_word.
  - cbn [pairs_from]. split; [by intros ?%elem_of_nil|]. by intros (n & _ & ? & _).
  - destruct words as [|w' words'].
    + cbn [pairs_from]. split; [by intros ?%elem_of_nil|].
      intros (n & _ & _ & Hn & _). by destruct n.
    + change (pairs_from i (w :: w' :: words'))
        with ((if bool_decide (Py.lower w ∈ ["ke"; "ka"])
               then [(i, w, w')] else []) ++ pairs_from (S i) (w' :: words')).
      rewrite elem_of_app, IH. split.
      * intros [Hhead|(n & -> & Ha & Hn & Hl)].
        -- case_bool_decide as Hw; [|by apply elem_of_nil in Hhead].
           apply list_elem_of_singleton in Hhead. injection Hhead as -> -> ->.
           exists 0%nat. rewrite Nat.add_0_r. done.
        -- exists (S n). rewrite Nat.add_succ_r. done.
      * intros ([|n] & -> & Ha & Hn & Hl).
        -- left. cbn in Ha, Hn. injection Ha as ->. injection Hn as ->.
           rewrite bool_decide_eq_true_2 by done. rewrite Nat.add_0_r.
           apply list_elem_of_here.
        -- right. exists n. rewrite Nat.add_succ_r. done.
Qed.

Lemma correct_count_length (self : t) (pairs : list (nat * string * string)) :
  ∀ n : Z,
    foldl (fun n p => if is_correct self p.1.2 p.2 then (n + 1)%Z else n) n pairs
    = (n + Z.of_nat (length
         (filter (fun p => agrees keao_okina self p.1.2 p.2 = true) pairs)))%Z.
Proof.
  induction pairs as [|p pairs IH]; intros n; cbn [foldl].
  - cbn. lia.
  - rewrite IH, filter_cons, is_correct_agrees.
    destruct (agrees keao_okina self p.1.2 p.2).
    + rewrite decide_True by done. cbn [length]. lia.
    + rewrite decide_False by done. done.
Qed.

(** C5, as the code has it. The pairs checked are the adjacent words of
    which the first is [ke] or [ka]; a pair is counted correct exactly when
    the article is [ke] for a next word that is in the exception list or
    starts with one of k, e, a, o and the ʻokina, and [ka] for every other
    next word; the score is the number of correct pairs divided by the
    number of pairs, and 1.0 when there is no pair. *)
Theorem keka_pairs_follow_keao_okina (self : t) (text : string) (src : option string) :
  let words := Py.split text in
  let pairs := _find_article_pairs words in
  (∀ i article next_word,
     (i, article, next_word) ∈ pairs
     ↔ words !! i = Some article ∧ words !! S i = Some next_word
       ∧ Py.lower article ∈ ["ke"; "ka"])
  ∧ (∀ i article next_word,
       (i, article, next_word) ∈ pairs →
       (is_correct self article next_word = true
        ↔ if takes_ke keao_okina self next_word
          then Py.lower article = "ke" else Py.lower article = "ka"))
  ∧ r_score (score self text src) = ratio keao_okina self pairs.
Proof.
  intros words pairs. split; [|split].
  - intros i article next_word. unfold pairs, _find_article_pairs.
    rewrite pairs_from_spec. split.
    + intros (n & -> & ?). done.
    + intros ?. exists i. done.
  - intros i article next_word _. rewrite is_correct_agrees. unfold agrees.
    destruct (takes_ke keao_okina self next_word); apply String.eqb_eq.
  - unfold score. fold words. fold pairs. unfold ratio.
    destruct pairs as [|p pairs']; [done|]. cbn [r_score].
    unfold correct_count. by rewrite correct_count_length.
Qed.
End KeKaFacts.

(** C5 as stated fails on a word that starts with the ʻokina: the pair
    [ke ʻāina] is counted correct and the score is 1.0, where the rule with
    the letters k, e, a, o asks for [ka] and gives 0.0. *)
Lemma keka_okina_word_takes_ke :
  let pairs := @ArticlesKeKa._find_article_pairs PyRef.lib (Py.split "ke ʻāina") in
  pairs = [(0%nat, "ke", "ʻāina")]
  ∧ @ArticlesKeKa.is_correct PyRef.lib Examples.no_exceptions "ke" "ʻāina" = true
  ∧ @KeaoRule.agrees PyRef.lib KeaoRule.keao Examples.no_exceptions "ke" "ʻāina" = false
  ∧ r_score (@ArticlesKeKa.score PyRef.lib Examples.no_exceptions "ke ʻāina" None) == 1
  ∧ @KeaoRule.ratio PyRef.lib KeaoRule.keao Examples.no_exceptions pairs == 0.
Proof. vm_compute. repeat split; congruence. Qed.

Lemma keka_pairs_follow_keao_okina_witness :
  let words := Py.split Examples.articles_text in
  let pairs := @ArticlesKeKa._find_article_pairs PyRef.lib words in
  (2%nat, "ke", "keiki") ∈ pairs
  ∧ @ArticlesKeKa.is_correct PyRef.lib Examples.no_exceptions "ke" "keiki" = true
  ∧ r_score (@ArticlesKeKa.score PyRef.lib Examples.no_exceptions
               Examples.articles_text None)
    = @KeaoRule.ratio PyRef.lib KeaoRule.keao_okina Examples.no_exceptions pairs.
Proof.
  intros words pairs.
  destruct (@keka_pairs_follow_keao_okina PyRef.lib Examples.no_exceptions
              Examples.articles_text None) as (Hpairs & Hcorrect & Hscore).
  assert ((2%nat, "ke", "keiki") ∈ pairs) as Hin.
  { apply Hpairs. split; [reflexivity|]. split; [reflexivity|].
    apply list_elem_of_here. }
  split; [exact Hin|]. split; [|exact Hscore].
  apply (Hcorrect _ _ _ Hin). reflexivity.
Defined.
(** ** The range of the scores *)

Section BoundFacts.
Context `{Py.Lib}.

Lemma ratio_bounds (c n : Z) :
  (0 <= c <= n)%Z → (0 < n)%Z → unit_interval (inject_Z c / inject_Z n).
Proof.
  intros [Hc Hcn] Hn. unfold unit_interval.
  assert (0 < inject_Z n) as Hn' by (change 0 with (inject_Z 0); by apply Qlt_alt, Z.compare_lt_iff; cbn; lia).
  assert (0 <= inject_Z c) as Hc' by (change 0 with (inject_Z 0); by rewrite <- Zle_Qle).
  assert (inject_Z c <= inject_Z n) as Hcn' by (by rewrite <- Zle_Qle).
  split.
  - apply Qle_shift_div_l; [done|]. lra.
  - apply Qle_shift_div_r; [done|]. lra.
Qed.

Lemma penalty_bounds (errors : nat) (checks : Z) :
  unit_interval
    (fmax 0 (1 - inject_Z (Z.of_nat errors) / inject_Z (Z.max checks 1))).
Proof.
  unfold unit_interval, fmax.
  assert (0 < inject_Z (Z.max checks 1)) as Hd.
  { change 0 with (inject_Z 0). rewrite <- Zlt_Qlt. lia. }
  assert (0 <= inject_Z (Z.of_nat errors)) as He.
  { change 0 with (inject_Z 0). rewrite <- Zle_Qle. lia. }
  assert (0 <= inject_Z (Z.of_nat errors) / inject_Z (Z.max checks 1)) as Hq.
  { apply Qle_shift_div_l; [done|]. lra. }
  destruct (Qlt_le_dec 0 _) as [Hpos|_]; lra.
Qed.


Lemma diacritics_counts (self : Diacritics.t) (words : list string) :
  ∀ acc : list Diacritics.entry * Z,
    (0 <= acc.2 <= Z.of_nat (length acc.1))%Z →
    (0 <= (foldl (Diacritics.check_word self) acc words).2
     <= Z.of_nat (length (foldl (Diacritics.check_word self) acc words).1))%Z.
Proof.
  induction words as [|word words IH]; intros acc Hacc; cbn [foldl]; [done|].
  apply IH. unfold Diacritics.check_word.
  destruct (Diacritics.first_required self _) as [required|]; [|done].
  cbn [fst snd]. rewrite length_app. cbn [length].
  destruct (String.eqb _ required); lia.
Qed.

Lemma diacritics_bounds (self : Diacritics.t) (text : string) (src : option string) :
  unit_interval (r_score (Diacritics.score self text src)).
Proof.
  unfold Diacritics.score.
  pose proof (diacritics_counts self (Py.split text) ([], 0%Z)) as Hc.
  destruct (foldl (Diacritics.check_word self) ([], 0%Z) (Py.split text))
    as [words_to_check correct_count].
  cbn [fst snd length r_score] in *. specialize (Hc ltac:(lia)).
  destruct words_to_check as [|w ws]; [unfold unit_interval; lra|].
  apply ratio_bounds; [done|]. cbn [length]. lia.
Qed.

Lemma tam_bounds (self : TAMParticles.patterns) (text : string) (src : option string) :
  unit_interval (r_score (TAMParticles.score self text src)).
Proof.
  unfold TAMParticles.score, unit_interval.
  destruct (TAMParticles.has_negative _).
  - destruct (TAMParticles.valid _); cbn [r_score]; [lra|].
    destruct (TAMParticles.invalid_patterns _); lra.
  - destruct (TAMParticles.valid _); cbn [r_score]; lra.
Qed.

Lemma keka_bounds (self : ArticlesKeKa.t) (text : string) (src : option string) :
  unit_interval (r_score (ArticlesKeKa.score self text src)).
Proof.
  unfold ArticlesKeKa.score.
  destruct (ArticlesKeKa._find_article_pairs (Py.split text)) as [|p pairs] eqn:Hp;
    cbn [r_score]; [unfold unit_interval; lra|].
  unfold ArticlesKeKa.correct_count. rewrite correct_count_length.
  apply ratio_bounds; [|cbn [length]; lia].
  pose proof (length_filter
    (fun p => KeaoRule.agrees KeaoRule.keao_okina self p.1.2 p.2 = true) (p :: pairs)).
  lia.
Qed.

Lemma a_an_bounds (self : ArticlesAAn.t) (text : string) (src : option string) :
  unit_interval (r_score (ArticlesAAn.score self text src)).
Proof.
  unfold ArticlesAAn.score.
  destruct (foldl _ _ _) as [checks errors]. cbn [r_score]. apply penalty_bounds.
Qed.

Lemma subject_verb_bounds (text : string) (src : option string) :
  unit_interval (r_score (SubjectVerbAgreement.score text src)).
Proof.
  unfold SubjectVerbAgreement.score.
  destruct (foldl _ _ _) as [checks errors]. cbn [r_score]. apply penalty_bounds.
Qed.

Lemma spelling_bounds (self : SpellingChecker.t) (text : string) (src : option string) :
  unit_interval (r_score (SpellingChecker.score self text src)).
Proof.
  unfold SpellingChecker.score.
  destruct (foldl _ _ _) as [words_checked errors]. cbn [r_score].
  apply penalty_bounds.
Qed.

Lemma punctuation_bounds (text : string) (src : option string) :
  unit_interval (r_score (PunctuationChecker.score text src)).
Proof. unfold PunctuationChecker.score. cbn [r_score]. apply penalty_bounds. Qed.

(** C6. The score of every metric, on every text and source, is between
    0 and 1. *)
Theorem metric_scores_in_unit_interval
    (diacritics : Diacritics.t) (tam : TAMParticles.patterns)
    (ke_ka : ArticlesKeKa.t) (a_an : ArticlesAAn.t) (spelling : SpellingChecker.t)
    (text : string) (src : option string) :
  0 <= r_score (Diacritics.score diacritics text src) <= 1
  ∧ 0 <= r_score (TAMParticles.score tam text src) <= 1
  ∧ 0 <= r_score (ArticlesKeKa.score ke_ka text src) <= 1
  ∧ 0 <= r_score (ArticlesAAn.score a_an text src) <= 1
  ∧ 0 <= r_score (SubjectVerbAgreement.score text src) <= 1
  ∧ 0 <= r_score (SpellingChecker.score spelling text src) <= 1
  ∧ 0 <= r_score (PunctuationChecker.score text src) <= 1.
Proof.
  repeat split;
    first [ apply diacritics_bounds | apply tam_bounds | apply keka_bounds
          | apply a_an_bounds | apply subject_verb_bounds | apply spelling_bounds
          | apply punctuation_bounds ].
Qed.
End BoundFacts.


(** ** The scenarios of the specification, run on the model *)

Section Scenarios.
Import Bandit Run Scoring Examples.

(** Three prompts at 0.5 and no exploration: after [update("A", 1.0)] and
    [update("A", 0.0)] the value of A is 0.5 and its count 2, and [pick]
    returns A, the first of the prompts with the largest value. *)
Example bandit_scenario :
  let b := run (init ["A"; "B"; "C"] 0 (1 # 2)) [Update "A" 1; Update "A" 0] in
  (∃ v, values b !! "A" = Some v ∧ v == 1 # 2)
  ∧ counts b !! "A" = Some 2%Z
  ∧ (pick (1 # 3) 0 b).2 = Ok "A".
Proof.
  cbv zeta. split; [|split]; [|reflexivity|reflexivity].
  eexists. split; [vm_compute; reflexivity|reflexivity].
Qed.

(** Scores 1.0, 0.5 and 1.0 under the weights 0.4, 0.4 and 0.2 give the
    float 0.8. *)
Example aggregator_scenario :
  aggregate_scores scenario_scores weights == Float64.round (8 # 10).
Proof. by vm_compute. Qed.

(** The roundings of binary64, where they show. From the value 0.5 the
    reward 0.1 leads to [0.09999999999999998]; scores that all equal 0.9
    aggregate to [0.9000000000000001]; the scores of the scenario under
    seven times its weights aggregate to [0.7999999999999999]. *)
Example rounding_scenarios :
  next_value (1 # 2) (1 # 10) 1 == 900719925474099 # 9007199254740992
  ∧ aggregate_scores
      [mk_result "diacritics" "1.0" (9 # 10) JNull;
       mk_result "tam_particles" "1.0" (9 # 10) JNull;
       mk_result "articles_ke_ka" "1.0" (9 # 10) JNull] weights
    == 4053239664633447 # 4503599627370496
  ∧ aggregate_scores scenario_scores (Qmult 7 <$> weights)
    == 7205759403792793 # 9007199254740992.
Proof. repeat split; by vm_compute. Qed.

(** The two diacritics scenarios. *)
Example diacritics_scenarios :
  r_score (@Diacritics.score PyRef.lib lexicon "Ua pau ka hōʻike." None) == 1
  ∧ r_score (@Diacritics.score PyRef.lib lexicon "Ua pau ka hoike." None) == 0.
Proof. split; reflexivity. Qed.

(** The ranking of the example candidates: the two candidates with reward
    1.0 come first, and candidates with the same reward are in the order of
    generation. *)
Example ranking_scenario :
  (fun r => match r with
            | Ok (best, ranked) => Some (Pipeline.sc_id best, Pipeline.sc_id <$> ranked)
            | Raise _ => None
            end)
    (Pipeline.rank
       (Pipeline.score_candidates true metrics weights "It is not raining." candidates))
  = Some ("c1", ["c1"; "c3"; "c0"; "c2"]).
Proof. vm_compute. reflexivity. Qed.
End Scenarios.

(** ** More on the bandit *)

Section MoreBanditFacts.
Import Bandit Run RunFacts.

(** The state that a [pick] leaves: one more selection, whether it returns
    or raises, and nothing else changed but the history. *)
Lemma pick_state (u : Q) (i : nat) (b : bandit) :
  ∃ h, (pick u i b).1
       = mk_bandit (prompts b) (epsilon b) (values b) (counts b)
           (total_selections b + 1) h.
Proof.
  unfold pick. unfold_M. simpl.
  destruct (Qlt_le_dec u (epsilon b)); simpl.
  - destruct (choice (prompts b) i) as [p|]; simpl; [|eauto].
    destruct (getitem (values b) p); simpl; eauto.
  - destruct (max_by_value (values b) (prompts b)) as [p|]; simpl; [|eauto].
    destruct (getitem (values b) p); simpl; eauto.
Qed.

(** X1. [pick] counts the selection before it chooses: the number of
    selections grows by one also when the call raises (an empty prompt list,
    a prompt without value), and prompts, epsilon, values and counts are
    never changed. *)
Theorem pick_counts_selection_first (u : Q) (i : nat) (b : bandit) :
  total_selections (pick u i b).1 = (total_selections b + 1)%Z
  ∧ prompts (pick u i b).1 = prompts b
  ∧ epsilon (pick u i b).1 = epsilon b
  ∧ values (pick u i b).1 = values b
  ∧ counts (pick u i b).1 = counts b
  ∧ (prompts b = [] → ∃ e, (pick u i b).2 = Raise e ∧ history (pick u i b).1 = history b).
Proof.
  assert (prompts b = [] →
          ∃ e, (pick u i b).2 = Raise e ∧ history (pick u i b).1 = history b) as Hempty.
  { intros Hnil. unfold pick. unfold_M.
    cbn [fst snd total_selections epsilon prompts values].
    rewrite Hnil. unfold choice, max_by_value. rewrite lookup_nil.
    destruct (Qlt_le_dec u (epsilon b)); cbn; eauto. }
  destruct (pick_state u i b) as [h Hh]. rewrite Hh in *. cbn.
  repeat (split; [done|]). exact Hempty.
Qed.

Lemma max_from_first_max (vals : gmap string Q) (ps : list string) :
  ∀ (pre : list string) (best : string) (bk : Q) (n0 : nat),
    pre !! n0 = Some best →
    vals !! best = Some bk →
    (∀ m q w, pre !! m = Some q → vals !! q = Some w →
              w <= bk ∧ ((m < n0)%nat → w < bk)) →
    (∀ q, q ∈ ps → is_Some (vals !! q)) →
    ∃ p v n,
      max_from vals best bk ps = Ok p
      ∧ vals !! p = Some v
      ∧ (pre ++ ps) !! n = Some p
      ∧ ∀ m q w, (pre ++ ps) !! m = Some q → vals !! q = Some w →
                 w <= v ∧ ((m < n)%nat → w < v).
Proof.
  induction ps as [|q ps IH]; intros pre best bk n0 Hbest Hbk Hpre Hkeys.
  - exists best, bk, n0. rewrite app_nil_r. cbn [max_from]. done.
  - destruct (Hkeys q) as [k Hk]; [apply list_elem_of_here|].
    cbn [max_from]. unfold getitem. rewrite Hk.
    assert (∀ q', q' ∈ ps → is_Some (vals !! q')) as Hkeys'
      by (intros q' Hq'; apply Hkeys; by apply elem_of_cons; right).
    replace (pre ++ q :: ps) with ((pre ++ [q]) ++ ps)
      by (by rewrite <- app_assoc).
    destruct (Qlt_le_dec bk k) as [Hlt|Hle].
    + apply (IH (pre ++ [q]) q k (length pre)); [|done| |done].
      * rewrite lookup_app_r by lia. by rewrite Nat.sub_diag.
      * intros m q' w Hm Hw.
        destruct (decide (m < length pre)%nat) as [Hin|Hout].
        -- rewrite lookup_app_l in Hm by done.
           destruct (Hpre m q' w Hm Hw) as [Hw' _]. split; [lra|intros _; lra].
        -- rewrite lookup_app_r in Hm by lia.
           destruct (m - length pre)%nat eqn:Hd; [|by destruct n].
           cbn in Hm. injection Hm as <-. rewrite Hk in Hw. injection Hw as <-.
           split; [lra|lia].
    + apply (IH (pre ++ [q]) best bk n0); [|done| |done].
      * rewrite lookup_app_l; [done|]. by apply lookup_lt_Some in Hbest.
      * intros m q' w Hm Hw.
        destruct (decide (m < length pre)%nat) as [Hin|Hout].
        -- rewrite lookup_app_l in Hm by done. by apply (Hpre m q' w).
        -- rewrite lookup_app_r in Hm by lia.
           destruct (m - length pre)%nat eqn:Hd; [|by destruct n].
           cbn in Hm. injection Hm as <-. rewrite Hk in Hw. injection Hw as <-.
           split; [done|]. apply lookup_lt_Some in Hbest. lia.
Qed.

Lemma max_by_value_first_max (vals : gmap string Q) (ps : list string) :
  ps ≠ [] →
  (∀ q, q ∈ ps → is_Some (vals !! q)) →
  ∃ p v n,
    max_by_value vals ps = Ok p
    ∧ vals !! p = Some v
    ∧ ps !! n = Some p
    ∧ ∀ m q w, ps !! m = Some q → vals !! q = Some w →
               w <= v ∧ ((m < n)%nat → w < v).
Proof.
  intros Hne Hkeys. destruct ps as [|p0 ps]; [done|].
  destruct (Hkeys p0) as [k Hk]; [apply list_elem_of_here|].
  cbn [max_by_value]. unfold getitem. rewrite Hk.
  apply (max_from_first_max vals ps [p0] p0 k 0%nat); [done|done| |].
  - intros m q w Hm Hw. destruct m; [|done].
    cbn in Hm. injection Hm as <-. rewrite Hk in Hw. injection Hw as <-.
    split; [lra|lia].
  - intros q Hq. apply Hkeys. by apply elem_of_cons; right.
Qed.

Lemma choice_listed (ps : list string) (i : nat) :
  ps ≠ [] → ∃ p, choice ps i = Ok p ∧ p ∈ ps.
Proof.
  intros Hne. unfold choice.
  assert (i `mod` length ps < length ps)%nat as Hlt.
  { apply Nat.mod_upper_bound. by destruct ps. }
  apply lookup_lt_is_Some in Hlt as [p Hp]. rewrite Hp.
  exists p. split; [done|]. by apply list_elem_of_lookup_2 in Hp.
Qed.

Lemma pick_returns_listed (u : Q) (i : nat) (b : bandit) :
  keyed b →
  prompts b ≠ [] →
  ∃ p v,
    p ∈ prompts b
    ∧ values b !! p = Some v
    ∧ pick u i b
      = (mk_bandit (prompts b) (epsilon b) (values b) (counts b)
           (total_selections b + 1)
           (history b
            ++ [pick_entry (total_selections b + 1) p
                  (if Qlt_le_dec u (epsilon b) then "explore" else "exploit") v]),
         Ok p).
Proof.
  intros Hk Hne. unfold pick. unfold_M.
  cbn [fst snd total_selections epsilon prompts values].
  destruct (Qlt_le_dec u (epsilon b)) as [Hlt|Hle].
  - destruct (choice_listed (prompts b) i Hne) as (p & -> & Hin).
    destruct (Hk p Hin) as [[v Hv] _]. exists p, v.
    cbn. unfold getitem. rewrite Hv. done.
  - destruct (max_by_value_first_max (values b) (prompts b) Hne)
      as (p & v & n & -> & Hv & Hn & _).
    { intros q Hq. by destruct (Hk q Hq). }
    exists p, v. cbn. unfold getitem. rewrite Hv.
    split; [by apply list_elem_of_lookup_2 in Hn|done].
Qed.

(** X2. On a bandit with a non-empty prompt list in which every prompt has
    its value and count, [pick] returns, the prompt it returns is one of the
    list, and it appends one history entry with the new number of
    selections, the prompt, the kind of choice and the prompt's value. *)
Theorem pick_returns_listed_prompt (u : Q) (i : nat) (b : bandit) :
  keyed b →
  prompts b ≠ [] →
  ∃ p v,
    p ∈ prompts b
    ∧ values b !! p = Some v
    ∧ pick u i b
      = (mk_bandit (prompts b) (epsilon b) (values b) (counts b)
           (total_selections b + 1)
           (history b
            ++ [pick_entry (total_selections b + 1) p
                  (if Qlt_le_dec u (epsilon b) then "explore" else "exploit") v]),
         Ok p).
Proof. apply pick_returns_listed. Qed.

(** X3. When the draw is not below epsilon, [pick] returns the prompt with
    the largest value, and among prompts of that value the one that comes
    first in the list. *)
Theorem pick_exploits_first_maximum (u : Q) (i : nat) (b : bandit) :
  keyed b →
  prompts b ≠ [] →
  epsilon b <= u →
  ∃ p v n,
    (pick u i b).2 = Ok p
    ∧ values b !! p = Some v
    ∧ prompts b !! n = Some p
    ∧ ∀ m q w, prompts b !! m = Some q → values b !! q = Some w →
               w <= v ∧ ((m < n)%nat → w < v).
Proof.
  intros Hk Hne Hu.
  destruct (max_by_value_first_max (values b) (prompts b) Hne)
    as (p & v & n & Hmax & Hv & Hn & Hall).
  { intros q Hq. by destruct (Hk q Hq). }
  exists p, v, n. split; [|done].
  unfold pick. unfold_M. cbn [fst snd total_selections epsilon prompts values].
  destruct (Qlt_le_dec u (epsilon b)) as [Hlt|_]; [lra|].
  rewrite Hmax. cbn. unfold getitem. by rewrite Hv.
Qed.

(** What an update does to the values and the counts, in every case. *)
Lemma update_cases (q : string) (r : Q) (b : bandit) :
  (values (update q r b).1 = values b ∧ counts (update q r b).1 = counts b)
  ∨ (∃ c, counts b !! q = Some c
          ∧ counts (update q r b).1 = <[q := (c + 1)%Z]> (counts b)
          ∧ (values (update q r b).1 = values b
             ∨ ∃ v, values b !! q = Some v
                    ∧ values (update q r b).1
                      = <[q := next_value v r (c + 1)]> (values b))).
Proof.
  unfold update. unfold_M.
  destruct (bool_decide (q ∈ prompts b)); simpl; [|by left].
  unfold getitem. destruct (counts b !! q) as [c|] eqn:Hc; simpl; [|by left].
  right. exists c. split; [done|]. rewrite lookup_insert_eq.
  destruct (values b !! q) as [v|] eqn:Hv; simpl; [|by eauto].
  unfold Float64.truediv. destruct (c + 1 =? 0)%Z; simpl; [by eauto|].
  rewrite lookup_insert_eq. simpl. split; [done|]. right. exists v. done.
Qed.

Lemma step_counts_nonneg (b : bandit) (c : call) :
  counts_nonneg b → counts_nonneg (step b c).
Proof.
  intros Hc. destruct c as [u i|q r]; cbn [step].
  - unfold counts_nonneg. by destruct (pick_frame u i b) as (_ & _ & ->).
  - destruct (update_cases q r b) as [[_ Hcs]|(c & Hq & Hcs & _)];
      unfold counts_nonneg; rewrite Hcs; [done|].
    intros p c' [[_ <-]|[_ Hp]]%lookup_insert_Some; [|by apply (Hc p)].
    specialize (Hc q c Hq). lia.
Qed.

Lemma step_values_within (b : bandit) (c : call) :
  counts_nonneg b → values_within 0 1 b →
  (∀ q r, c = Update q r → 0 <= r <= 1) →
  values_within 0 1 (step b c).
Proof.
  intros Hc Hv Hr. destruct c as [u i|q r]; cbn [step].
  - unfold values_within. by destruct (pick_frame u i b) as (_ & -> & _).
  - destruct (update_cases q r b)
      as [[Hvs _]|(c & Hq & _ & [Hvs|(v & Hvq & Hvs)])];
      unfold values_within; rewrite Hvs; [done|done|].
    intros p w [[_ <-]|[_ Hp]]%lookup_insert_Some; [|by apply (Hv p)].
    apply next_value_unit; [by apply (Hv q)|by apply (Hr q)|].
    specialize (Hc q c Hq). lia.
Qed.

Lemma run_values_within (cs : list call) :
  ∀ b : bandit,
    counts_nonneg b → values_within 0 1 b → rewards_within 0 1 cs →
    values_within 0 1 (run b cs).
Proof.
  induction cs as [|c cs IH]; intros b Hc Hv Hr; [done|].
  apply (IH (step b c)).
  - by apply step_counts_nonneg.
  - apply step_values_within; [done|done|].
    intros q r ->. apply (Hr q r), list_elem_of_here.
  - intros q r Hin. apply (Hr q r). by apply elem_of_cons; right.
Qed.

(** X4. Value estimates stay between 0 and 1: on a bandit without negative
    counts whose values lie between 0 and 1, any sequence of [pick] and
    [update] calls whose rewards lie between 0 and 1 leaves every value
    between 0 and 1, the roundings of the update included. Between other
    bounds the roundings can take a value out: from the value 0.5 the
    reward 0.1 leads to [0.09999999999999998]. *)
Theorem values_stay_within_reward_bounds (cs : list call) :
  (∀ b : bandit,
     counts_nonneg b →
     values_within 0 1 b →
     rewards_within 0 1 cs →
     values_within 0 1 (run b cs))
  ∧ (let b := run (init ["A"] 0 (1 # 2)) [Update "A" (1 # 10)] in
     ∃ v, values b !! "A" = Some v ∧ v < Float64.round (1 # 10)).
Proof.
  split; [intros b; apply run_values_within|].
  cbv zeta. eexists. split; [vm_compute; reflexivity|]. by vm_compute.
Qed.

Lemma init_counts_nonneg (ps : list string) (eps initial_value : Q) :
  counts_nonneg (init ps eps initial_value).
Proof.
  intros p c. unfold init; cbn [counts]. rewrite dict_comprehension_lookup.
  case_bool_decide; [|done]. by intros [= <-].
Qed.

Lemma init_values_within (lo hi : Q) (ps : list string) (eps initial_value : Q) :
  lo <= initial_value <= hi → values_within lo hi (init ps eps initial_value).
Proof.
  intros Hiv p v. unfold init; cbn [values]. rewrite dict_comprehension_lookup.
  case_bool_decide; [|done]. by intros [= <-].
Qed.

(** An update of a listed prompt of a sound bandit returns; it appends one
    history entry, with the new count and the new value. *)
Lemma update_sound (p : string) (r : Q) (b : bandit) :
  sound b → p ∈ prompts b →
  ∃ c v,
    counts b !! p = Some c ∧ values b !! p = Some v
    ∧ update p r b
      = (mk_bandit (prompts b) (epsilon b)
           (<[p := next_value v r (c + 1)]> (values b))
           (<[p := (c + 1)%Z]> (counts b)) (total_selections b)
           (history b
            ++ [update_entry (total_selections b) p r
                  (next_value v r (c + 1)) (c + 1)]),
         Ok tt).
Proof.
  intros [Hk Hc] Hin. destruct (Hk p Hin) as [[v Hv] [c Hcp]].
  exists c, v. split; [done|]. split; [done|].
  specialize (Hc p c Hcp).
  unfold update. unfold_M. rewrite bool_decide_eq_true_2 by done. simpl.
  unfold getitem. rewrite Hcp. simpl. rewrite lookup_insert_eq, Hv.
  unfold Float64.truediv. destruct (Z.eqb_spec (c + 1) 0) as [|_]; [lia|]. simpl.
  rewrite lookup_insert_eq. reflexivity.
Qed.

Lemma step_sound (b : bandit) (c : call) : sound b → sound (step b c).
Proof.
  intros [Hk Hc]. split; [by apply step_keyed|by apply step_counts_nonneg].
Qed.

Lemma step_prompts (b : bandit) (c : call) : prompts (step b c) = prompts b.
Proof.
  destruct c as [u i|q r]; cbn [step].
  - by destruct (pick_frame u i b) as (-> & _).
  - by destruct (update_keeps_keys q q r b) as (-> & _).
Qed.

Lemma step_log (b : bandit) (c : call) :
  sound b → prompts b ≠ [] →
  total_selections (step b c)
  = (total_selections b + Z.of_nat (picks [c]))%Z
  ∧ length (history (step b c))
    = (length (history b) + picks [c] + known_updates (prompts b) [c])%nat.
Proof.
  intros Hs Hne. destruct c as [u i|q r]; cbn [step].
  - destruct (pick_returns_listed u i b (proj1 Hs) Hne) as (p & v & _ & _ & ->).
    cbn. rewrite length_app. cbn. split; lia.
  - unfold picks, known_updates. cbn [List.filter is_pick is_update_of].
    destruct (decide (q ∈ prompts b)) as [Hin|Hnin].
    + destruct (update_sound q r b Hs Hin) as (c & v & _ & _ & ->).
      rewrite bool_decide_eq_true_2 by done. cbn. rewrite length_app. cbn.
      split; lia.
    + rewrite update_unknown by done.
      rewrite bool_decide_eq_false_2 by done. cbn. split; lia.
Qed.

(** X5. Every call that returns is logged once. On a bandit with a
    non-empty prompt list, an entry for every prompt and no negative count,
    a sequence of calls leaves the number of selections raised by the number
    of its picks and the history longer by the number of its picks and of
    its updates of a listed prompt; an update of an unlisted prompt leaves
    no trace. *)
Theorem run_logs_every_call (cs : list call) :
  ∀ b : bandit,
    sound b →
    prompts b ≠ [] →
    total_selections (run b cs) = (total_selections b + Z.of_nat (picks cs))%Z
    ∧ length (history (run b cs))
      = (length (history b) + picks cs + known_updates (prompts b) cs)%nat.
Proof.
  induction cs as [|c cs IH]; intros b Hs Hne.
  - cbn. split; lia.
  - destruct (step_log b c Hs Hne) as [Ht Hh].
    destruct (IH (step b c)) as [Ht' Hh'];
      [by apply step_sound|by rewrite step_prompts|].
    change (run b (c :: cs)) with (run (step b c) cs).
    rewrite Ht', Hh', Ht, Hh, step_prompts.
    assert (picks (c :: cs) = (picks [c] + picks cs)%nat) as ->.
    { unfold picks. change (c :: cs) with ([c] ++ cs).
      by rewrite List.filter_app, length_app. }
    assert (known_updates (prompts b) (c :: cs)
            = (known_updates (prompts b) [c] + known_updates (prompts b) cs)%nat)
      as ->.
    { unfold known_updates. change (c :: cs) with ([c] ++ cs).
      by rewrite List.filter_app, length_app. }
    split; lia.
Qed.

Lemma init_sound (ps : list string) (eps initial_value : Q) :
  sound (init ps eps initial_value).
Proof. split; [apply init_keyed|apply init_counts_nonneg]. Qed.
End MoreBanditFacts.

(** ** More on the statistics *)

Section MoreStatsFacts.
Import Bandit Run RunFacts Ranked.

Lemma stat_rows_spec (b : bandit) (ps : list string) :
  ∀ rows, stat_rows b ps = Ok rows →
    ps_prompt <$> rows = ps
    ∧ Forall (fun row =>
                values b !! ps_prompt row = Some (ps_value row)
                ∧ counts b !! ps_prompt row = Some (ps_count row)
                ∧ ps_selection_rate row
                  = inject_Z (ps_count row)
                    / inject_Z (Z.max 1 (total_selections b))) rows.
Proof.
  induction ps as [|p ps IH]; intros rows; cbn [stat_rows].
  - by intros [= <-].
  - unfold getitem.
    destruct (values b !! p) as [v|] eqn:Hv; [|done].
    destruct (counts b !! p) as [c|] eqn:Hc; [|done].
    destruct (stat_rows b ps) as [rows'|e]; [|done].
    intros [= <-]. destruct (IH rows' eq_refl) as [Hps Hall].
    cbn. rewrite Hps. split; [done|]. by constructor.
Qed.

(** X6. The statistics of a bandit in which every prompt has its value and
    its count: one row per prompt, each with the prompt's value, its count
    and its count divided by the number of selections (by 1 when there was
    none), ordered by value, larger first, rows of equal value in the order
    of the prompt list. *)
Theorem get_stats_ranks_prompts (b : bandit) :
  keyed b →
  ∃ st rows,
    get_stats b = Ok st
    ∧ st_total_selections st = total_selections b
    ∧ st_epsilon st = epsilon b
    ∧ ps_prompt <$> rows = prompts b
    ∧ stably_ranks ps_value rows (st_prompts st)
    ∧ Forall (row_of b) (st_prompts st).
Proof.
  intros Hk. unfold get_stats.
  destruct (stat_rows_keyed b (prompts b) Hk) as [rows Hrows]. rewrite Hrows.
  destruct (stat_rows_spec b (prompts b) rows Hrows) as [Hps Hall].
  eexists _, rows. split; [done|]. cbn [st_total_selections st_epsilon st_prompts].
  split; [done|]. split; [done|]. split; [done|].
  split; [apply sort_desc_stably_ranks|].
  rewrite sort_desc_perm.
  rewrite Forall_forall in Hall. apply Forall_forall. intros row Hrow.
  destruct (Hall row Hrow) as (Hv & Hc & Hr). split; [|done].
  rewrite <- Hps. apply list_elem_of_fmap. eauto.
Qed.

Lemma stat_rows_missing (b : bandit) (ps : list string) (p : string) :
  p ∈ ps → values b !! p = None ∨ counts b !! p = None →
  ∃ q, q ∈ ps ∧ stat_rows b ps = Raise (KeyError q).
Proof.
  induction ps as [|p0 ps IH]; intros Hin Hmiss; [by apply elem_of_nil in Hin|].
  cbn [stat_rows]. unfold getitem.
  destruct (values b !! p0) as [v|] eqn:Hv;
    [|exists p0; split; [apply list_elem_of_here|done]].
  destruct (counts b !! p0) as [c|] eqn:Hc;
    [|exists p0; split; [apply list_elem_of_here|done]].
  apply elem_of_cons in Hin as [->|Hin]; [destruct Hmiss; congruence|].
  destruct (IH Hin Hmiss) as (q & Hq & ->).
  exists q. split; [by apply elem_of_cons; right|done].
Qed.

(** X7. The statistics of a bandit in which a listed prompt lacks its value
    or its count (a state that [load_state] can leave) are not returned:
    [get_stats] raises [KeyError] for a listed prompt. *)
Theorem get_stats_missing_entry_raises (b : bandit) (p : string) :
  p ∈ prompts b →
  values b !! p = None ∨ counts b !! p = None →
  ∃ q, q ∈ prompts b ∧ get_stats b = Raise (KeyError q).
Proof.
  intros Hin Hmiss. unfold get_stats.
  destruct (stat_rows_missing b (prompts b) p Hin Hmiss) as (q & Hq & ->).
  eauto.
Qed.
End MoreStatsFacts.

(** ** More on persistence *)

Section MorePersistenceFacts.
Import Bandit Run RunFacts.

Lemma load_saved (b b0 : bandit) (filepath : string) (fs : gmap string json) :
  load_state filepath (save_state filepath b fs) b0
  = (mk_bandit (prompts b) (epsilon b) (values b) (counts b)
       (total_selections b) (last_entries 100 (history b)), Ok tt).
Proof.
  unfold load_state, save_state. rewrite lookup_insert_eq.
  assert (json_get "prompts" (state_document b) = Ok (JArr (JStr <$> prompts b)))
    as Hp by reflexivity.
  assert (json_get "epsilon" (state_document b) = Ok (JFloat (epsilon b)))
    as He by reflexivity.
  assert (json_get "values" (state_document b)
          = Ok (JObj (prod_map id JFloat <$> map_to_list (values b))))
    as Hv by reflexivity.
  assert (json_get "counts" (state_document b)
          = Ok (JObj (prod_map id JInt <$> map_to_list (counts b))))
    as Hc by reflexivity.
  assert (json_get "total_selections" (state_document b)
          = Ok (JInt (total_selections b)))
    as Hn by reflexivity.
  assert (json_get_default "history" (JArr []) (state_document b)
          = JArr (last_entries 100 (history b)))
    as Hh by reflexivity.
  unfold_M. rewrite Hp, He, Hv, Hc, Hn, Hh.
  cbn [as_str_list as_float as_int as_history].
  rewrite as_list_str, as_float_dict, as_int_dict. cbn. done.
Qed.

Lemma last_entries_length (n : nat) (h : list json) :
  (length (last_entries n h) <= n)%nat.
Proof. unfold last_entries. rewrite length_drop. lia. Qed.

Lemma last_entries_short (n : nat) (h : list json) :
  (length h <= n)%nat → last_entries n h = h.
Proof.
  intros Hle. unfold last_entries.
  by replace (length h - n)%nat with 0%nat by lia.
Qed.

(** X8. A state that was saved and loaded is saved again as the same
    document: the loaded history is a suffix of the saved one, has at most
    100 entries, and writing the loaded state to a file gives the file that
    was read. *)
Theorem saved_state_is_stable (b b0 : bandit) (filepath : string)
    (fs fs' : gmap string json) :
  let b' := (load_state filepath (save_state filepath b fs) b0).1 in
  history b' `suffix_of` history b
  ∧ (length (history b') <= 100)%nat
  ∧ state_document b' = state_document b
  ∧ save_state filepath b' fs' = save_state filepath b fs'.
Proof.
  rewrite load_saved. cbn [fst history].
  assert (state_document
            (mk_bandit (prompts b) (epsilon b) (values b) (counts b)
               (total_selections b) (last_entries 100 (history b)))
          = state_document b) as Hdoc.
  { unfold state_document. cbn [prompts epsilon values counts total_selections history].
    by rewrite (last_entries_short 100 (last_entries 100 (history b)))
      by apply last_entries_length. }
  split; [apply suffix_drop|]. split; [apply last_entries_length|].
  split; [done|]. unfold save_state. by rewrite Hdoc.
Qed.

(** X9. Loading is not atomic. A missing file raises and leaves the bandit
    as it was; a document that has its prompts and its epsilon but no values
    raises [KeyError] after the prompts and epsilon of the bandit have been
    overwritten, the values, counts, number of selections and history being
    the old ones. *)
Theorem load_state_is_not_atomic (b0 : bandit) (filepath : string)
    (fs : gmap string json) :
  (fs !! filepath = None →
   load_state filepath fs b0 = (b0, Raise (FileNotFoundError filepath)))
  ∧ (∀ state ps eps,
       fs !! filepath = Some state →
       json_get "prompts" state = Ok (JArr (JStr <$> ps)) →
       json_get "epsilon" state = Ok (JFloat eps) →
       json_get "values" state = Raise (KeyError "values") →
       load_state filepath fs b0
       = (mk_bandit ps eps (values b0) (counts b0) (total_selections b0)
            (history b0),
          Raise (KeyError "values"))).
Proof.
  unfold load_state. split.
  - by intros ->.
  - intros state ps eps -> Hp He Hv. unfold_M. rewrite Hp, He, Hv.
    cbn [as_str_list as_float]. rewrite as_list_str. reflexivity.
Qed.

(** X10. A state file without a history is loaded with an empty history,
    whatever the history of the bandit was. *)
Theorem load_state_history_defaults_to_empty (b b0 : bandit) (filepath : string)
    (fs : gmap string json) :
  load_state filepath (<[filepath := document_without_history b]> fs) b0
  = (mk_bandit (prompts b) (epsilon b) (values b) (counts b)
       (total_selections b) [], Ok tt).
Proof.
  unfold load_state. rewrite lookup_insert_eq.
  assert (json_get "prompts" (document_without_history b)
          = Ok (JArr (JStr <$> prompts b))) as Hp by reflexivity.
  assert (json_get "epsilon" (document_without_history b)
          = Ok (JFloat (epsilon b))) as He by reflexivity.
  assert (json_get "values" (document_without_history b)
          = Ok (JObj (prod_map id JFloat <$> map_to_list (values b))))
    as Hv by reflexivity.
  assert (json_get "counts" (document_without_history b)
          = Ok (JObj (prod_map id JInt <$> map_to_list (counts b))))
    as Hc by reflexivity.
  assert (json_get "total_selections" (document_without_history b)
          = Ok (JInt (total_selections b)))
    as Hn by reflexivity.
  assert (json_get_default "history" (JArr []) (document_without_history b)
          = JArr []) as Hh by reflexivity.
  unfold_M. rewrite Hp, He, Hv, Hc, Hn, Hh.
  cbn [as_str_list as_float as_int as_history].
  rewrite as_list_str, as_float_dict, as_int_dict. cbn. done.
Qed.
End MorePersistenceFacts.

(** ** More on the aggregator *)

Section MoreAggregateFacts.
Import Scoring WeightedMean Weights Breakdown.

Lemma sum_perm (l l' : list Q) : l ≡ₚ l' → foldr Qplus 0 l == foldr Qplus 0 l'.
Proof.
  induction 1 as [|x l l' _ IH|x y l|l l' l'' _ IH1 _ IH2]; cbn [foldr].
  - reflexivity.
  - by rewrite IH.
  - ring.
  - by rewrite IH1.
Qed.

Lemma sums_of_present (weights : gmap string Q) (cs cs' : list result) :
  present weights cs ≡ₚ present weights cs' →
  weighted_sum weights cs == weighted_sum weights cs'
  ∧ total_weight weights cs == total_weight weights cs'.
Proof.
  intros Hp. unfold weighted_sum, total_weight.
  split; apply sum_perm; by rewrite Hp.
Qed.

Lemma present_elem (weights : gmap string Q) (cs : list result) (r : result) :
  r ∈ present weights cs ↔ r ∈ cs ∧ is_Some (weights !! r_name r).
Proof. unfold present. rewrite list_elem_of_filter. tauto. Qed.

Lemma in_range_present (weights : gmap string Q) (cs cs' : list result) :
  present weights cs ≡ₚ present weights cs' →
  Weights.in_range weights cs → Weights.in_range weights cs'.
Proof.
  intros Hp Hr r w Hin Hw. apply (Hr r w); [|done].
  assert (r ∈ present weights cs) as Hr'.
  { rewrite Hp. apply present_elem. eauto. }
  by apply present_elem in Hr' as [? _].
Qed.

(** Two numbers within one part in [10^12] of the same [m] are within two
    parts of each other. *)
Lemma close_to_same (x y m : Q) :
  Qabs (x - m) <= (1 # 1000000000000) * m →
  Qabs (y - m) <= (1 # 1000000000000) * m →
  Qabs (x - y) <= (2 # 1000000000000) * m.
Proof.
  intros [Hx1 Hx2]%Qabs_Qle_condition [Hy1 Hy2]%Qabs_Qle_condition.
  apply Qabs_Qle_condition. split; lra.
Qed.

(** X11. The aggregate depends only on the score records that have a
    weight: two lists with the same weighted records, in the same order,
    aggregate to the same float, so records of metrics without a weight
    change nothing. The order of the weighted records matters to the
    roundings only: for up to a thousand weighted records whose weights and
    scores are zero or between [2^(-200)] and [2^200], two lists whose
    weighted records are the same up to order aggregate to numbers that
    differ by at most two parts in [10^12] of the weighted mean. *)
Theorem aggregate_ignores_order_and_unweighted (cs cs' : list result)
    (weights : gmap string Q) :
  (present weights cs = present weights cs' →
   aggregate_scores cs weights = aggregate_scores cs' weights)
  ∧ (present weights cs ≡ₚ present weights cs' →
     0 < total_weight weights cs →
     Weights.in_range weights cs →
     (length (present weights cs) <= 1000)%nat →
     Qabs (aggregate_scores cs weights - aggregate_scores cs' weights)
     <= (2 # 1000000000000) * weighted_mean weights cs).
Proof.
  split.
  - intros Hp. unfold aggregate_scores. rewrite !accumulate_terms.
    unfold terms. by rewrite Hp.
  - intros Hp Hpos Hr Hlen.
    destruct (sums_of_present weights cs cs' Hp) as [Hs Ht].
    apply close_to_same; [by apply aggregate_close|].
    assert (weighted_mean weights cs == weighted_mean weights cs') as ->
      by (unfold weighted_mean; by rewrite Hs, Ht).
    apply aggregate_close.
    + by rewrite <- Ht.
    + by apply (in_range_present weights cs).
    + by rewrite <- Hp.
Qed.

Lemma weighted_sum_bounds (lo hi : Q) (weights : gmap string Q) (cs : list result) :
  (∀ r w, r ∈ cs → weights !! r_name r = Some w → 0 <= w) →
  scores_within lo hi weights cs →
  lo * total_weight weights cs <= weighted_sum weights cs
  ∧ weighted_sum weights cs <= hi * total_weight weights cs.
Proof.
  unfold weighted_sum, total_weight, present.
  induction cs as [|r cs IH]; intros Hw Hs; [cbn; lra|].
  destruct IH as [IH1 IH2].
  { intros r' w Hr'. apply Hw. by apply elem_of_cons; right. }
  { intros r' Hr'. apply Hs. by apply elem_of_cons; right. }
  rewrite filter_cons.
  destruct (decide (is_Some (weights !! r_name r))) as [[w Hr]|Hr]; [|done].
  cbn [fmap list_fmap foldr].
  assert (weight_of weights r = w) as -> by (unfold weight_of; by rewrite Hr).
  specialize (Hw r w (list_elem_of_here _ _) Hr).
  destruct (Hs r) as [Hlo Hhi]; [apply list_elem_of_here|eauto|].
  assert (0 <= w * (r_score r - lo)) by (apply Qmult_le_0_compat; lra).
  assert (0 <= w * (hi - r_score r)) by (apply Qmult_le_0_compat; lra).
  split; lra.
Qed.

Lemma in_range_nonneg (weights : gmap string Q) (cs : list result) :
  Weights.in_range weights cs →
  ∀ r w, r ∈ cs → weights !! r_name r = Some w → 0 <= w.
Proof.
  intros Hr r w Hin Hw. destruct (Hr r w Hin Hw) as [[Hz|[Hlo _]] _]; [lra|].
  pose proof (pow2_pos (-200)). lra.
Qed.

(** The aggregate of scores between 0 and 1 under weights that are not
    negative is between 0 and 1. *)
Lemma aggregate_unit (cs : list result) (weights : gmap string Q) :
  nonneg weights → scores_within 0 1 weights cs →
  0 <= aggregate_scores cs weights <= 1.
Proof.
  intros Hw Hs. unfold aggregate_scores. rewrite accumulate_terms.
  destruct (fold_unit (terms weights cs)) as [HT HW].
  { apply Forall_forall. intros ws (r & Hin & Hws & <-)%terms_present.
    split; [by apply (Hw _ _ Hws)|]. apply Hs; [done|eauto]. }
  destruct (Qlt_le_dec _ _) as [_|_]; [by apply div_unit|lra].
Qed.

(** X12. With weights that are not negative and scores between 0 and 1,
    the aggregate is between 0 and 1, the roundings included. Between
    other bounds [lo] and [hi] of the weighted scores the roundings can
    take it out by a little (scores that all equal 0.9 can aggregate to
    0.9000000000000001): for up to a thousand weighted scores whose weights
    and values are zero or between [2^(-200)] and [2^200], the aggregate is
    between [lo] and [hi] up to one part in [10^12]. *)
Theorem aggregate_within_score_bounds (cs : list result)
    (weights : gmap string Q) :
  (nonneg weights → scores_within 0 1 weights cs →
   0 <= aggregate_scores cs weights <= 1)
  ∧ (∀ lo hi,
       0 <= lo →
       scores_within lo hi weights cs →
       0 < total_weight weights cs →
       Weights.in_range weights cs →
       (length (present weights cs) <= 1000)%nat →
       lo * (1 - (1 # 1000000000000)) <= aggregate_scores cs weights
       <= hi * (1 + (1 # 1000000000000))).
Proof.
  split; [apply aggregate_unit|].
  intros lo hi Hlo Hs Hpos Hr Hlen.
  destruct (weighted_sum_bounds lo hi weights cs (in_range_nonneg weights cs Hr) Hs)
    as [H1 H2].
  pose proof (aggregate_close cs weights Hpos Hr Hlen)
    as [Hc1 Hc2]%Qabs_Qle_condition.
  assert (lo <= weighted_mean weights cs <= hi) as [Hm1 Hm2].
  { unfold weighted_mean.
    split; [apply Qle_shift_div_l|apply Qle_shift_div_r]; done. }
  split; lra.
Qed.

Lemma present_scaled (k : Q) (weights : gmap string Q) (cs : list result) :
  present (Qmult k <$> weights) cs = present weights cs.
Proof.
  unfold present. apply list_filter_iff. intros r.
  rewrite lookup_fmap. by rewrite fmap_is_Some.
Qed.

Lemma weight_of_scaled (k : Q) (weights : gmap string Q) (r : result) :
  is_Some (weights !! r_name r) →
  weight_of (Qmult k <$> weights) r = k * weight_of weights r.
Proof.
  intros [w Hw]. unfold weight_of. by rewrite lookup_fmap, Hw.
Qed.

Lemma sums_scaled (k : Q) (weights : gmap string Q) (cs : list result) :
  weighted_sum (Qmult k <$> weights) cs == k * weighted_sum weights cs
  ∧ total_weight (Qmult k <$> weights) cs == k * total_weight weights cs.
Proof.
  unfold weighted_sum, total_weight. rewrite present_scaled.
  assert (Forall (fun r => is_Some (weights !! r_name r)) (present weights cs))
    as Hall.
  { apply Forall_forall. intros r Hr. unfold present in Hr.
    by apply list_elem_of_filter in Hr as [Hr _]. }
  induction Hall as [|r l Hr _ [IH1 IH2]]; cbn [fmap list_fmap foldr].
  - split; ring.
  - cbn [fmap list_fmap] in IH1, IH2.
    rewrite IH1, IH2, (weight_of_scaled k weights r Hr). split; ring.
Qed.

(** X13. Only the proportions of the weights count, up to the roundings:
    multiplying every weight by the same positive number changes the
    aggregate by at most two parts in [10^12] of the weighted mean, for up
    to a thousand weighted scores when the weights, before and after, and
    the scores are zero or between [2^(-200)] and [2^200]. (The floats
    differ in general: the scores 1.0, 0.5 and 1.0 under the weights 0.4,
    0.4 and 0.2 give 0.8, and 0.7999999999999999 under seven times these
    weights.) *)
Theorem aggregate_scale_invariant (k : Q) (cs : list result)
    (weights : gmap string Q) :
  0 < k →
  0 < total_weight weights cs →
  Weights.in_range weights cs →
  Weights.in_range (Qmult k <$> weights) cs →
  (length (present weights cs) <= 1000)%nat →
  Qabs (aggregate_scores cs (Qmult k <$> weights) - aggregate_scores cs weights)
  <= (2 # 1000000000000) * weighted_mean weights cs.
Proof.
  intros Hk Hpos Hr Hr' Hlen. destruct (sums_scaled k weights cs) as [Hs Ht].
  assert (0 < k * total_weight weights cs) as Hpos'
    by (by apply Qmult_lt_0_compat).
  apply close_to_same; [|by apply aggregate_close].
  assert (weighted_mean weights cs == weighted_mean (Qmult k <$> weights) cs) as ->.
  { unfold weighted_mean. rewrite Hs, Ht. field. split; lra. }
  apply aggregate_close; [by rewrite Ht|done|by rewrite present_scaled].
Qed.

Lemma weighted_entries_lookup (weights : gmap string Q) (cs : list result)
    (n : string) :
  foldl (weighted_entry weights) ∅ cs !! n
  = match last (filter (fun r => r_name r = n) cs), weights !! n with
    | Some r, Some w => Some (r_score r * w)
    | _, _ => None
    end.
Proof.
  induction cs as [|r cs IH] using rev_ind.
  - cbn. by rewrite lookup_empty.
  - rewrite foldl_app, filter_app. cbn [foldl]. unfold weighted_entry at 1.
    rewrite filter_cons, filter_nil.
    destruct (decide (r_name r = n)) as [Hn|Hn].
    + rewrite last_snoc. subst n.
      destruct (weights !! r_name r) as [w|] eqn:Hw.
      * rewrite bool_decide_eq_true_2 by eauto. by rewrite lookup_insert_eq.
      * rewrite bool_decide_eq_false_2 by (by intros [? ?]).
        rewrite IH. by destruct (last _).
    + rewrite app_nil_r. case_bool_decide; [|done].
      by rewrite lookup_insert_ne.
Qed.

(** X14. The weighted scores of a breakdown have an entry for exactly the
    names that have both a score record and a weight; the entry is the
    score times the weight, and of several records with one name the last
    counts. The other three fields are the arguments. *)
Theorem breakdown_weighted_scores (cs : list result) (weights : gmap string Q)
    (total_score : Q) (n : string) :
  let breakdown := create_reward_breakdown cs weights total_score in
  rb_weighted_scores breakdown !! n
  = match last (filter (fun r => r_name r = n) cs), weights !! n with
    | Some r, Some w => Some (r_score r * w)
    | _, _ => None
    end
  ∧ (is_Some (rb_weighted_scores breakdown !! n)
     ↔ (∃ r, r ∈ cs ∧ r_name r = n) ∧ is_Some (weights !! n))
  ∧ rb_total breakdown = total_score
  ∧ rb_components breakdown = cs
  ∧ rb_weights breakdown = weights.
Proof.
  cbv zeta. cbn [create_reward_breakdown rb_weighted_scores rb_total
                 rb_components rb_weights].
  rewrite weighted_entries_lookup. split; [done|]. split; [|done].
  destruct (last (filter (fun r => r_name r = n) cs)) as [r|] eqn:Hlast.
  - apply last_Some in Hlast as [l' Hl'].
    assert (r ∈ filter (fun r => r_name r = n) cs) as Hr
      by (rewrite Hl'; apply elem_of_app; right; apply list_elem_of_here).
    apply list_elem_of_filter in Hr as [Hn Hr].
    destruct (weights !! n) as [w|]; split.
    + intros _. split; eauto.
    + eauto.
    + by intros [? ?].
    + by intros [_ [? ?]].
  - apply last_None in Hlast. split; [by intros [? ?]|].
    intros [(r & Hr & Hn) _].
    assert (r ∈ filter (fun r => r_name r = n) cs) as Hin
      by (by apply list_elem_of_filter).
    rewrite Hlast in Hin. by apply elem_of_nil in Hin.
Qed.
End MoreAggregateFacts.

(** ** The reward of a candidate *)

Section RewardFacts.
Context `{Py.Lib}.
Import Bandit Run RunFacts Scoring WeightedMean Weights Pipeline.

Lemma score_one_bounded (text : string) (src : option string) (m : metric) :
  bounded m → unit_interval (r_score (score_one text src m)).
Proof.
  intros Hm. unfold score_one.
  destruct (m_score m text src) as [res|e] eqn:Hres; [by apply (Hm text src)|].
  cbn [r_score]. unfold unit_interval. lra.
Qed.

Lemma score_text_bounded (text : string) (metrics : list metric)
    (weights : gmap string Q) (src : option string) :
  Forall bounded metrics → nonneg weights →
  unit_interval (score_text text metrics weights src).1.
Proof.
  intros Hm Hw. unfold score_text. cbn [fst].
  apply aggregate_unit; [done|].
  intros r [m [-> Hin]]%list_elem_of_fmap _.
  apply score_one_bounded. rewrite Forall_forall in Hm. by apply Hm.
Qed.

Lemma repo_metrics_bounded
    (diacritics : Diacritics.t) (tam : TAMParticles.patterns)
    (ke_ka : ArticlesKeKa.t) (a_an : ArticlesAAn.t) (spelling : SpellingChecker.t) :
  Forall bounded
    [Diacritics.as_metric diacritics; TAMParticles.as_metric tam;
     ArticlesKeKa.as_metric ke_ka; ArticlesAAn.as_metric a_an;
     SubjectVerbAgreement.as_metric; SpellingChecker.as_metric spelling;
     PunctuationChecker.as_metric].
Proof.
  repeat apply Forall_cons_2; [..|apply Forall_nil_2];
    intros text src res [= <-];
    first [ apply diacritics_bounds | apply tam_bounds | apply keka_bounds
          | apply a_an_bounds | apply subject_verb_bounds | apply spelling_bounds
          | apply punctuation_bounds ].
Qed.

(** X15. The reward of a text is between 0 and 1 when no weight is
    negative and every metric that returns gives a score between 0 and 1,
    as the seven metrics of the repository do; a metric that raises counts
    with the score 0.0, and its record carries the message of the
    exception. *)
Theorem reward_in_unit_interval (text : string) (metrics : list metric)
    (weights : gmap string Q) (src : option string) :
  Forall bounded metrics →
  nonneg weights →
  unit_interval (score_text text metrics weights src).1
  ∧ ∀ m e, m ∈ metrics → m_score m text src = Raise e →
      mk_result (m_name m) (m_version m) 0 (JObj [("error", JStr (exn_str e))])
      ∈ (score_text text metrics weights src).2.
Proof.
  intros Hm Hw. split; [by apply score_text_bounded|].
  intros m e Hin He. unfold score_text. cbn [snd].
  apply list_elem_of_fmap. exists m. split; [|done].
  unfold score_one. by rewrite He.
Qed.

Lemma score_candidates_bounded (with_details : bool) (metrics : list metric)
    (weights : gmap string Q) (src : string) (candidates : list string) :
  Forall bounded metrics → nonneg weights →
  ∀ c, c ∈ score_candidates with_details metrics weights src candidates →
       unit_interval (sc_R c).
Proof.
  intros Hm Hw c Hc. unfold score_candidates in Hc.
  apply list_elem_of_lookup in Hc as [j Hj].
  rewrite list_lookup_imap in Hj.
  destruct (candidates !! j) as [text|]; [|done]. cbn in Hj.
  injection Hj as <-.
  exact (score_text_bounded text metrics weights (Some src) Hm Hw).
Qed.
End RewardFacts.

(** ** The gym and the API on the bandit *)

Section LoopFacts.
Import Bandit Run RunFacts Scoring WeightedMean Weights Pipeline Ranked Loops.

Lemma rank_nonempty (scored_candidates : list scored_candidate) :
  scored_candidates ≠ [] →
  ∃ best rest,
    rank scored_candidates = Ok (best, best :: rest)
    ∧ best :: rest ≡ₚ scored_candidates
    ∧ ∀ c, c ∈ best :: rest → sc_R c <= sc_R best.
Proof.
  intros Hne. unfold rank.
  pose proof (sort_desc_perm sc_R scored_candidates) as Hperm.
  pose proof (sort_desc_descending sc_R scored_candidates) as Hdesc.
  destruct (sort_desc sc_R scored_candidates) as [|best rest].
  - symmetry in Hperm. by apply Permutation_nil_r in Hperm.
  - exists best, rest. split; [done|]. split; [done|].
    inversion_clear Hdesc as [|? ? _ Hall]. rewrite Forall_forall in Hall.
    intros c [->|Hc]%elem_of_cons; [lra|by apply Hall].
Qed.

Lemma score_candidates_nil (with_details : bool) (metrics : list metric)
    (weights : gmap string Q) (src : string) (candidates : list string) :
  score_candidates with_details metrics weights src candidates = []
  ↔ candidates = [].
Proof.
  unfold score_candidates. split; [|by intros ->].
  intros Hnil. apply (f_equal length) in Hnil. rewrite length_imap in Hnil.
  by destruct candidates.
Qed.

Section Gym.
Variable generate : string → Z → string → Q → list string.
Variables (metrics : list metric) (weights : gmap string Q).
Variables (k : Z) (temperature : Q).

(** X16. An example for which the generator returns no candidate stops the
    gym with [IndexError]: the selection has been counted and logged, and no
    reward is recorded, the values and counts being as before. *)
Theorem gym_example_without_candidates (u : Q) (i : nat)
    (example_id src : string) (ref : option string) (b : bandit) :
  keyed b →
  prompts b ≠ [] →
  (∀ prompt, generate src k prompt temperature = []) →
  let r := process_example generate metrics weights k temperature u i
             example_id src ref b in
  r = ((pick u i b).1, Raise IndexError)
  ∧ total_selections r.1 = (total_selections b + 1)%Z
  ∧ length (history r.1) = S (length (history b))
  ∧ values r.1 = values b
  ∧ counts r.1 = counts b.
Proof.
  intros Hk Hne Hgen. cbv zeta.
  assert (process_example generate metrics weights k temperature u i
            example_id src ref b = ((pick u i b).1, Raise IndexError)) as ->.
  { unfold process_example. unfold_M.
    destruct (pick_returns_listed u i b Hk Hne) as (p & v & _ & _ & ->).
    cbn [fst snd]. by rewrite Hgen. }
  destruct (pick_returns_listed u i b Hk Hne) as (p & v & _ & _ & ->).
  cbn. rewrite length_app. cbn. repeat split; lia.
Qed.

Lemma process_example_sound (u : Q) (i : nat) (example_id src : string)
    (ref : option string) (b : bandit) :
  sound b → prompts b ≠ [] →
  (∀ prompt, generate src k prompt temperature ≠ []) →
  ∃ p best rest,
    (pick u i b).2 = Ok p
    ∧ p ∈ prompts b
    ∧ rank (score_candidates true metrics weights src
              (generate src k p temperature)) = Ok (best, best :: rest)
    ∧ process_example generate metrics weights k temperature u i
        example_id src ref b
      = (run b [Pick u i; Update p (sc_R best)],
         Ok (mk_gym_result example_id src ref best (best :: rest) p weights)).
Proof.
  intros Hs Hne Hgen.
  destruct (pick_returns_listed u i b (proj1 Hs) Hne) as (p & v & Hp & Hv & Hpick).
  destruct (rank_nonempty (score_candidates true metrics weights src
                             (generate src k p temperature)))
    as (best & rest & Hrank & _).
  { rewrite score_candidates_nil. apply Hgen. }
  exists p, best, rest. rewrite Hpick. split; [done|]. split; [done|].
  split; [done|].
  unfold process_example. unfold_M. rewrite Hpick. cbn [fst snd].
  rewrite Hrank. cbn [fst snd].
  assert (sound (pick u i b).1) as Hs' by apply (step_sound b (Pick u i) Hs).
  assert (p ∈ prompts (pick u i b).1) as Hp'
    by (by destruct (pick_frame u i b) as (-> & _)).
  destruct (update_sound p (sc_R best) (pick u i b).1 Hs' Hp')
    as (c & w & _ & _ & Hupd).
  unfold run. cbn [foldl step]. rewrite Hpick in Hupd. cbn [fst] in Hupd.
  rewrite Hpick. cbn [fst]. rewrite Hupd. reflexivity.
Qed.

(** X17. An example with candidates, on a bandit with a non-empty prompt
    list, an entry for every prompt and no negative count: the gym returns;
    what it does to the bandit is one [pick] followed by one [update] of the
    prompt picked with the reward of the best candidate; the candidates and
    the best one of the result are what [rank] gives for the scored
    candidates that the generator returned for the prompt picked, so the
    ranked candidates are all of these, ordered by reward, and the best
    candidate is one of them and none of them has a larger reward. *)
Theorem gym_example_rewards_picked_prompt (u : Q) (i : nat)
    (example_id src : string) (ref : option string) (b : bandit) :
  sound b →
  prompts b ≠ [] →
  (∀ prompt, generate src k prompt temperature ≠ []) →
  ∃ res,
    process_example generate metrics weights k temperature u i
      example_id src ref b
    = (run b [Pick u i; Update (g_prompt res) (sc_R (g_best res))], Ok res)
    ∧ (pick u i b).2 = Ok (g_prompt res)
    ∧ g_prompt res ∈ prompts b
    ∧ rank (score_candidates true metrics weights src
              (generate src k (g_prompt res) temperature))
      = Ok (g_best res, g_candidates res)
    ∧ stably_ranks sc_R
        (score_candidates true metrics weights src
           (generate src k (g_prompt res) temperature))
        (g_candidates res)
    ∧ g_best res ∈ g_candidates res
    ∧ (∀ c, c ∈ g_candidates res → sc_R c <= sc_R (g_best res))
    ∧ g_example_id res = example_id.
Proof.
  intros Hs Hne Hgen.
  destruct (process_example_sound u i example_id src ref b Hs Hne Hgen)
    as (p & best & rest & Hpick & Hp & Hrank & ->).
  exists (mk_gym_result example_id src ref best (best :: rest) p weights).
  cbn [g_prompt g_best g_candidates g_example_id].
  split; [done|]. split; [done|]. split; [done|]. split; [done|].
  split; [by apply (rank_returns _ _ best)|].
  split; [apply list_elem_of_here|].
  destruct (rank_nonempty (score_candidates true metrics weights src
                             (generate src k p temperature)))
    as (best' & rest' & Hrank' & Hperm & Hmax).
  { rewrite score_candidates_nil. apply Hgen. }
  rewrite Hrank in Hrank'. simplify_eq. done.
Qed.

(** What an example does to the bandit, whether it returns or raises, is
    a pick, possibly followed by an update with the reward of a scored
    candidate. *)
Lemma process_example_is_run (u : Q) (i : nat) (example_id src : string)
    (ref : option string) (b : bandit) :
  (process_example generate metrics weights k temperature u i
     example_id src ref b).1 = run b [Pick u i]
  ∨ ∃ p best,
      best ∈ score_candidates true metrics weights src
               (generate src k p temperature)
      ∧ (process_example generate metrics weights k temperature u i
           example_id src ref b).1
        = run b [Pick u i; Update p (sc_R best)].
Proof.
  unfold process_example, run. unfold_M. cbn [foldl step].
  destruct (pick u i b) as [b1 [p|e]] eqn:Hpick; cbn [fst snd]; [|by left].
  destruct (rank _) as [[best ranked]|e] eqn:Hrank; cbn [fst snd]; [|by left].
  right. exists p, best. split.
  - unfold rank in Hrank.
    pose proof (sort_desc_perm sc_R (score_candidates true metrics weights src
                                       (generate src k p temperature))) as Hperm.
    destruct (sort_desc sc_R _) as [|best' rest]; [done|].
    injection Hrank as <- <-. rewrite <- Hperm. apply list_elem_of_here.
  - by destruct (update p (sc_R best) b1) as [b2 [[]|e]].
Qed.

Variable draws : nat → Q * nat.

Lemma process_examples_state (examples : list example) :
  ∀ (n : nat) (results : list gym_result) (b : bandit),
    Forall bounded metrics → nonneg weights →
    ∃ cs, (process_examples generate metrics weights k temperature draws
             n examples results b).1 = run b cs
          ∧ rewards_within 0 1 cs.
Proof.
  induction examples as [|e examples IH]; intros n results b Hm Hw.
  - exists []. split; [done|]. intros q r Hin. by apply elem_of_nil in Hin.
  - cbn [process_examples]. unfold_M.
    destruct (process_example_is_run (draws n).1 (draws n).2
                (e_id e) (e_src e) (e_ref e) b) as [Hst|(p & best & Hbest & Hst)].
    + destruct (process_example _ _ _ _ _ _ _ _ _ _ b) as [b1 [res|err]];
        cbn [fst] in Hst; subst b1.
      * destruct (IH (S n) (results ++ [res]) (run b [Pick (draws n).1 (draws n).2])
                    Hm Hw) as (cs & -> & Hcs).
        exists (Pick (draws n).1 (draws n).2 :: cs). split; [done|].
        intros q r [Heq|Hin]%elem_of_cons; [done|by apply (Hcs q r)].
      * exists [Pick (draws n).1 (draws n).2]. split; [done|].
        intros q r [Heq|Hin]%elem_of_cons; [done|by apply elem_of_nil in Hin].
    + assert (0 <= sc_R best <= 1) as Hr
        by apply (score_candidates_bounded true metrics weights (e_src e)
                    _ Hm Hw best Hbest).
      destruct (process_example _ _ _ _ _ _ _ _ _ _ b) as [b1 [res|err]];
        cbn [fst] in Hst; subst b1.
      * destruct (IH (S n) (results ++ [res])
                    (run b [Pick (draws n).1 (draws n).2; Update p (sc_R best)])
                    Hm Hw) as (cs & -> & Hcs).
        exists (Pick (draws n).1 (draws n).2 :: Update p (sc_R best) :: cs).
        split; [done|].
        intros q r [Heq|[Heq|Hin]%elem_of_cons]%elem_of_cons;
          [done|by injection Heq as -> ->|by apply (Hcs q r)].
      * exists [Pick (draws n).1 (draws n).2; Update p (sc_R best)].
        split; [done|].
        intros q r [Heq|[Heq|Hin]%elem_of_cons]%elem_of_cons;
          [done|by injection Heq as -> ->|by apply elem_of_nil in Hin].
Qed.

(** X18. The gym keeps the value estimates between 0 and 1. With weights
    that are not negative and metrics whose scores are between 0 and 1, the
    loop over the examples, however far it gets, leaves every value of the
    bandit between 0 and 1 when the values were there before and no count
    was negative. *)
Theorem gym_keeps_values_in_unit_interval (examples : list example) (n : nat)
    (results : list gym_result) (b : bandit) :
  Forall bounded metrics →
  nonneg weights →
  counts_nonneg b →
  values_within 0 1 b →
  values_within 0 1
    (process_examples generate metrics weights k temperature draws
       n examples results b).1.
Proof.
  intros Hm Hw Hc Hv.
  destruct (process_examples_state examples n results b Hm Hw) as (cs & -> & Hcs).
  by apply run_values_within.
Qed.

(** X19. When the generator returns candidates for every source, the loop
    over the examples completes on a bandit with a non-empty prompt list,
    an entry for every prompt and no negative count: there is one result
    per example, in order, each with a prompt of the list; the bandit has
    counted one selection and logged two entries per example. The average
    of the best rewards that the summary prints is a division by the number
    of results, and raises on an empty dataset. *)
Theorem gym_loop_completes (examples : list example) :
  ∀ (n : nat) (results : list gym_result) (b : bandit),
    sound b →
    prompts b ≠ [] →
    (∀ src prompt, generate src k prompt temperature ≠ []) →
    ∃ b' new,
      process_examples generate metrics weights k temperature draws
        n examples results b = (b', Ok (results ++ new))
      ∧ g_example_id <$> new = e_id <$> examples
      ∧ Forall (fun res => g_prompt res ∈ prompts b) new
      ∧ prompts b' = prompts b
      ∧ total_selections b'
        = (total_selections b + Z.of_nat (length examples))%Z
      ∧ length (history b') = (length (history b) + 2 * length examples)%nat.
Proof.
  induction examples as [|e examples IH]; intros n results b Hs Hne Hgen.
  - exists b, []. rewrite app_nil_r. cbn. repeat split; try done; lia.
  - cbn [process_examples]. unfold_M.
    destruct (process_example_sound (draws n).1 (draws n).2 (e_id e) (e_src e)
                (e_ref e) b Hs Hne (Hgen (e_src e)))
      as (p & best & rest & Hpick & Hp & Hrank & ->).
    set (cs := [Pick (draws n).1 (draws n).2; Update p (sc_R best)]).
    set (res := mk_gym_result (e_id e) (e_src e) (e_ref e) best (best :: rest)
                  p weights).
    assert (sound (run b cs)) as Hs' by (by do 2 apply step_sound).
    assert (prompts (run b cs) = prompts b) as Hps
      by (unfold run, cs; cbn [foldl]; by rewrite !step_prompts).
    assert (total_selections (run b cs) = (total_selections b + 1)%Z
            ∧ length (history (run b cs)) = (length (history b) + 2)%nat)
      as [Ht Hh].
    { destruct (step_log b (Pick (draws n).1 (draws n).2) Hs Hne) as [Ht1 Hh1].
      destruct (step_log (step b (Pick (draws n).1 (draws n).2))
                  (Update p (sc_R best))) as [Ht2 Hh2];
        [by apply step_sound|by rewrite step_prompts|].
      unfold run, cs. cbn [foldl]. rewrite Ht2, Hh2, Ht1, Hh1, step_prompts.
      unfold picks, known_updates.
      cbn [List.filter is_pick is_update_of length].
      rewrite bool_decide_eq_true_2 by done. cbn [length]. split; lia. }
    destruct (IH (S n) (results ++ [res]) (run b cs) Hs')
      as (b' & new & -> & Hids & Hprompts & Hps' & Ht' & Hh');
      [by rewrite Hps|done|].
    exists b', (res :: new). rewrite <- app_assoc. split; [done|].
    split; [cbn [fmap list_fmap]; by rewrite <- Hids|].
    split; [constructor; [done|by rewrite Hps in Hprompts]|].
    split; [by rewrite Hps', Hps|].
    split; [rewrite Ht', Ht; cbn [length]; lia|].
    rewrite Hh', Hh; cbn [length]; lia.
Qed.

Lemma foldl_Qplus_bounds (l : list Q) :
  ∀ acc, Forall (fun x => 0 <= x <= 1) l →
    acc <= foldl Qplus acc l <= acc + inject_Z (Z.of_nat (length l)).
Proof.
  induction l as [|x l IH]; intros acc Hall.
  - cbn [foldl length]. change (inject_Z (Z.of_nat 0)) with 0. lra.
  - inversion_clear Hall as [|? ? Hx Hl]. cbn [foldl length].
    destruct (IH (acc + x) Hl) as [IH1 IH2].
    rewrite Nat2Z.inj_succ, <- Z.add_1_r, inject_Z_plus.
    change (inject_Z 1) with 1. split; lra.
Qed.

(** X20. The average of the best rewards in the summary of the gym: with
    no result it raises [ZeroDivisionError]; with results it is returned,
    and it is between 0 and 1 when the best rewards are. *)
Theorem gym_summary_average (results : list gym_result) :
  (results = [] → average_best results = Raise ZeroDivisionError)
  ∧ (results ≠ [] →
     ∃ avg, average_best results = Ok avg
            ∧ avg * inject_Z (Z.of_nat (length results))
              == foldl Qplus 0 ((fun r => sc_R (g_best r)) <$> results)
            ∧ (Forall (fun r => 0 <= sc_R (g_best r) <= 1) results →
               0 <= avg <= 1)).
Proof.
  split; [by intros ->|]. intros Hne. unfold average_best, truediv.
  assert (0 < Z.of_nat (length results))%Z as Hlen
    by (destruct results; [done|cbn [length]; lia]).
  destruct (Z.eqb_spec (Z.of_nat (length results)) 0) as [Hz|_]; [lia|].
  assert (0 < inject_Z (Z.of_nat (length results))) as Hpos
    by (change 0 with (inject_Z 0); by rewrite <- Zlt_Qlt).
  eexists. split; [done|]. split; [field; lra|].
  intros Hall.
  destruct (foldl_Qplus_bounds ((fun r => sc_R (g_best r)) <$> results) 0)
    as [H1 H2]; [by apply Forall_fmap|].
  rewrite length_fmap in H2.
  split; [apply Qle_shift_div_l|apply Qle_shift_div_r]; lra.
Qed.
End Gym.

Section Translate.
Variable showcase_generate : string → Z → list string.
Variable get_process_log : string → json.
Variable generate : string → Z → string → Q → list string.
Variable translate : string → string → string.
Variables (metrics : list metric) (weights : gmap string Q).
Variables (k_samples : Z) (temperature : Q) (prompt_template : string).

Lemma showcase_segment (u : Q) (i : nat) (segment_id segment_src : string)
    (b : bandit) :
  (translate_segment showcase_generate get_process_log generate translate
     metrics weights k_samples temperature prompt_template "showcase" u i
     segment_id segment_src b).1 = b.
Proof.
  unfold translate_segment. unfold_M. cbn [String.eqb Ascii.eqb Bool.eqb negb].
  by destruct (rank _) as [[best ranked]|e].
Qed.

(** X21. The showcase mode never touches the bandit: whatever the
    segments and the candidates, and whether the request is answered or
    fails, the bandit after the loop over the segments is the bandit
    before it. *)
Theorem showcase_leaves_bandit_alone (draws : nat → Q * nat)
    (segments : list segment) :
  ∀ (n : nat) (results : list translation_result) (b : bandit),
    (translate_segments showcase_generate get_process_log generate translate
       metrics weights k_samples temperature prompt_template "showcase" draws
       n segments results b).1 = b.
Proof.
  induction segments as [|s segments IH]; intros n results b; [done|].
  cbn [translate_segments]. unfold_M.
  pose proof (showcase_segment (draws n).1 (draws n).2 (s_id s) (s_src s) b) as Hb.
  destruct (translate_segment _ _ _ _ _ _ _ _ _ _ _ _ _ _ b) as [b1 [res|e]];
    cbn [fst] in Hb; subst b1; [apply IH|done].
Qed.

(** X22. Every mode other than [showcase] and [rlvr] is the standard mode:
    the one translation is the only candidate and the best one, and its
    reward updates the configured prompt although no selection is counted.
    When the bandit does not list that prompt the segment fails with the
    unknown-prompt error and the bandit is as before. *)
Theorem standard_mode_updates_without_selection (mode : string) (u : Q) (i : nat)
    (segment_id segment_src : string) (b : bandit) :
  mode ≠ "showcase" →
  mode ≠ "rlvr" →
  let text := translate segment_src prompt_template in
  let candidate := scored false metrics weights segment_src 0 text in
  let r := translate_segment showcase_generate get_process_log generate
             translate metrics weights k_samples temperature prompt_template
             mode u i segment_id segment_src b in
  r.1 = (update prompt_template (sc_R candidate) b).1
  ∧ total_selections r.1 = total_selections b
  ∧ (sound b → prompt_template ∈ prompts b →
     r.2 = Ok (mk_translation_result segment_id text [candidate]
                 prompt_template weights None))
  ∧ (prompt_template ∉ prompts b →
     r = (b, Raise (ValueError ("Unknown prompt: " ++ prompt_template)))).
Proof.
  intros Hshow Hrlvr. cbv zeta.
  apply String.eqb_neq in Hshow, Hrlvr.
  unfold translate_segment. unfold_M. rewrite Hshow, Hrlvr. cbn [negb].
  change (rank (score_candidates false metrics weights segment_src
                  [translate segment_src prompt_template]))
    with (Ok (scored false metrics weights segment_src 0
                (translate segment_src prompt_template),
              [scored false metrics weights segment_src 0
                 (translate segment_src prompt_template)])).
  cbn [fst snd].
  set (candidate := scored false metrics weights segment_src 0
                      (translate segment_src prompt_template)).
  split; [by destruct (update _ _ b) as [b1 [[]|e]]|].
  split.
  { assert (total_selections (update prompt_template (sc_R candidate) b).1
            = total_selections b) as Ht.
    { unfold update. unfold_M.
      destruct (bool_decide (prompt_template ∈ prompts b)); simpl; [|done].
      unfold getitem. destruct (counts b !! prompt_template) as [c|]; simpl; [|done].
      rewrite lookup_insert_eq.
      destruct (values b !! prompt_template) as [v|]; simpl; [|done].
      unfold Float64.truediv. destruct (c + 1 =? 0)%Z; simpl; [done|].
      by rewrite lookup_insert_eq. }
    by destruct (update _ _ b) as [b1 [[]|e]]. }
  split.
  - intros Hs Hin.
    by destruct (update_sound prompt_template (sc_R candidate) b Hs Hin)
      as (c & v & _ & _ & ->).
  - intros Hnin. by rewrite update_unknown.
Qed.

Lemma rlvr_segment (u : Q) (i : nat)
    (segment_id segment_src : string) (b : bandit) :
  sound b →
  prompts b ≠ [] →
  (∀ prompt, generate segment_src k_samples prompt temperature ≠ []) →
  ∃ p best rest,
    (pick u i b).2 = Ok p
    ∧ p ∈ prompts b
    ∧ rank (score_candidates false metrics weights segment_src
              (generate segment_src k_samples p temperature))
      = Ok (best, best :: rest)
    ∧ translate_segment showcase_generate get_process_log generate translate
        metrics weights k_samples temperature prompt_template "rlvr" u i
        segment_id segment_src b
      = (run b [Pick u i; Update p (sc_R best)],
         Ok (mk_translation_result segment_id (sc_text best) (best :: rest) p
               weights None)).
Proof.
  intros Hs Hne Hgen.
  destruct (pick_returns_listed u i b (proj1 Hs) Hne) as (p & v & Hp & Hv & Hpick).
  destruct (rank_nonempty (score_candidates false metrics weights segment_src
                             (generate segment_src k_samples p temperature)))
    as (best & rest & Hrank & _).
  { rewrite score_candidates_nil. apply Hgen. }
  exists p, best, rest. rewrite Hpick. split; [done|]. split; [done|].
  split; [done|].
  unfold translate_segment. unfold_M.
  cbn [String.eqb Ascii.eqb Bool.eqb negb].
  rewrite Hpick. cbn [fst snd]. rewrite Hrank. cbn [fst snd].
  assert (sound (pick u i b).1) as Hs' by apply (step_sound b (Pick u i) Hs).
  assert (p ∈ prompts (pick u i b).1) as Hp'
    by (by destruct (pick_frame u i b) as (-> & _)).
  destruct (update_sound p (sc_R best) (pick u i b).1 Hs' Hp')
    as (c & w & _ & _ & Hupd).
  unfold run. cbn [foldl step]. rewrite Hpick in Hupd. cbn [fst] in Hupd.
  rewrite Hpick. cbn [fst]. rewrite Hupd. reflexivity.
Qed.

(** X23. The mode [rlvr] does to the bandit what the gym does: on a
    bandit with a non-empty prompt list, an entry for every prompt and no
    negative count, and with candidates from the generator, a segment is
    answered, and the bandit has made one [pick] and one [update] of the
    prompt picked with the reward of the best candidate, whose text is the
    answer. *)
Theorem rlvr_mode_rewards_picked_prompt (u : Q) (i : nat)
    (segment_id segment_src : string) (b : bandit) :
  sound b →
  prompts b ≠ [] →
  (∀ prompt, generate segment_src k_samples prompt temperature ≠ []) →
  ∃ p best rest,
    (pick u i b).2 = Ok p
    ∧ p ∈ prompts b
    ∧ rank (score_candidates false metrics weights segment_src
              (generate segment_src k_samples p temperature))
      = Ok (best, best :: rest)
    ∧ translate_segment showcase_generate get_process_log generate translate
        metrics weights k_samples temperature prompt_template "rlvr" u i
        segment_id segment_src b
      = (run b [Pick u i; Update p (sc_R best)],
         Ok (mk_translation_result segment_id (sc_text best) (best :: rest) p
               weights None)).
Proof. apply rlvr_segment. Qed.
End Translate.

(** C3. A segment that the pipeline answers, in the gym or in the API in
    any of its modes, comes back with its candidates ranked: the returned
    list is a permutation of the scored candidates of the segment, in
    descending order of [R], with candidates of equal [R] in generation
    order, and the best candidate returned is its first element (the API
    returns the text of that element). The pipeline does answer when the
    candidate list is not empty and the bandit has a non-empty prompt list,
    an entry for every prompt and no negative count; without candidates
    nothing is returned. *)
Theorem candidates_ranked_by_reward :
  (∀ generate metrics weights k temperature u i example_id src ref
     (self self' : bandit) (res : gym_result),
     process_example generate metrics weights k temperature u i
       example_id src ref self = (self', Ok res) →
     let scored_candidates :=
       score_candidates true metrics weights src
         (generate src k (g_prompt res) temperature) in
     scored_candidates ≠ []
     ∧ stably_ranks sc_R scored_candidates (g_candidates res)
     ∧ g_candidates res !! 0%nat = Some (g_best res))
  ∧ (∀ showcase_generate get_process_log generate translate metrics weights
       k_samples temperature prompt_template mode u i segment_id segment_src
       (self self' : bandit) (res : translation_result),
       translate_segment showcase_generate get_process_log generate translate
         metrics weights k_samples temperature prompt_template mode u i
         segment_id segment_src self = (self', Ok res) →
       let scored_candidates :=
         score_candidates false metrics weights segment_src
           (segment_candidates showcase_generate generate translate k_samples
              temperature prompt_template mode (t_prompt res) segment_src) in
       scored_candidates ≠ []
       ∧ stably_ranks sc_R scored_candidates (t_candidates res)
       ∧ ∃ best, t_candidates res !! 0%nat = Some best
                 ∧ t_best res = sc_text best)
  ∧ (∀ generate metrics weights k temperature u i example_id src ref
       (self : bandit),
       sound self → prompts self ≠ [] →
       (∀ prompt, generate src k prompt temperature ≠ []) →
       ∃ self' res,
         process_example generate metrics weights k temperature u i
           example_id src ref self = (self', Ok res))
  ∧ (∀ showcase_generate get_process_log generate translate metrics weights
       k_samples temperature prompt_template u i segment_id segment_src
       (self : bandit),
       (showcase_generate segment_src k_samples ≠ [] →
        ∃ self' res,
          translate_segment showcase_generate get_process_log generate translate
            metrics weights k_samples temperature prompt_template "showcase" u i
            segment_id segment_src self = (self', Ok res))
       ∧ (sound self → prompts self ≠ [] →
          (∀ prompt, generate segment_src k_samples prompt temperature ≠ []) →
          ∃ self' res,
            translate_segment showcase_generate get_process_log generate translate
              metrics weights k_samples temperature prompt_template "rlvr" u i
              segment_id segment_src self = (self', Ok res)))
  ∧ (∀ generate metrics weights k temperature u i example_id src ref
       (self : bandit),
       (∀ prompt, generate src k prompt temperature = []) →
       ∃ self' e,
         process_example generate metrics weights k temperature u i
           example_id src ref self = (self', Raise e)).
Proof.
  assert (∀ l best ranked, rank l = Ok (best, ranked) → l ≠ []) as Hne.
  { intros l best ranked Hrank ->. done. }
  split; [|split; [|split; [|split]]].
  - intros generate metrics weights k temperature u i example_id src ref
      self self' res Hres. cbv zeta.
    apply process_example_returns_rank in Hres.
    split; [by apply (Hne _ _ _ Hres)|]. by apply rank_returns.
  - intros showcase_generate get_process_log generate translate metrics weights
      k_samples temperature prompt_template mode u i segment_id segment_src
      self self' res Hres. cbv zeta.
    apply translate_segment_returns_rank in Hres as (best & Hrank & Hbest).
    split; [by apply (Hne _ _ _ Hrank)|].
    destruct (rank_returns _ _ _ Hrank) as [Hranks Hfirst]. eauto.
  - intros generate metrics weights k temperature u i example_id src ref
      self Hs Hnil Hgen.
    destruct (process_example_sound generate metrics weights k temperature
                u i example_id src ref self Hs Hnil Hgen)
      as (p & best & rest & _ & _ & _ & ->). eauto.
  - intros showcase_generate get_process_log generate translate metrics weights
      k_samples temperature prompt_template u i segment_id segment_src self.
    split.
    + intros Hgen.
      destruct (rank_nonempty (score_candidates false metrics weights segment_src
                                 (showcase_generate segment_src k_samples)))
        as (best & rest & Hrank & _); [by rewrite score_candidates_nil|].
      unfold translate_segment. unfold_M.
      cbn [String.eqb Ascii.eqb Bool.eqb negb]. rewrite Hrank. eauto.
    + intros Hs Hnil Hgen.
      destruct (rlvr_segment showcase_generate get_process_log generate translate
                  metrics weights k_samples temperature prompt_template
                  u i segment_id segment_src self Hs Hnil Hgen)
        as (p & best & rest & _ & _ & _ & ->). eauto.
  - intros generate metrics weights k temperature u i example_id src ref
      self Hgen.
    unfold process_example. unfold_M.
    destruct (pick u i self) as [s1 [prompt|e]]; [|eauto].
    rewrite Hgen. cbn. eauto.
Qed.
End LoopFacts.

(** ** The mock generator *)

Section MockFacts.
Import Bandit MockGenerator.

Lemma fixtures_four :
  map_Forall (fun _ fixtures => length fixtures = 4%nat) mock_translations.
Proof.
  unfold mock_translations. repeat apply map_Forall_insert_2; try done.
Qed.

(** The loop ends before the fuel does: it returns a list that extends the
    one it was given, that is not shorter than [k], and that has exactly
    [k] entries when it was given fewer. *)
Lemma extend_spec (choose : nat → nat) (k : Z) (fuel : nat) :
  ∀ (n : nat) (candidates : list string),
    candidates ≠ [] →
    (k - Z.of_nat (length candidates) <= Z.of_nat fuel)%Z →
    ∃ l, extend choose k fuel n candidates = Ok l
         ∧ candidates `prefix_of` l
         ∧ Z.of_nat (length l) = Z.max k (Z.of_nat (length candidates))
         ∧ varied_from (length candidates) l.
Proof.
  induction fuel as [|fuel IH]; intros n candidates Hne Hfuel; cbn [extend].
  - exists candidates. split; [done|]. split; [done|]. split; [lia|].
    intros j c Hj Hc. apply lookup_lt_Some in Hc. lia.
  - destruct (Z.ltb_spec (Z.of_nat (length candidates)) k) as [Hlt|Hge].
    + destruct (choice_listed candidates (choose n) Hne) as (base & -> & Hbase).
      destruct (IH (S n) (candidates ++ [variation base])) as (l & -> & Hpre & Hlen & Hvar).
      { by destruct candidates. }
      { rewrite length_app. cbn [length]. lia. }
      exists l. split; [done|].
      split; [etrans; [|exact Hpre]; by apply prefix_app_r|].
      rewrite length_app in Hlen, Hvar. cbn [length] in Hlen, Hvar.
      split; [lia|].
      intros j c Hj Hc.
      destruct (decide (j = length candidates)) as [->|Hne'].
      * apply list_elem_of_lookup in Hbase as [j' Hj'].
        exists j', base. split; [by apply lookup_lt_Some in Hj'|].
        split.
        -- apply (prefix_lookup_Some (candidates ++ [variation base]));
             [|done]. by apply lookup_app_l_Some.
        -- assert (l !! length candidates = Some (variation base)) as Hl.
           { apply (prefix_lookup_Some (candidates ++ [variation base]));
               [|done]. rewrite lookup_app_r by lia.
             by rewrite Nat.sub_diag. }
           congruence.
      * apply (Hvar j c); [lia|done].
    + exists candidates. split; [done|]. split; [done|]. split; [lia|].
      intros j c Hj Hc. apply lookup_lt_Some in Hc. lia.
Qed.

(** X24. For a number [k] that is not negative the mock generator returns
    exactly [k] candidates, whatever the source and the random draws. For a
    source with fixtures they start with the fixtures, in order, and every
    candidate after the fixtures is a fixture or an earlier candidate with
    its ʻokina removed and its ā and ō replaced by a and o. *)
Theorem mock_generate_returns_k_candidates (choose : nat → nat) (src : string)
    (k : Z) (prompt : option string) (temperature : option Q) :
  (0 <= k)%Z →
  ∃ l, generate choose src k prompt temperature = Ok l
       ∧ length l = Z.to_nat k
       ∧ ∀ fixtures, mock_translations !! src = Some fixtures →
           take (Z.to_nat k) fixtures = take (length fixtures) l
           ∧ varied_from (length fixtures) l.
Proof.
  intros Hk. unfold generate.
  destruct (mock_translations !! src) as [fixtures|] eqn:Hsrc.
  - pose proof (fixtures_four src fixtures Hsrc) as Hfour. cbn beta in Hfour.
    destruct (extend_spec choose k (Z.to_nat k) 0 fixtures)
      as (l & -> & Hpre & Hlen & Hvar); [by destruct fixtures|lia|].
    unfold slice_to. destruct (Z.ltb_spec k 0) as [Hneg|_]; [lia|].
    exists (take (Z.to_nat k) l). split; [done|].
    split; [rewrite length_take; lia|].
    intros ? [= <-]. destruct Hpre as [rest ->].
    split.
    + rewrite take_take, take_app_le by lia.
      destruct (decide (Z.to_nat k <= length fixtures)%nat).
      * by rewrite Nat.min_r by lia.
      * rewrite Nat.min_l by lia. by rewrite !take_ge by lia.
    + intros j c Hj Hc. apply lookup_take_Some in Hc as [Hc Hjk].
      destruct (Hvar j c Hj Hc) as (j' & base & Hj' & Hbase & ->).
      exists j', base. split; [done|]. split; [|done].
      rewrite lookup_take_lt by lia. done.
  - eexists. split; [done|]. split; [by rewrite length_fmap, length_seq|done].
Qed.

(** X25. A negative [k] is a slice from the end: for a source with
    fixtures the mock generator returns the fixtures without the last [-k]
    of them, and for any other source it returns no candidate. *)
Theorem mock_generate_negative_k (choose : nat → nat) (src : string) (k : Z)
    (prompt : option string) (temperature : option Q) :
  (k < 0)%Z →
  generate choose src k prompt temperature
  = Ok (match mock_translations !! src with
        | Some fixtures => take (length fixtures - Z.to_nat (- k)) fixtures
        | None => []
        end).
Proof.
  intros Hk. unfold generate.
  destruct (mock_translations !! src) as [fixtures|].
  - replace (Z.to_nat k) with 0%nat by lia. cbn [extend].
    unfold slice_to. by destruct (Z.ltb_spec k 0) as [_|?]; [|lia].
  - by replace (Z.to_nat k) with 0%nat by lia.
Qed.

(** X26. The single translation of the mock generator is its first
    fixture for a source that has fixtures and the sentence
    [Hawaiian translation of: src] for any other; it is never the empty
    string that [translate] has for a generator without candidates. *)
Theorem mock_translate_first_candidate (choose : nat → nat) (src : string)
    (prompt : option string) :
  ∃ c, translate choose src prompt = Ok c
       ∧ c ≠ EmptyString
       ∧ match mock_translations !! src with
         | Some fixtures => fixtures !! 0%nat = Some c
         | None => c = ("Hawaiian translation of: " ++ src)%string
         end.
Proof.
  unfold translate, generate.
  destruct (mock_translations !! src) as [fixtures|] eqn:Hsrc.
  - pose proof (fixtures_four src fixtures Hsrc) as Hfour. cbn beta in Hfour.
    destruct fixtures as [|c fixtures]; [done|].
    change (Z.to_nat 1) with 1%nat. cbn [extend].
    destruct (Z.ltb_spec (Z.of_nat (length (c :: fixtures))) 1) as [Hlt|_];
      [cbn [length] in Hlt; lia|].
    exists c. split; [done|]. split; [|done].
    revert Hsrc. unfold mock_translations.
    rewrite !list_to_map_cons, list_to_map_nil.
    repeat (intros [[_ Heq]|[_ Hsrc]]%lookup_insert_Some;
            [by injection Heq as <- _|revert Hsrc]).
    by rewrite lookup_empty.
  - cbn. eexists. split; [done|]. split; [|done]. done.
Qed.
End MockFacts.

(** ** The reports of the metrics *)

Section ReportFacts.
Context `{Py.Lib}.

Lemma diacritics_entries (self : Diacritics.t) (words : list string) :
  ∀ acc : list Diacritics.entry * Z,
    acc.2 = Z.of_nat (length (filter (fun w => Diacritics.e_correct w = true) acc.1)) →
    let r := foldl (Diacritics.check_word self) acc words in
    r.2 = Z.of_nat (length (filter (fun w => Diacritics.e_correct w = true) r.1))
    ∧ (length r.1 <= length acc.1 + length words)%nat
    ∧ Forall (fun w => Diacritics.e_required w ∈ Diacritics.required_forms self
                       ∧ Diacritics.e_correct w
                         = String.eqb (Diacritics.e_normalized w)
                             (Diacritics.e_required w))
        (drop (length acc.1) r.1).
Proof.
  induction words as [|word words IH]; intros acc Hacc; cbn [foldl].
  - cbv zeta. split; [done|]. split; [lia|]. by rewrite drop_all.
  - set (acc' := Diacritics.check_word self acc word).
    assert (acc'.2 = Z.of_nat (length (filter
              (fun w => Diacritics.e_correct w = true) acc'.1))
            ∧ (length acc.1 <= length acc'.1 <= length acc.1 + 1)%nat
            ∧ take (length acc.1) acc'.1 = acc.1
            ∧ Forall (fun w => Diacritics.e_required w
                               ∈ Diacritics.required_forms self
                             ∧ Diacritics.e_correct w
                               = String.eqb (Diacritics.e_normalized w)
                                   (Diacritics.e_required w))
                (drop (length acc.1) acc'.1)) as (Hc & Hlen & Htake & Hnew).
    { unfold acc', Diacritics.check_word.
      destruct (Diacritics.first_required self _) as [required|] eqn:Hreq.
      - cbn [fst snd]. rewrite filter_app, !length_app, filter_cons, filter_nil.
        cbn [Diacritics.e_correct length].
        rewrite take_app_length, drop_app_length.
        split.
        { destruct (String.eqb _ required) eqn:Heq.
          - rewrite decide_True by done. cbn [length]. lia.
          - rewrite decide_False by done. cbn [length]. lia. }
        split; [lia|]. split; [done|].
        constructor; [|done]. cbn. split; [|done].
        unfold Diacritics.first_required in Hreq.
        apply find_some in Hreq as [Hin _]. by apply list_elem_of_In.
      - split; [done|]. split; [clear; lia|]. rewrite take_ge, drop_all by (clear; lia). done. }
    destruct (IH acc' Hc) as (IH1 & IH2 & IH3). cbv zeta.
    split; [done|]. split; [cbn [length]; lia|].
    assert (drop (length acc.1) (foldl (Diacritics.check_word self) acc' words).1
            = drop (length acc.1) acc'.1
              ++ drop (length acc'.1)
                   (foldl (Diacritics.check_word self) acc' words).1) as ->.
    { assert (∀ (words : list string) (a : list Diacritics.entry * Z),
                take (length a.1) (foldl (Diacritics.check_word self) a words).1
                = a.1) as Hpre.
      { clear. induction words as [|w ws IHw]; intros a; cbn [foldl].
        - by rewrite take_ge by lia.
        - unfold Diacritics.check_word at 2.
          destruct (Diacritics.first_required self _) as [required|]; [|apply IHw].
          match goal with |- context [foldl _ ?a' ws] => specialize (IHw a') end.
          cbn [fst] in IHw. rewrite length_app in IHw. cbn [length] in IHw.
          apply (f_equal (take (length a.1))) in IHw.
          rewrite take_take, Nat.min_l in IHw by lia.
          rewrite IHw. by rewrite take_app_length. }
      specialize (Hpre words acc').
      rewrite <- (take_drop (length acc'.1)
                    (foldl (Diacritics.check_word self) acc' words).1) at 1.
      rewrite Hpre, drop_app_le by lia. done. }
    apply Forall_app. done.
Qed.

Lemma ratio_one (c n : Z) :
  (0 <= c <= n)%Z → (0 < n)%Z →
  (inject_Z c / inject_Z n == 1 ↔ c = n).
Proof.
  intros Hc Hn.
  assert (0 < inject_Z n) as Hn'
    by (change 0 with (inject_Z 0); by rewrite <- Zlt_Qlt).
  split.
  - intros Heq. apply inject_Z_injective.
    assert (inject_Z c == (inject_Z c / inject_Z n) * inject_Z n) as ->
      by (field; lra).
    rewrite Heq. ring.
  - intros ->. field. lra.
Qed.

(** X27. The report of the diacritics metric is consistent: the words
    checked are at most the words of the text, each of them was compared
    with a form of the lexicon and is counted correct exactly when it
    equals that form; the number of correct words and the number of listed
    errors add up to the number checked; the score is 1 exactly when no
    error is listed, and in particular when no word was checked. *)
Theorem diacritics_report_is_consistent (self : Diacritics.t) (text : string)
    (src : option string) :
  let checked := (foldl (Diacritics.check_word self) ([], 0%Z) (Py.split text)).1 in
  let errors := filter (fun w => Diacritics.e_correct w = false) checked in
  let report := Diacritics.score self text src in
  json_get "checked" (r_details report) = Ok (JInt (Z.of_nat (length checked)))
  ∧ json_get "correct" (r_details report)
    = Ok (JInt (Z.of_nat (length checked) - Z.of_nat (length errors)))
  ∧ json_get "errors" (r_details report)
    = Ok (JArr (Diacritics.entry_json <$> errors))
  ∧ (length checked <= length (Py.split text))%nat
  ∧ Forall (fun w => Diacritics.e_required w ∈ Diacritics.required_forms self
                     ∧ (Diacritics.e_correct w = true
                        ↔ Diacritics.e_normalized w = Diacritics.e_required w))
      checked
  ∧ (r_score report == 1 ↔ errors = []).
Proof.
  cbv zeta.
  destruct (diacritics_entries self (Py.split text) ([], 0%Z) eq_refl)
    as (Hc & Hlen & Hall).
  cbv zeta in Hc, Hlen, Hall. cbn [fst length] in Hlen, Hall.
  rewrite drop_0 in Hall. unfold Diacritics.score.
  destruct (foldl (Diacritics.check_word self) ([], 0%Z) (Py.split text))
    as [checked correct_count].
  cbn [fst snd] in *. subst correct_count.
  assert (length checked
          = (length (filter (fun w => Diacritics.e_correct w = true) checked)
             + length (filter (fun w => Diacritics.e_correct w = false) checked))%nat)
    as Hsplit.
  { clear. induction checked as [|w ws IH]; [done|].
    rewrite !filter_cons. destruct (Diacritics.e_correct w).
    - rewrite decide_True, decide_False by done. cbn [length]. lia.
    - rewrite decide_False, decide_True by done. cbn [length]. lia. }
  cbn [r_details r_score].
  split; [done|].
  split.
  { assert ((Z.of_nat (length checked)
             - Z.of_nat (length (filter
                 (fun w => Diacritics.e_correct w = false) checked)))%Z
            = Z.of_nat (length (filter
                (fun w => Diacritics.e_correct w = true) checked))) as -> by lia.
    done. }
  split; [done|]. split; [lia|].
  split.
  { eapply Forall_impl; [exact Hall|]. intros w [Hin Hw]. split; [done|].
    rewrite Hw. apply String.eqb_eq. }
  destruct checked as [|w ws] eqn:Hchecked; [done|]. rewrite <- Hchecked in *.
  rewrite ratio_one; [| |rewrite Hchecked; cbn [length]; lia].
  - split.
    + intros Heq. apply length_zero_iff_nil. lia.
    + intros Herr. rewrite Herr in Hsplit. cbn [length] in Hsplit. lia.
  - split; [lia|]. lia.
Qed.








(** X29. The agreement metric never finds fault with a verb after a
    second-person subject: whatever the verb, [_check_verb_agreement]
    returns no error for a subject that it identifies as second person. *)
Theorem second_person_is_never_flagged (subject verb : string) :
  SubjectVerbAgreement._identify_subject_type subject
  = SubjectVerbAgreement.second_person →
  SubjectVerbAgreement._check_verb_agreement subject verb = None.
Proof.
  intros Hst. unfold SubjectVerbAgreement._check_verb_agreement.
  rewrite Hst. cbn [andb orb].
  repeat (destruct (bool_decide _); cbn [andb orb]; try done).
Qed.

Lemma pairs_from_length (words : list string) :
  ∀ i, (length (ArticlesKeKa.pairs_from i words) <= length words - 1)%nat.
Proof.
  induction words as [|w words IH]; intros i; [cbn; lia|].
  destruct words as [|w' words']; [cbn; lia|].
  change (ArticlesKeKa.pairs_from i (w :: w' :: words'))
    with ((if bool_decide (Py.lower w ∈ ["ke"; "ka"])
           then [(i, w, w')] else [])
          ++ ArticlesKeKa.pairs_from (S i) (w' :: words')).
  rewrite length_app. specialize (IH (S i)). cbn [length] in *.
  destruct (bool_decide _); cbn [length]; lia.
Qed.

(** X30. The report of the ke/ka metric is consistent: the pairs checked
    are fewer than the words, the last word never being read as an article;
    the correct pairs and the listed errors add up to the pairs checked;
    the score is 1 exactly when no pair is wrong. A text without a pair has
    a report without the field [errors]. *)
Theorem keka_report_is_consistent (self : ArticlesKeKa.t) (text : string)
    (src : option string) :
  let pairs := ArticlesKeKa._find_article_pairs (Py.split text) in
  let errors :=
    filter (fun p => ArticlesKeKa.is_correct self p.1.2 p.2 = false) pairs in
  let report := ArticlesKeKa.score self text src in
  json_get "checked" (r_details report) = Ok (JInt (Z.of_nat (length pairs)))
  ∧ json_get "correct" (r_details report)
    = Ok (JInt (Z.of_nat (length pairs) - Z.of_nat (length errors)))
  ∧ json_get "errors" (r_details report)
    = match pairs with
      | [] => Raise (KeyError "errors")
      | _ => Ok (JArr (ArticlesKeKa.pair_detail self <$> errors))
      end
  ∧ (length pairs <= length (Py.split text) - 1)%nat
  ∧ (r_score report == 1 ↔ errors = []).
Proof.
  cbv zeta. unfold ArticlesKeKa.score.
  pose proof (pairs_from_length (Py.split text) 0) as Hlen.
  fold (ArticlesKeKa._find_article_pairs (Py.split text)) in Hlen.
  pose proof (correct_count_length self
                (ArticlesKeKa._find_article_pairs (Py.split text)) 0%Z) as Hc.
  fold (ArticlesKeKa.correct_count self
          (ArticlesKeKa._find_article_pairs (Py.split text))) in Hc.
  rewrite Z.add_0_l in Hc.
  assert (∀ pairs : list (nat * string * string),
            length pairs
            = (length (filter (fun p => KeaoRule.agrees KeaoRule.keao_okina self
                                          p.1.2 p.2 = true) pairs)
               + length (filter (fun p => ArticlesKeKa.is_correct self
                                            p.1.2 p.2 = false) pairs))%nat)
    as Hsplit.
  { induction pairs as [|p ps IH]; [done|].
    rewrite !filter_cons, <- is_correct_agrees.
    destruct (ArticlesKeKa.is_correct self p.1.2 p.2).
    - rewrite decide_True, decide_False by done. cbn [length]. lia.
    - rewrite decide_False, decide_True by done. cbn [length]. lia. }
  specialize (Hsplit (ArticlesKeKa._find_article_pairs (Py.split text))).
  destruct (ArticlesKeKa._find_article_pairs (Py.split text)) as [|p pairs] eqn:Hp.
  - cbn [r_details r_score length]. repeat split; try done.
  - rewrite <- Hp in *. cbn [r_details r_score].
    split; [done|].
    split.
    { rewrite Hc.
      assert ((Z.of_nat (length (ArticlesKeKa._find_article_pairs (Py.split text)))
               - Z.of_nat (length (filter
                   (fun p => ArticlesKeKa.is_correct self p.1.2 p.2 = false)
                   (ArticlesKeKa._find_article_pairs (Py.split text)))))%Z
              = Z.of_nat (length (filter
                  (fun p => KeaoRule.agrees KeaoRule.keao_okina self p.1.2 p.2
                            = true)
                  (ArticlesKeKa._find_article_pairs (Py.split text)))))
        as -> by lia.
      done. }
    split; [done|]. split; [done|].
    rewrite Hc, ratio_one; [| |rewrite Hp; cbn [length]; lia].
    + split.
      * intros Heq. apply length_zero_iff_nil. lia.
      * intros Herr. rewrite Herr in Hsplit. cbn [length] in Hsplit. lia.
    + lia.
Qed.
End ReportFacts.

(** ** Instances of the properties above *)

Section Instances.
Import Bandit Run RunFacts Scoring WeightedMean Weights Breakdown Pipeline
  Ranked Loops MockGenerator Examples.

Lemma scenario_rewards_within : rewards_within 0 1 scenario.
Proof.
  intros q r Hin. unfold scenario in Hin.
  repeat (apply elem_of_cons in Hin as [Heq|Hin];
          [try discriminate Heq; injection Heq as _ ->; split; lra|]).
  by apply elem_of_nil in Hin.
Qed.

Lemma scenario_scores_within : scores_within 0 1 weights scenario_scores.
Proof.
  intros r Hin _. unfold scenario_scores in Hin.
  repeat (apply elem_of_cons in Hin as [->|Hin]; [cbn; lra|]).
  by apply elem_of_nil in Hin.
Qed.

Lemma example_metrics_bounded : Forall bounded metrics.
Proof.
  unfold metrics. repeat apply Forall_cons_2; [..|apply Forall_nil_2];
    intros text src res [= <-];
    first [ apply diacritics_bounds | apply tam_bounds | apply keka_bounds ].
Qed.

Lemma pick_counts_selection_first_witness :
  let b := init [] 0 (1 # 2) in
  prompts b = []
  ∧ total_selections (pick (1 # 2) 0 b).1 = 1%Z
  ∧ ∃ e, (pick (1 # 2) 0 b).2 = Raise e.
Proof.
  intros b.
  destruct (pick_counts_selection_first (1 # 2) 0 b)
    as (Ht & _ & _ & _ & _ & Hempty).
  split; [reflexivity|]. split; [exact Ht|].
  destruct (Hempty eq_refl) as (e & He & _). exists e. exact He.
Defined.

Lemma pick_returns_listed_prompt_witness :
  let b := init ["A"; "B"; "C"] 0 (1 # 2) in
  keyed b ∧ prompts b ≠ []
  ∧ ∃ p, (pick (1 # 3) 0 b).2 = Ok p ∧ p ∈ prompts b.
Proof.
  intros b.
  assert (keyed b) as Hk by apply init_keyed.
  assert (prompts b ≠ []) as Hne by discriminate.
  split; [exact Hk|]. split; [exact Hne|].
  destruct (pick_returns_listed_prompt (1 # 3) 0 b Hk Hne) as (p & v & Hp & _ & Heq).
  exists p. rewrite Heq. split; [reflexivity|exact Hp].
Defined.

Lemma pick_exploits_first_maximum_witness :
  let b := init ["A"; "B"; "C"] 0 (1 # 2) in
  keyed b ∧ prompts b ≠ [] ∧ epsilon b <= 1 # 3
  ∧ ∃ p n, (pick (1 # 3) 0 b).2 = Ok p ∧ prompts b !! n = Some p.
Proof.
  intros b.
  assert (keyed b) as Hk by apply init_keyed.
  assert (prompts b ≠ []) as Hne by discriminate.
  assert (epsilon b <= 1 # 3) as Hu by (cbn; lra).
  split; [exact Hk|]. split; [exact Hne|]. split; [exact Hu|].
  destruct (pick_exploits_first_maximum (1 # 3) 0 b Hk Hne Hu)
    as (p & v & n & Hp & _ & Hn & _).
  exists p, n. split; [exact Hp|exact Hn].
Defined.

Lemma values_stay_within_reward_bounds_witness :
  let b := init ["A"; "B"; "C"] 0 (1 # 2) in
  counts_nonneg b ∧ values_within 0 1 b ∧ rewards_within 0 1 scenario
  ∧ values_within 0 1 (run b scenario).
Proof.
  intros b.
  assert (counts_nonneg b) as Hc by apply init_counts_nonneg.
  assert (values_within 0 1 b) as Hv by (apply init_values_within; lra).
  split; [exact Hc|]. split; [exact Hv|].
  split; [exact scenario_rewards_within|].
  exact (proj1 (values_stay_within_reward_bounds scenario) b Hc Hv
           scenario_rewards_within).
Defined.

Lemma run_logs_every_call_witness :
  let b := init ["A"; "B"; "C"] 0 (1 # 2) in
  sound b ∧ prompts b ≠ []
  ∧ total_selections (run b scenario) = (total_selections b + Z.of_nat (picks scenario))%Z
  ∧ length (history (run b scenario))
    = (length (history b) + picks scenario + known_updates (prompts b) scenario)%nat.
Proof.
  intros b.
  assert (sound b) as Hs by apply init_sound.
  assert (prompts b ≠ []) as Hne by discriminate.
  split; [exact Hs|]. split; [exact Hne|].
  exact (run_logs_every_call scenario b Hs Hne).
Defined.

Lemma get_stats_ranks_prompts_witness :
  let b := run (init ["A"; "B"; "C"] 0 (1 # 2)) scenario in
  keyed b
  ∧ ∃ st, get_stats b = Ok st ∧ Forall (row_of b) (st_prompts st).
Proof.
  intros b.
  assert (keyed b) as Hk by apply run_keyed, init_keyed.
  split; [exact Hk|].
  destruct (get_stats_ranks_prompts b Hk) as (st & rows & Hst & _ & _ & _ & _ & Hall).
  exists st. split; [exact Hst|exact Hall].
Defined.

Lemma get_stats_missing_entry_raises_witness :
  let b := mk_bandit ["A"] 0 ∅ ∅ 0 [] in
  "A" ∈ prompts b
  ∧ (values b !! "A" = None ∨ counts b !! "A" = None)
  ∧ ∃ q, q ∈ prompts b ∧ get_stats b = Raise (KeyError q).
Proof.
  intros b.
  assert ("A" ∈ prompts b) as Hin by apply list_elem_of_here.
  assert (values b !! "A" = None ∨ counts b !! "A" = None) as Hmiss
    by (left; reflexivity).
  split; [exact Hin|]. split; [exact Hmiss|].
  exact (get_stats_missing_entry_raises b "A" Hin Hmiss).
Defined.

Lemma load_state_is_not_atomic_witness :
  let b0 := init ["A"; "B"; "C"] 0 (1 # 2) in
  let state := JObj [("prompts", JArr [JStr "P"]); ("epsilon", JFloat (1 # 4))] in
  (∅ : gmap string json) !! "state.json" = None
  ∧ load_state "state.json" ∅ b0 = (b0, Raise (FileNotFoundError "state.json"))
  ∧ load_state "state.json" (<["state.json" := state]> ∅) b0
    = (mk_bandit ["P"] (1 # 4) (values b0) (counts b0) 0 [],
       Raise (KeyError "values")).
Proof.
  intros b0 state.
  assert ((∅ : gmap string json) !! "state.json" = None) as Hnone
    by apply lookup_empty.
  split; [exact Hnone|].
  split; [exact (proj1 (load_state_is_not_atomic b0 "state.json" ∅) Hnone)|].
  exact (proj2 (load_state_is_not_atomic b0 "state.json"
                  (<["state.json" := state]> ∅))
           state ["P"] (1 # 4) (lookup_insert_eq _ _ _) eq_refl eq_refl eq_refl).
Defined.

Lemma aggregate_ignores_order_and_unweighted_witness :
  let cs := mk_result "fluency" "1.0" 0 JNull :: scenario_scores in
  present weights cs = present weights scenario_scores
  ∧ aggregate_scores cs weights = aggregate_scores scenario_scores weights.
Proof.
  intros cs.
  assert (present weights cs = present weights scenario_scores) as Hp.
  { unfold cs, present. rewrite filter_cons, decide_False; [done|].
    by intros [? ?]. }
  split; [exact Hp|].
  exact (proj1 (aggregate_ignores_order_and_unweighted cs scenario_scores weights)
           Hp).
Defined.

Lemma aggregate_within_score_bounds_witness :
  nonneg weights ∧ scores_within 0 1 weights scenario_scores
  ∧ 0 <= aggregate_scores scenario_scores weights <= 1.
Proof.
  split; [exact example_weights_nonneg|].
  split; [exact scenario_scores_within|].
  exact (proj1 (aggregate_within_score_bounds scenario_scores weights)
           example_weights_nonneg scenario_scores_within).
Defined.

Lemma scaled_weights_in_range :
  Weights.in_range (Qmult 7 <$> weights) scenario_scores.
Proof.
  assert (∀ x : Q, Qle_bool (Float64.pow2 (-200)) x && Qle_bool x (Float64.pow2 200)
                   = true → Float64.in_range x) as Hdec.
  { intros x [H1 H2]%andb_true_iff. right. by rewrite <- !Qle_bool_iff. }
  intros r w Hin. unfold scenario_scores in Hin.
  repeat (apply elem_of_cons in Hin as [->|Hin];
          [intros [= <-]; split; apply Hdec; by vm_compute|]).
  by apply elem_of_nil in Hin.
Qed.

Lemma aggregate_scale_invariant_witness :
  0 < 7
  ∧ 0 < total_weight weights scenario_scores
  ∧ Weights.in_range weights scenario_scores
  ∧ Weights.in_range (Qmult 7 <$> weights) scenario_scores
  ∧ (length (present weights scenario_scores) <= 1000)%nat
  ∧ Qabs (aggregate_scores scenario_scores (Qmult 7 <$> weights)
          - aggregate_scores scenario_scores weights)
    <= (2 # 1000000000000) * weighted_mean weights scenario_scores.
Proof.
  assert (0 < 7) as Hk by reflexivity.
  assert (0 < total_weight weights scenario_scores) as Hpos by reflexivity.
  assert (length (present weights scenario_scores) <= 1000)%nat as Hlen
    by (vm_compute; lia).
  split; [exact Hk|]. split; [exact Hpos|].
  split; [exact example_weights_in_range|].
  split; [exact scaled_weights_in_range|]. split; [exact Hlen|].
  exact (aggregate_scale_invariant 7 scenario_scores weights Hk Hpos
           example_weights_in_range scaled_weights_in_range Hlen).
Defined.

Lemma reward_in_unit_interval_witness :
  Forall bounded metrics ∧ nonneg weights
  ∧ unit_interval (score_text "ʻAʻole ua." metrics weights (Some "It is not raining.")).1.
Proof.
  split; [exact example_metrics_bounded|].
  split; [exact example_weights_nonneg|].
  exact (proj1 (reward_in_unit_interval "ʻAʻole ua." metrics weights
                  (Some "It is not raining.") example_metrics_bounded
                  example_weights_nonneg)).
Defined.

Lemma gym_example_without_candidates_witness :
  let b := init ["A"; "B"; "C"] 0 (1 # 2) in
  let generate := fun (_ : string) (_ : Z) (_ : string) (_ : Q) => @nil string in
  keyed b ∧ prompts b ≠ []
  ∧ (∀ prompt, generate "It is not raining." 4%Z prompt (7 # 10) = [])
  ∧ (process_example generate metrics weights 4 (7 # 10) (1 # 3) 0
       "ex1" "It is not raining." None b).2 = Raise IndexError.
Proof.
  intros b generate.
  assert (keyed b) as Hk by apply init_keyed.
  assert (prompts b ≠ []) as Hne by discriminate.
  assert (∀ prompt, generate "It is not raining." 4%Z prompt (7 # 10) = [])
    as Hgen by reflexivity.
  split; [exact Hk|]. split; [exact Hne|]. split; [exact Hgen|].
  destruct (gym_example_without_candidates generate metrics weights 4 (7 # 10)
              (1 # 3) 0 "ex1" "It is not raining." None b Hk Hne Hgen)
    as (Heq & _).
  rewrite Heq. reflexivity.
Defined.

Lemma gym_example_rewards_picked_prompt_witness :
  let b := init ["A"; "B"; "C"] 0 (1 # 2) in
  let generate := fun (_ : string) (_ : Z) (_ : string) (_ : Q) => candidates in
  sound b ∧ prompts b ≠ []
  ∧ (∀ prompt, generate "It is not raining." 4%Z prompt (7 # 10) ≠ [])
  ∧ ∃ res,
      (process_example generate metrics weights 4 (7 # 10) (1 # 3) 0
         "ex1" "It is not raining." None b).2 = Ok res
      ∧ g_prompt res ∈ prompts b.
Proof.
  intros b generate.
  assert (sound b) as Hs by apply init_sound.
  assert (prompts b ≠ []) as Hne by discriminate.
  assert (∀ prompt, generate "It is not raining." 4%Z prompt (7 # 10) ≠ [])
    as Hgen by discriminate.
  split; [exact Hs|]. split; [exact Hne|]. split; [exact Hgen|].
  destruct (gym_example_rewards_picked_prompt generate metrics weights 4 (7 # 10)
              (1 # 3) 0 "ex1" "It is not raining." None b Hs Hne Hgen)
    as (res & Heq & _ & Hp & _).
  exists res. rewrite Heq. split; [reflexivity|exact Hp].
Defined.

Lemma candidates_ranked_by_reward_witness :
  let b := init ["A"; "B"; "C"] 0 (1 # 2) in
  let generate := fun (_ : string) (_ : Z) (_ : string) (_ : Q) => candidates in
  sound b ∧ prompts b ≠ []
  ∧ (∀ prompt, generate "It is not raining." 4%Z prompt (7 # 10) ≠ [])
  ∧ ∃ b' res,
      process_example generate metrics weights 4 (7 # 10) (1 # 3) 0
        "ex1" "It is not raining." None b = (b', Ok res)
      ∧ stably_ranks sc_R
          (score_candidates true metrics weights "It is not raining." candidates)
          (g_candidates res)
      ∧ g_candidates res !! 0%nat = Some (g_best res).
Proof.
  intros b generate.
  assert (sound b) as Hs by apply init_sound.
  assert (prompts b ≠ []) as Hne by discriminate.
  assert (∀ prompt, generate "It is not raining." 4%Z prompt (7 # 10) ≠ [])
    as Hgen by discriminate.
  split; [exact Hs|]. split; [exact Hne|]. split; [exact Hgen|].
  destruct candidates_ranked_by_reward as (Hgym & _ & Hreturns & _).
  destruct (Hreturns generate metrics weights 4%Z (7 # 10) (1 # 3) 0%nat
              "ex1" "It is not raining." None b Hs Hne Hgen) as (b' & res & Heq).
  exists b', res. split; [exact Heq|].
  exact (proj2 (Hgym generate metrics weights 4%Z (7 # 10) (1 # 3) 0%nat
                  "ex1" "It is not raining." None b b' res Heq)).
Defined.

Lemma gym_keeps_values_in_unit_interval_witness :
  let b := init ["A"; "B"; "C"] 0 (1 # 2) in
  let generate := fun (_ : string) (_ : Z) (_ : string) (_ : Q) => candidates in
  let examples := [mk_example "ex1" "It is not raining." None] in
  Forall bounded metrics ∧ nonneg weights ∧ counts_nonneg b ∧ values_within 0 1 b
  ∧ values_within 0 1
      (process_examples generate metrics weights 4 (7 # 10)
         (fun _ => (1 # 3, 0%nat)) 0 examples [] b).1.
Proof.
  intros b generate examples.
  assert (counts_nonneg b) as Hc by apply init_counts_nonneg.
  assert (values_within 0 1 b) as Hv by (apply init_values_within; lra).
  split; [exact example_metrics_bounded|].
  split; [exact example_weights_nonneg|].
  split; [exact Hc|]. split; [exact Hv|].
  exact (gym_keeps_values_in_unit_interval generate metrics weights 4 (7 # 10)
           (fun _ => (1 # 3, 0%nat)) examples 0 [] b example_metrics_bounded
           example_weights_nonneg Hc Hv).
Defined.

Lemma gym_loop_completes_witness :
  let b := init ["A"; "B"; "C"] 0 (1 # 2) in
  let generate := fun (_ : string) (_ : Z) (_ : string) (_ : Q) => candidates in
  let examples := [mk_example "ex1" "It is not raining." None;
                   mk_example "ex2" "Do not go there." None] in
  sound b ∧ prompts b ≠ []
  ∧ (∀ src prompt, generate src 4%Z prompt (7 # 10) ≠ [])
  ∧ ∃ b' new,
      process_examples generate metrics weights 4 (7 # 10)
        (fun _ => (1 # 3, 0%nat)) 0 examples [] b = (b', Ok new)
      ∧ g_example_id <$> new = ["ex1"; "ex2"]
      ∧ total_selections b' = 2%Z.
Proof.
  intros b generate examples.
  assert (sound b) as Hs by apply init_sound.
  assert (prompts b ≠ []) as Hne by discriminate.
  assert (∀ src prompt, generate src 4%Z prompt (7 # 10) ≠ [])
    as Hgen by discriminate.
  split; [exact Hs|]. split; [exact Hne|]. split; [exact Hgen|].
  destruct (gym_loop_completes generate metrics weights 4 (7 # 10)
              (fun _ => (1 # 3, 0%nat)) examples 0 [] b Hs Hne Hgen)
    as (b' & new & Heq & Hids & _ & _ & Ht & _).
  exists b', new. split; [exact Heq|]. split; [exact Hids|exact Ht].
Defined.

Lemma gym_summary_average_witness :
  ([] : list gym_result) = []
  ∧ average_best [] = Raise ZeroDivisionError.
Proof.
  split; [reflexivity|].
  exact (proj1 (gym_summary_average []) eq_refl).
Defined.

Lemma standard_mode_updates_without_selection_witness :
  let b := init (prompt_variants "Translate.") (2 # 10) (1 # 2) in
  let r := translate_segment (fun _ _ => []) (fun _ => JNull)
             (fun _ _ _ _ => []) (fun _ _ => "ʻAʻole e ua ana.")
             metrics weights 4 (7 # 10) "Translate." "standard" (1 # 3) 0
             "s1" "It is not raining." b in
  "standard" ≠ "showcase" ∧ "standard" ≠ "rlvr"
  ∧ total_selections r.1 = total_selections b.
Proof.
  intros b r.
  assert ("standard" ≠ "showcase") as Hshow by discriminate.
  assert ("standard" ≠ "rlvr") as Hrlvr by discriminate.
  split; [exact Hshow|]. split; [exact Hrlvr|].
  exact (proj1 (proj2 (standard_mode_updates_without_selection
                         (fun _ _ => []) (fun _ => JNull) (fun _ _ _ _ => [])
                         (fun _ _ => "ʻAʻole e ua ana.") metrics weights 4 (7 # 10)
                         "Translate." "standard" (1 # 3) 0 "s1"
                         "It is not raining." b Hshow Hrlvr))).
Defined.

Lemma rlvr_mode_rewards_picked_prompt_witness :
  let b := init (prompt_variants "Translate.") 0 (1 # 2) in
  let generate := fun (_ : string) (_ : Z) (_ : string) (_ : Q) => candidates in
  sound b ∧ prompts b ≠ []
  ∧ (∀ prompt, generate "It is not raining." 4%Z prompt (7 # 10) ≠ [])
  ∧ ∃ p, (pick (1 # 3) 0 b).2 = Ok p ∧ p ∈ prompts b.
Proof.
  intros b generate.
  assert (sound b) as Hs by apply init_sound.
  assert (prompts b ≠ []) as Hne by discriminate.
  assert (∀ prompt, generate "It is not raining." 4%Z prompt (7 # 10) ≠ [])
    as Hgen by discriminate.
  split; [exact Hs|]. split; [exact Hne|]. split; [exact Hgen|].
  destruct (rlvr_mode_rewards_picked_prompt (fun _ _ => []) (fun _ => JNull)
              generate (fun _ _ => EmptyString) metrics weights 4 (7 # 10)
              "Translate." (1 # 3) 0 "s1" "It is not raining." b Hs Hne Hgen)
    as (p & best & rest & Hpick & Hp & _).
  exists p. split; [exact Hpick|exact Hp].
Defined.

Lemma mock_generate_returns_k_candidates_witness :
  (0 <= 6)%Z
  ∧ ∃ l, generate (fun n => n) "It is not raining." 6 None None = Ok l
         ∧ length l = 6%nat.
Proof.
  assert (0 <= 6)%Z as Hk by lia.
  split; [exact Hk|].
  destruct (mock_generate_returns_k_candidates (fun n => n) "It is not raining."
              6 None None Hk) as (l & Hl & Hlen & _).
  exists l. split; [exact Hl|exact Hlen].
Defined.

Lemma mock_generate_negative_k_witness :
  (-1 < 0)%Z
  ∧ generate (fun n => n) "It is not raining." (-1) None None
    = Ok ["ʻAʻole e ua ana."; "ʻAʻole ua."; "Aole e ua ana."].
Proof.
  assert (-1 < 0)%Z as Hk by lia.
  split; [exact Hk|].
  rewrite (mock_generate_negative_k (fun n => n) "It is not raining." (-1)
             None None Hk).
  reflexivity.
Defined.

Lemma second_person_is_never_flagged_witness :
  @SubjectVerbAgreement._identify_subject_type PyRef.lib "You"
  = SubjectVerbAgreement.second_person
  ∧ @SubjectVerbAgreement._check_verb_agreement PyRef.lib "You" "is" = None.
Proof.
  assert (@SubjectVerbAgreement._identify_subject_type PyRef.lib "You"
          = SubjectVerbAgreement.second_person) as Hst by reflexivity.
  split; [exact Hst|].
  exact (@second_person_is_never_flagged PyRef.lib "You" "is" Hst).
Defined.
End Instances.
